(** * Lagardere receipts: field extraction and summary aggregation

    A shallow embedding of the pure core of [desktop_app.py],
    [extract_predal.py], [lagardere_table.py] and [app.py]:
    the scan for the label "ПРЕДАЛ" over the text chunks of a document,
    the clean-up of the extracted value, the memoised resolution of
    document links, the grouping of output rows by responsible person, and
    the per-person summary table with brand subtotals.

    Python strings are sequences of Unicode code points, so a [str] is a
    [list N] here.  Dictionaries are [gmap]s, sets are [gset]s. *)

From Stdlib Require Import ZArith NArith QArith Qreduction Lia Ascii String.
From stdpp Require Import base option list gmap sorting.

Local Open Scope N_scope.

(** ** Python strings *)

Module PyStr.

Abbreviation pystr := (list N).

(** *** Literals

    Rocq string literals hold the UTF-8 bytes of the source text; [u]
    decodes them to code points so that the Cyrillic literals of the
    program can be written as they are in the source. *)

Definition byte_of (a : ascii) : N := N_of_ascii a.

Fixpoint bytes_of (s : string) : list N :=
  match s with
  | EmptyString => []
  | String a s' => byte_of a :: bytes_of s'
  end.

(** [utf8_decode pending acc bs]: [pending] continuation bytes are still
    expected for the code point accumulated in [acc]. *)
Fixpoint utf8_decode (pending : nat) (acc : N) (bs : list N) : pystr :=
  match bs with
  | [] => []
  | b :: bs' =>
      match pending with
      | S p =>
          let acc' := acc * 64 + (b - 128) in
          match p with
          | O => acc' :: utf8_decode O 0 bs'
          | S _ => utf8_decode p acc' bs'
          end
      | O =>
          if b <? 128 then b :: utf8_decode O 0 bs'
          else if b <? 224 then utf8_decode 1 (b - 192) bs'
          else if b <? 240 then utf8_decode 2 (b - 224) bs'
          else utf8_decode 3 (b - 240) bs'
      end
  end.

Definition u (s : string) : pystr := utf8_decode O 0 (bytes_of s).

(** *** Character classes and case mappings *)

(** [str.isspace] on one code point: the characters [str.strip()] removes. *)
Definition isspace (c : N) : bool :=
  ((9 <=? c) && (c <=? 13)) || ((28 <=? c) && (c <=? 32))
  || (c =? 133) || (c =? 160) || (c =? 5760)
  || ((8192 <=? c) && (c <=? 8202))
  || (c =? 8232) || (c =? 8233) || (c =? 8239) || (c =? 8287) || (c =? 12288).

(** [str.upper] on one code point, for Basic Latin, Latin-1 Supplement and
    the Cyrillic alphabet (U+0400 to U+045F), the scripts of the documents
    the program reads.  The result is a string: U+00DF (sharp s) becomes
    the two letters "SS".  Code points of other blocks are left as they
    are. *)
Definition upper_char (c : N) : pystr :=
  if (97 <=? c) && (c <=? 122) then [c - 32]
  else if c =? 181 then [924]
  else if c =? 223 then [83; 83]
  else if (224 <=? c) && (c <=? 254) && negb (c =? 247) then [c - 32]
  else if c =? 255 then [376]
  else if (1072 <=? c) && (c <=? 1103) then [c - 32]
  else if (1104 <=? c) && (c <=? 1119) then [c - 80]
  else [c].

(** [str.lower] on one code point, for the same blocks; U+0130 (capital I
    with dot above) is included because it is the one code point whose
    lower case is two code points long. *)
Definition lower_char (c : N) : pystr :=
  if (65 <=? c) && (c <=? 90) then [c + 32]
  else if (192 <=? c) && (c <=? 222) && negb (c =? 215) then [c + 32]
  else if c =? 304 then [105; 775]
  else if c =? 376 then [255]
  else if (1024 <=? c) && (c <=? 1039) then [c + 80]
  else if (1040 <=? c) && (c <=? 1071) then [c + 32]
  else [c].

Definition upper (s : pystr) : pystr := flat_map upper_char s.
Definition lower (s : pystr) : pystr := flat_map lower_char s.

(** *** Searching *)

Fixpoint startswith (s prefix : pystr) {struct prefix} : bool :=
  match prefix, s with
  | [], _ => true
  | _ :: _, [] => false
  | p :: prefix', c :: s' => (c =? p) && startswith s' prefix'
  end.

(** The lowest index where [sub] occurs in [s], if any. *)
Fixpoint index_of (s sub : pystr) : option nat :=
  if startswith s sub then Some O
  else match s with
       | [] => None
       | _ :: s' => S <$> index_of s' sub
       end.

(** [s.find(sub)]: the lowest index where [sub] occurs, [-1] if none. *)
Definition find (s sub : pystr) : Z :=
  match index_of s sub with
  | Some i => Z.of_nat i
  | None => (-1)%Z
  end.

(** [sub in s] *)
Definition contains (sub s : pystr) : bool :=
  match index_of s sub with
  | Some _ => true
  | None => false
  end.

(** Slices [s[i:]] and [s[:i]] for an index [i] that is not negative (a
    negative index counts from the end in Python; the program never
    slices with one). *)
Definition slice_from (s : pystr) (i : Z) : pystr := drop (Z.to_nat i) s.
Definition slice_to (s : pystr) (i : Z) : pystr := take (Z.to_nat i) s.

Definition len (s : pystr) : Z := Z.of_nat (length s).

Definition endswith_char (s : pystr) (c : N) : bool :=
  match last s with
  | Some d => d =? c
  | None => false
  end.

(** [s.replace(old, new)] for a non-empty [old]: occurrences are replaced
    left to right and do not overlap.  [skip] counts the characters of an
    occurrence that has just been replaced and are still to be passed
    over. *)
Fixpoint replace_from (skip : nat) (old new s : pystr) : pystr :=
  match s with
  | [] => []
  | c :: s' =>
      match skip with
      | S k => replace_from k old new s'
      | O =>
          if startswith s old
          then new ++ replace_from (Nat.pred (length old)) old new s'
          else c :: replace_from O old new s'
      end
  end.

Definition replace (s old new : pystr) : pystr := replace_from O old new s.

(** *** Stripping *)

Fixpoint lstrip_by (f : N -> bool) (s : pystr) : pystr :=
  match s with
  | [] => []
  | c :: s' => if f c then lstrip_by f s' else s
  end.

Fixpoint rstrip_by (f : N -> bool) (s : pystr) : pystr :=
  match s with
  | [] => []
  | c :: s' =>
      match rstrip_by f s' with
      | [] => if f c then [] else [c]
      | r => c :: r
      end
  end.

Definition strip_by (f : N -> bool) (s : pystr) : pystr :=
  lstrip_by f (rstrip_by f s).

Definition in_chars (chars : pystr) (c : N) : bool := existsb (N.eqb c) chars.

(** [s.strip()], [s.lstrip(chars)], [s.strip(chars)] *)
Definition strip (s : pystr) : pystr := strip_by isspace s.
Definition lstrip_chars (s chars : pystr) : pystr := lstrip_by (in_chars chars) s.
Definition strip_chars (s chars : pystr) : pystr := strip_by (in_chars chars) s.

(** Truthiness of a string: [if s:] *)
Definition truthy (s : pystr) : bool :=
  match s with [] => false | _ => true end.

End PyStr.
Import PyStr.

(** ** The field extractor, as written in each of the four entry points *)

(** A [for] loop over [enumerate(items)] whose body may [return]: the
    first index at which [body] returns a value decides the result, and
    running off the end gives [None]. *)
Fixpoint for_enumerate {A B} (body : nat -> A -> option B) (i : nat) (items : list A)
  : option B :=
  match items with
  | [] => None
  | x :: items' =>
      match body i x with
      | Some r => Some r
      | None => for_enumerate body (S i) items'
      end
  end.

Definition PREDAL : pystr := Eval vm_compute in u "ПРЕДАЛ".
Definition COLON : N := 58.
(** [" :\u00a0"] *)
Definition MARKER_PUNCT : pystr := [32; 58; 160].

(** What a call of [fetch_html] does: it returns the text and the content
    type of the document, or raises. *)
Inductive fetch_outcome : Type :=
| Fetched (html content_type : pystr)
| Raised.

(** ["text/html"] *)
Definition TEXT_HTML : pystr := Eval vm_compute in u "text/html".

(** ** Worksheets

    What the program reads of an [openpyxl] worksheet: rows of cells, a
    cell with a value and possibly a hyperlink.  A value that is not a
    string is kept as what the program can see of it: the text [str]
    gives, for a date also the text [strftime("%Y-%m-%d")] gives, and
    whether it is truthy. *)
Module openpyxl.

Inductive cell_value : Type :=
| VNone
| VStr (s : pystr)
| VDate (ymd text : pystr)
| VOther (text : pystr) (truth : bool).

(** A [Hyperlink] object: its [target], which may be [None]. *)
Record Hyperlink := { target : option pystr }.

Record Cell := { value : cell_value; hyperlink : option Hyperlink }.

(** Rows from row 1 on, a row being its cells from column 1 on. *)
Definition Worksheet := list (list Cell).

Definition empty_cell : Cell := {| value := VNone; hyperlink := None |}.

(** [str(v)] *)
Definition str (v : cell_value) : pystr :=
  match v with
  | VNone => [78; 111; 110; 101]
  | VStr s => s
  | VDate _ text => text
  | VOther text _ => text
  end.

(** [if v:] *)
Definition truth_value (v : cell_value) : bool :=
  match v with
  | VNone => false
  | VStr s => truthy s
  | VDate _ _ => true
  | VOther _ truth => truth
  end.

(** [ws.cell(row=r, column=c)], rows and columns counted from 1; a cell
    outside the stored rows is an empty cell. *)
Definition cell (ws : Worksheet) (r c : nat) : Cell :=
  default empty_cell (ws !! Nat.pred r ≫= fun row => row !! Nat.pred c).

(** [ws[1]]: the cells of the first row, each with its [column]. *)
Definition first_row (ws : Worksheet) : list (nat * Cell) :=
  imap (fun i c => (S i, c)) (default [] (ws !! O)).

(** [range(2, ws.max_row + 1)] *)
Definition data_rows (ws : Worksheet) : list nat := seq 2 (length ws - 1).

End openpyxl.


(** In the four copies below, the loop index [i] ranges over the positions
    of [chunks], so [chunks[i]] never raises, and [chunks[i + 1]] is read
    only under the guard [i + 1 < len(chunks)]: the [default []] of the
    two lookups is never taken. *)

(** [extract_predal.py] *)
Module extract_predal.

Definition extract_predal_from_chunks (chunks : list pystr) : option pystr :=
  let upper_chunks := map upper chunks in
  for_enumerate
    (fun i chunk_upper =>
       if contains PREDAL chunk_upper then
         let original := default [] (chunks !! i) in
         let idx := find (upper original) PREDAL in
         let after := slice_from original (idx + len PREDAL) in
         let after := lstrip_chars after MARKER_PUNCT in
         if truthy after then Some after
         else
           if (Z.of_nat i + 1 <? Z.of_nat (length chunks))%Z then
             let next_chunk := strip (default [] (chunks !! S i)) in
             if truthy next_chunk && negb (endswith_char next_chunk COLON)
             then Some next_chunk
             else None
           else None
       else None)
    O upper_chunks.

(** ["http"] *)
Definition HTTP : pystr := Eval vm_compute in u "http".

(** The link of a document, from the cell of its number. *)
Definition link_of_cell (cell : openpyxl.Cell) : option pystr :=
  let from_value :=
    match openpyxl.value cell with
    | openpyxl.VStr s => if startswith s HTTP then Some s else None
    | _ => None
    end in
  match openpyxl.hyperlink cell with
  | Some h =>
      match openpyxl.target h with
      | Some t => if truthy t then Some t else from_value
      | None => from_value
      end
  | None => from_value
  end.

Section load_links.
Context (ws : openpyxl.Worksheet) (number_header : pystr).

(** The header map of [load_links]: a header cell counts if its value is
    truthy. *)
Definition header_map : gmap pystr nat :=
  fold_left
    (fun header_map '(column, cell) =>
       if openpyxl.truth_value (openpyxl.value cell)
       then <[strip (openpyxl.str (openpyxl.value cell)) := column]> header_map
       else header_map)
    (openpyxl.first_row ws) ∅.

(** One round of the loop over the rows of the sheet: [seen] and
    [results] after it. *)
Definition load_link (acc : gset pystr * list (pystr * pystr)) (row : nat)
  : gset pystr * list (pystr * pystr) :=
  let '(seen, results) := acc in
  let number_col := default 2%nat (header_map !! number_header) in
  let cell := openpyxl.cell ws row number_col in
  match openpyxl.value cell with
  | openpyxl.VNone => (seen, results)
  | v =>
      let doc_number := strip (openpyxl.str v) in
      if negb (truthy doc_number) || bool_decide (doc_number ∈ seen)
      then (seen, results)
      else
        match link_of_cell cell with
        | Some link =>
            if truthy link
            then (seen ∪ {[doc_number]}, results ++ [(doc_number, link)])
            else (seen, results)
        | None => (seen, results)
        end
  end.

Definition load_links : list (pystr * pystr) :=
  snd (fold_left load_link (openpyxl.data_rows ws) (∅, [])).

End load_links.


Section main.
(** [fetch_html(url, cookie, timeout)] for the [n]-th request of the run. *)
Context (fetch_html : nat -> pystr -> fetch_outcome).
Context (html_to_chunks : pystr -> list pystr).

(** [url_cache], and the links requested so far, oldest first. *)
Record main_state := {
  url_cache : gmap pystr (option pystr);
  requests : list pystr
}.

(** One round of the loop over [links]: the new state and the element
    appended to [results]. *)
Definition main_row (st : main_state) (item : pystr * pystr)
  : main_state * (pystr * option pystr * pystr) :=
  let '(doc_number, url) := item in
  let '(st, predal) :=
    match url_cache st !! url with
    | Some cached => (st, cached)
    | None =>
        match fetch_html (length (requests st)) url with
        | Fetched html content_type =>
            let predal :=
              if negb (contains TEXT_HTML content_type) then None
              else
                let chunks := html_to_chunks html in
                extract_predal_from_chunks chunks in
            ({| url_cache := <[url := predal]> (url_cache st);
                requests := requests st ++ [url] |}, predal)
        | Raised =>
            let predal := None in
            ({| url_cache := <[url := predal]> (url_cache st);
                requests := requests st ++ [url] |}, predal)
        end
    end in
  (st, (doc_number, predal, url)).

Definition main_loop (acc : main_state * list (pystr * option pystr * pystr))
    (item : pystr * pystr)
  : main_state * list (pystr * option pystr * pystr) :=
  let '(st, result) := main_row (fst acc) item in
  (st, snd acc ++ [result]).

(** The loop of [main]: the final state and [results]. *)
Definition main (links : list (pystr * pystr))
  : main_state * list (pystr * option pystr * pystr) :=
  fold_left main_loop links ({| url_cache := ∅; requests := [] |}, []).

End main.

End extract_predal.

(** [lagardere_table.py] *)
Module lagardere_table.

Definition extract_predal_from_chunks (chunks : list pystr) : option pystr :=
  let upper_chunks := map upper chunks in
  for_enumerate
    (fun i chunk_upper =>
       if contains PREDAL chunk_upper then
         let original := default [] (chunks !! i) in
         let idx := find (upper original) PREDAL in
         let after := slice_from original (idx + len PREDAL) in
         let after := lstrip_chars after MARKER_PUNCT in
         if truthy after then Some after
         else
           if (Z.of_nat i + 1 <? Z.of_nat (length chunks))%Z then
             let next_chunk := strip (default [] (chunks !! S i)) in
             if truthy next_chunk && negb (endswith_char next_chunk COLON)
             then Some next_chunk
             else None
           else None
       else None)
    O upper_chunks.

End lagardere_table.

(** [app.py] *)
Module app.

Definition extract_predal_from_chunks (chunks : list pystr) : option pystr :=
  let upper_chunks := map upper chunks in
  for_enumerate
    (fun i chunk_upper =>
       if contains PREDAL chunk_upper then
         let original := default [] (chunks !! i) in
         let idx := find (upper original) PREDAL in
         let after := slice_from original (idx + len PREDAL) in
         let after := lstrip_chars after MARKER_PUNCT in
         if truthy after then Some after
         else
           if (Z.of_nat i + 1 <? Z.of_nat (length chunks))%Z then
             let next_chunk := strip (default [] (chunks !! S i)) in
             if truthy next_chunk && negb (endswith_char next_chunk COLON)
             then Some next_chunk
             else None
           else None
       else None)
    O upper_chunks.

End app.

(** ** Numbers

    Quantities are Python floats.  The program uses [float(text)], [+],
    [0.0], [value.is_integer()] and [int(value)]; the development is
    generic in them, so nothing is assumed about rounding or about the
    grammar [float] accepts. *)

Class PyFloat (F : Type) := {
  (** [float(text)]; [None] when it raises [ValueError] *)
  float_of_str : pystr -> option F;
  (** [0.0] *)
  fzero : F;
  (** [a + b] *)
  fadd : F -> F -> F;
  (** [value.is_integer()] *)
  is_integer : F -> bool;
  (** [int(value)] *)
  int_of : F -> Z
}.

(** What [format_num] returns: an [int] or a [float]. *)
Inductive num (F : Type) : Type :=
| NInt (z : Z)
| NFloat (f : F).
Arguments NInt {F} z.
Arguments NFloat {F} f.

(** [sum(xs)]: the additions start from the integer [0], which the first
    float addition converts to [0.0]. *)
Definition py_sum `{PyFloat F} (xs : list F) : F := fold_left fadd xs fzero.

(** Lexicographic order of code points: the order [sorted] uses on [str]. *)
Fixpoint str_leb (a b : pystr) : bool :=
  match a, b with
  | [], _ => true
  | _ :: _, [] => false
  | x :: a', y :: b' => (x <? y) || ((x =? y) && str_leb a' b')
  end.

Definition str_le (a b : pystr) : Prop := str_leb a b = true.

#[global] Instance str_le_dec a b : Decision (str_le a b).
Proof. unfold str_le. apply _. Defined.

(** [sorted(s)] for a set of strings *)
Definition sorted (s : gset pystr) : list pystr := merge_sort str_le (elements s).

(** [l[a:b]] for [0 <= a <= b] *)
Definition slice {A} (l : list A) (a b : nat) : list A := take (b - a) (drop a l).

(** ** [desktop_app.py] *)

Module desktop_app.

Definition PRODUCT_ORDER : list pystr := Eval vm_compute in map u [
  "PAZ X-Freeze";
  "PAZ X-Freeze +";
  "PAZ Cool Mint";
  "PAZ Cool mint +";
  "PAZ Lush ice";
  "PAZ Lush ice +";
  "PAZ Mango";
  "PAZ Mango winter +";
  "PAZ Berry frost";
  "PAZ Berry frost +";
  "V&YOU Boost+ Cool Berry";
  "V&YOU Boost+ Intense Mint";
  "V&YOU Boost+ Fresh Citrus";
  "V&YOU Boost+ Blueberry Ice";
  "V&YOU Boost+ Spearmint";
  "V&YOU Boost+ Grape soda";
  "V&YOU Boost+ Berry Fizz";
  "V&YOU Boost+ Mint Freeze";
  "V&YOU Boost+ Berry Kiwi rush";
  "V&YOU Boost+ Tropical fusion";
  "V&YOU Boost Max Frostbite";
  "V&YOU Boost Max Frutti Blast";
  "V&YOU Boost Max Savage mango";
  "01 Riot Kit Cherry cola";
  "02 Riot Kit Pink lemonade";
  "03 Riot Kit Mango peach pineapple";
  "04 Riot Kit Grape ice";
  "05 Riot Kit Blueberry sour raspberry";
  "01 Riot Capsule Cherry cola";
  "02 Riot Capsule Pink lemonade";
  "03 Riot Capsule Mango peach pineapple";
  "04 Riot Capsule Grape ice";
  "05 Riot Capsule Blueberry sour raspberry";
  "06 Riot Capsule Strawberry blueberry ice";
  "07 Riot Capsule Blue cherry burst";
  "08 Riot Capsule Classic tobacoo";
  "09 Riot Capsule Banana Ice";
  "10 Riot Capsule Lime";
  "11 Riot Capsule Strawberry Kiwi Apple";
  "12 Riot Capsule Triple Mint"
]%string.

(** The two configuration dictionaries, as the literals list them. *)
Definition BRAND_BOUNDARIES_items : list (pystr * pystr) := Eval vm_compute in [
  (u "PAZ Berry frost +", u "PAZ");
  (u "V&YOU Boost Max Savage mango", u "V&YOU");
  (u "05 Riot Kit Blueberry sour raspberry", u "RIOT Kit");
  (u "12 Riot Capsule Triple Mint", u "RIOT Capsule")
].

Definition BRAND_BOUNDARIES : gmap pystr pystr := list_to_map BRAND_BOUNDARIES_items.

Definition BRAND_PRODUCTS_items : list (pystr * list pystr) := [
  (u "PAZ", slice PRODUCT_ORDER 0 10);
  (u "V&YOU", slice PRODUCT_ORDER 10 23);
  (u "RIOT Kit", slice PRODUCT_ORDER 23 28);
  (u "RIOT Capsule", slice PRODUCT_ORDER 28 40)
].

Definition BRAND_PRODUCTS : gmap pystr (list pystr) := list_to_map BRAND_PRODUCTS_items.

Definition extract_predal_from_chunks (chunks : list pystr) : option pystr :=
  let upper_chunks := map upper chunks in
  for_enumerate
    (fun i chunk_upper =>
       if contains PREDAL chunk_upper then
         let original := default [] (chunks !! i) in
         let idx := find (upper original) PREDAL in
         let after := slice_from original (idx + len PREDAL) in
         let after := lstrip_chars after MARKER_PUNCT in
         if truthy after then Some after
         else
           if (Z.of_nat i + 1 <? Z.of_nat (length chunks))%Z then
             let next_chunk := strip (default [] (chunks !! S i)) in
             if truthy next_chunk && negb (endswith_char next_chunk COLON)
             then Some next_chunk
             else None
           else None
       else None)
    O upper_chunks.

(** ["(име, фамилия, подпис):"] *)
Definition BOILERPLATE : pystr := Eval vm_compute in u "(име, фамилия, подпис):".

Definition clean_predal (value : pystr) : pystr :=
  if negb (truthy value) then []
  else
    let text := strip value in
    let marker := BOILERPLATE in
    let lower_text := lower text in
    let idx := find lower_text marker in
    let text :=
      if negb (idx =? -1)%Z
      then strip (slice_to text idx ++ slice_from text (idx + len marker))
      else text in
    strip_chars text MARKER_PUNCT.

(** The rows [load_rows] returns, and the rows handed to [build_output]:
    6-tuples, with the client and then the responsible person in second
    place. *)
Record ReceiptRow := {
  r_number : pystr; r_client : pystr; r_date : pystr;
  r_product : pystr; r_qty : pystr; r_link : option pystr
}.

Record OutputRow := {
  number : pystr; predal : pystr; date_str : pystr;
  product : pystr; qty : pystr; link : option pystr
}.

(** *** Grouping by responsible person ([build_output]) *)

(** ["Неизвестен"] *)
Definition UNKNOWN : pystr := Eval vm_compute in u "Неизвестен".

Definition colleague_name (row : OutputRow) : pystr :=
  if truthy (strip (predal row)) then strip (predal row) else UNKNOWN.

Definition group_row (acc : list pystr * gmap pystr (list OutputRow)) (row : OutputRow)
  : list pystr * gmap pystr (list OutputRow) :=
  let '(colleague_order, by_colleague) := acc in
  let name := colleague_name row in
  let '(colleague_order, by_colleague) :=
    match by_colleague !! name with
    | None => (colleague_order ++ [name], <[name := []]> by_colleague)
    | Some _ => (colleague_order, by_colleague)
    end in
  (colleague_order,
   <[name := default [] (by_colleague !! name) ++ [row]]> by_colleague).

Definition group_rows (rows : list OutputRow)
  : list pystr * gmap pystr (list OutputRow) :=
  fold_left group_row rows ([], ∅).

(** The sheets [build_output] writes, in order: a name and its rows. *)
Definition sheets (rows : list OutputRow) : list (pystr * list OutputRow) :=
  let '(colleague_order, by_colleague) := group_rows rows in
  map (fun name => (name, default [] (by_colleague !! name))) colleague_order.

(** *** Quantities and product names *)

Definition SPACE : pystr := [32].
Definition COMMA : pystr := [44].
Definition DOT : pystr := [46].

Definition parse_quantity `{PyFloat F} (value : pystr) : option F :=
  let text := strip value in
  if negb (truthy text) then None
  else
    let text := replace text SPACE [] in
    let text :=
      if contains COMMA text && contains DOT text then replace text COMMA []
      else if contains COMMA text then replace text COMMA DOT
      else text in
    float_of_str text.

Definition TWO_SPACES : pystr := [32; 32].

(** [while "  " in text: text = text.replace("  ", " ")].  Every round
    shortens [text], so [length text] rounds are enough; [fuel] only makes
    the recursion structural. *)
Fixpoint collapse_loop (fuel : nat) (text : pystr) : pystr :=
  if contains TWO_SPACES text then
    match fuel with
    | O => text
    | S fuel' => collapse_loop fuel' (replace text TWO_SPACES SPACE)
    end
  else text.

Definition normalize_product (value : pystr) : pystr :=
  let text := lower (strip value) in
  collapse_loop (length text) text.

(** *** The summary table ([build_summary_for_colleague]) *)

(** [{normalize_product(p): p for p in PRODUCT_ORDER}]: a later entry
    with the same key would replace an earlier one. *)
Definition product_map : gmap pystr pystr :=
  fold_left (fun m p => <[normalize_product p := p]> m) PRODUCT_ORDER ∅.

(** ["Дата"] *)
Definition DATE_PLACEHOLDER : pystr := Eval vm_compute in u "Дата".

Section summary.
Context `{PyFloat F}.

Definition format_num (value : F) : num F :=
  if is_integer value then NInt (int_of value) else NFloat value.

(** One round of the loop over [rows]; a [continue] leaves the
    accumulators as they are. *)
Definition summary_row_step
    (acc : gmap (pystr * pystr) F * gset pystr) (row : OutputRow)
  : gmap (pystr * pystr) F * gset pystr :=
  let '(totals, date_set) := acc in
  let date_set :=
    if truthy (date_str row) then date_set ∪ {[date_str row]} else date_set in
  let prod_key := normalize_product (product row) in
  match product_map !! prod_key with
  | None => (totals, date_set)
  | Some prod =>
      match parse_quantity (qty row) with
      | None => (totals, date_set)
      | Some amount =>
          let key := (prod, if truthy (date_str row) then date_str row else []) in
          (<[key := fadd (default fzero (totals !! key)) amount]> totals, date_set)
      end
  end.

Definition totals_for_products (totals : gmap (pystr * pystr) F)
    (date_headers : list pystr) (products : list pystr) : list F :=
  map (fun date_val =>
         py_sum (map (fun p => default fzero (totals !! (p, date_val))) products))
      date_headers.

(** One round of the loop over [PRODUCT_ORDER].  [BRAND_PRODUCTS[brand]]
    raises [KeyError] for a brand that is not a key; every brand of
    [BRAND_BOUNDARIES] is one, so the [default] is never taken. *)
Definition summary_product_step (totals : gmap (pystr * pystr) F)
    (date_headers : list pystr)
    (summary_rows : list (pystr * list (num F))) (prod : pystr)
  : list (pystr * list (num F)) :=
  let row_totals :=
    map (fun date_val => format_num (default fzero (totals !! (prod, date_val))))
        date_headers in
  let summary_rows := summary_rows ++ [(prod, row_totals)] in
  match BRAND_BOUNDARIES !! prod with
  | Some brand =>
      let brand_totals :=
        totals_for_products totals date_headers
          (default [] (BRAND_PRODUCTS !! brand)) in
      summary_rows ++ [([], map format_num brand_totals)]
  | None => summary_rows
  end.

Definition build_summary_for_colleague (rows : list OutputRow)
  : list pystr * list (pystr * list (num F)) :=
  let '(totals, date_set) := fold_left summary_row_step rows (∅, ∅) in
  let date_headers := sorted date_set in
  let date_headers :=
    match date_headers with
    | [] => [DATE_PLACEHOLDER]
    | _ => date_headers
    end in
  let summary_rows :=
    fold_left (summary_product_step totals date_headers) PRODUCT_ORDER [] in
  (date_headers, summary_rows).

End summary.

(** *** Resolving the links of a run ([Worker.run]) *)

Section run.
(** [fetch_html(link, timeout)] for the [n]-th request of the run: the
    text and content type of the document, or an exception.  What the
    network answers may change from one request to the next. *)
Context (fetch_html : nat -> pystr -> fetch_outcome).
(** [html_to_chunks(html)]: the text fragments [HTMLParser] reports. *)
Context (html_to_chunks : pystr -> list pystr).

(** [url_cache], and the links requested so far, oldest first. *)
Record run_state := {
  url_cache : gmap pystr pystr;
  requests : list pystr
}.

(** [s or ""] *)
Definition or_empty (s : pystr) : pystr := if truthy s then s else [].

(** One round of the loop over [rows]. *)
Definition run_row (st : run_state) (row : ReceiptRow) : run_state * OutputRow :=
  let predal := [] in
  let '(st, predal) :=
    match r_link row with
    | Some link =>
        if truthy link then
          match url_cache st !! link with
          | Some cached => (st, or_empty cached)
          | None =>
              match fetch_html (length (requests st)) link with
              | Fetched html content_type =>
                  let predal :=
                    if contains TEXT_HTML content_type
                    then
                      let chunks := html_to_chunks html in
                      default [] (extract_predal_from_chunks chunks)
                    else predal in
                  let predal := clean_predal predal in
                  ({| url_cache := <[link := predal]> (url_cache st);
                      requests := requests st ++ [link] |}, predal)
              | Raised =>
                  ({| url_cache := <[link := []]> (url_cache st);
                      requests := requests st ++ [link] |}, predal)
              end
          end
        else (st, predal)
    | None => (st, predal)
    end in
  (st, {| number := r_number row; predal := predal; date_str := r_date row;
          product := r_product row; qty := r_qty row; link := r_link row |}).

Definition run_loop (acc : run_state * list OutputRow) (row : ReceiptRow)
  : run_state * list OutputRow :=
  let '(st, out) := run_row (fst acc) row in
  (st, snd acc ++ [out]).

(** The loop of [Worker.run]: the final state and [output_rows]. *)
Definition run (rows : list ReceiptRow) : run_state * list OutputRow :=
  fold_left run_loop rows ({| url_cache := ∅; requests := [] |}, []).

End run.

(** *** Text chunks ([TextExtractor], [html_to_chunks]) *)

(** [TextExtractor.handle_data]: what [self.chunks] is after the call. *)
Definition handle_data (chunks : list pystr) (data : pystr) : list pystr :=
  let data := strip data in
  if truthy data then chunks ++ [data] else chunks.

(** [html_to_chunks], given the text fragments [parser.feed] and
    [parser.close] hand to [handle_data], in order, until they return or
    raise (the exception is dropped and the chunks collected so far are
    returned). *)
Definition chunks_of_data (fragments : list pystr) : list pystr :=
  fold_left handle_data fragments [].

(** *** Reading the worksheet ([build_header_map], [format_cell], [load_rows]) *)

Definition build_header_map (ws : openpyxl.Worksheet) : gmap pystr nat :=
  fold_left
    (fun header_map '(column, cell) =>
       match openpyxl.value cell with
       | openpyxl.VNone => header_map
       | v => <[strip (openpyxl.str v) := column]> header_map
       end)
    (openpyxl.first_row ws) ∅.

Definition format_cell (v : openpyxl.cell_value) : pystr :=
  match v with
  | openpyxl.VNone => []
  | openpyxl.VDate ymd _ => ymd
  | _ => strip (openpyxl.str v)
  end.

(** ["http"] *)
Definition HTTP : pystr := Eval vm_compute in u "http".

(** The link of a row, from the cell of its number: the target of the
    hyperlink if there is one, else the text of the cell if it starts
    with "http". *)
Definition link_of_cell (number_cell : openpyxl.Cell) : option pystr :=
  let from_value :=
    match openpyxl.value number_cell with
    | openpyxl.VStr s => if startswith s HTTP then Some s else None
    | _ => None
    end in
  match openpyxl.hyperlink number_cell with
  | Some h =>
      match openpyxl.target h with
      | Some t => if truthy t then Some t else from_value
      | None => from_value
      end
  | None => from_value
  end.

(** The default header names of [load_rows]. *)
Definition NUMBER_HEADER : pystr := Eval vm_compute in u "Номер".
Definition CLIENT_HEADER : pystr := Eval vm_compute in u "Клиент".
Definition DATE_HEADER : pystr := Eval vm_compute in u "Дата на документа".
Definition PRODUCT_HEADER : pystr := Eval vm_compute in u "Наименование на продукта".
Definition QUANTITY_HEADER : pystr := Eval vm_compute in u "Количество".

Section load_rows.
Context (ws : openpyxl.Worksheet) (client_prefix : pystr).
Context (number_header client_header date_header product_header
         quantity_header : pystr).

Definition col (name : pystr) (default_column : nat) : nat :=
  default default_column (build_header_map ws !! name).

(** One round of the loop over the rows of the sheet; a [continue]
    leaves [rows] as it is. *)
Definition load_row (rows : list ReceiptRow) (r : nat) : list ReceiptRow :=
  let number_col := col number_header 2 in
  let client_col := col client_header 4 in
  let date_col := col date_header 6 in
  let product_col := col product_header 8 in
  let quantity_col := col quantity_header 10 in
  let prefix := lower (strip client_prefix) in
  match openpyxl.value (openpyxl.cell ws r client_col) with
  | openpyxl.VNone => rows
  | client =>
      let client_str := strip (openpyxl.str client) in
      if negb (startswith (lower client_str) prefix) then rows
      else
        let number_cell := openpyxl.cell ws r number_col in
        match openpyxl.value number_cell with
        | openpyxl.VNone => rows
        | number =>
            let number_str := format_cell number in
            let date_str := format_cell (openpyxl.value (openpyxl.cell ws r date_col)) in
            let product_str :=
              format_cell (openpyxl.value (openpyxl.cell ws r product_col)) in
            let qty_str :=
              format_cell (openpyxl.value (openpyxl.cell ws r quantity_col)) in
            rows ++ [{| r_number := number_str; r_client := client_str;
                        r_date := date_str; r_product := product_str;
                        r_qty := qty_str; r_link := link_of_cell number_cell |}]
        end
  end.

Definition load_rows : list ReceiptRow :=
  fold_left load_row (openpyxl.data_rows ws) [].

End load_rows.


(** *** Sheet titles ([safe_title] in [build_output]) *)

(** ['[]:*?/\\'] *)
Definition INVALID : pystr := [91; 93; 58; 42; 63; 47; 92].

(** The decimal digits of [n], the last one first; [fuel] bounds their
    number. *)
Fixpoint digits_from (fuel : nat) (n : N) : pystr :=
  match fuel with
  | O => []
  | S fuel' =>
      (48 + n mod 10) :: (if n <? 10 then [] else digits_from fuel' (n / 10))
  end.

(** [str(n)] for an integer [n >= 0]; a number has no more decimal digits
    than binary ones. *)
Definition str_int (n : N) : pystr := rev (digits_from (S (N.size_nat n)) n).

(** [s[:i]] for any integer [i]: a negative [i] counts from the end. *)
Definition slice_to_any (s : pystr) (i : Z) : pystr :=
  if (i <? 0)%Z then take (Z.to_nat (len s + i)) s else take (Z.to_nat i) s.

(** [(base[: 31 - len(suffix)] + suffix)[:31]] with [suffix = f" {counter}"] *)
Definition numbered_title (base : pystr) (counter : N) : pystr :=
  let suffix := 32 :: str_int counter in
  take 31 (slice_to_any base (31 - len suffix) ++ suffix).

(** [while title in existing: ...]: the title the loop ends with, or
    [None] if it has not ended after [fuel] rounds. *)
Fixpoint title_loop (fuel : nat) (base : pystr) (existing : gset pystr)
    (title : pystr) (counter : N) : option pystr :=
  if bool_decide (title ∈ existing) then
    match fuel with
    | O => None
    | S fuel' =>
        title_loop fuel' base existing (numbered_title base counter) (counter + 1)
    end
  else Some title.

(** [safe_title(name, existing)]: the title and [existing] after the
    call.  The loop is given one round more than [existing] has
    elements. *)
Definition safe_title (name : pystr) (existing : gset pystr)
  : option (pystr * gset pystr) :=
  let base := strip (map (fun c => if in_chars INVALID c then 95 else c) name) in
  let base := if negb (truthy base) then UNKNOWN else base in
  let base := take 31 base in
  match title_loop (S (size existing)) base existing base 2 with
  | Some title => Some (title, existing ∪ {[title]})
  | None => None
  end.

(** The titles of the sheets [build_output] creates for [colleague_order],
    starting from [existing_titles]. *)
Fixpoint sheet_titles (existing_titles : gset pystr) (colleague_order : list pystr)
  : option (list pystr) :=
  match colleague_order with
  | [] => Some []
  | name :: colleague_order' =>
      match safe_title name existing_titles with
      | Some (title, existing_titles') =>
          match sheet_titles existing_titles' colleague_order' with
          | Some titles => Some (title :: titles)
          | None => None
          end
      | None => None
      end
  end.


End desktop_app.

(** ** The loop of [main] in [lagardere_table.py] *)

Module lagardere_table_main.

Section main.
(** [fetch_html(link, cookie, timeout)] for the [n]-th request of the run. *)
Context (fetch_html : nat -> pystr -> fetch_outcome).
Context (html_to_chunks : pystr -> list pystr).

Record main_state := {
  url_cache : gmap pystr (option pystr);
  requests : list pystr
}.

(** [predal or ""] *)
Definition or_empty (predal : option pystr) : pystr :=
  match predal with
  | Some s => if truthy s then s else []
  | None => []
  end.

(** One round of the loop over [rows]: the new state and the tuple
    appended to [output_rows]. *)
Definition main_row (st : main_state) (row : desktop_app.ReceiptRow)
  : main_state * (pystr * pystr * pystr * pystr * pystr) :=
  let predal := None in
  let '(st, predal) :=
    match desktop_app.r_link row with
    | Some link =>
        if truthy link then
          match url_cache st !! link with
          | Some cached => (st, cached)
          | None =>
              match fetch_html (length (requests st)) link with
              | Fetched html content_type =>
                  let predal :=
                    if contains TEXT_HTML content_type
                    then
                      let chunks := html_to_chunks html in
                      lagardere_table.extract_predal_from_chunks chunks
                    else predal in
                  ({| url_cache := <[link := predal]> (url_cache st);
                      requests := requests st ++ [link] |}, predal)
              | Raised =>
                  ({| url_cache := <[link := None]> (url_cache st);
                      requests := requests st ++ [link] |}, predal)
              end
          end
        else (st, predal)
    | None => (st, predal)
    end in
  (st, (desktop_app.r_number row, or_empty predal, desktop_app.r_date row,
        desktop_app.r_product row, desktop_app.r_qty row)).

Definition main_loop
    (acc : main_state * list (pystr * pystr * pystr * pystr * pystr))
    (row : desktop_app.ReceiptRow)
  : main_state * list (pystr * pystr * pystr * pystr * pystr) :=
  let '(st, out) := main_row (fst acc) row in
  (st, snd acc ++ [out]).

(** The loop of [main]: the final state and [output_rows]. *)
Definition main (rows : list desktop_app.ReceiptRow)
  : main_state * list (pystr * pystr * pystr * pystr * pystr) :=
  fold_left main_loop rows ({| url_cache := ∅; requests := [] |}, []).

(** [sum(1 for _n, p, _d, _pr, _q in output_rows if not p)] *)
Definition missing (output_rows : list (pystr * pystr * pystr * pystr * pystr))
  : nat :=
  length (List.filter (fun '(_, p, _, _, _) => negb (truthy p)) output_rows).

End main.

End lagardere_table_main.

(** ** The loop of [main] in [app.py] *)

Module app_main.

Section main.
(** [fetch_html(link, timeout)] for the [n]-th request of the run. *)
Context (fetch_html : nat -> pystr -> fetch_outcome).
Context (html_to_chunks : pystr -> list pystr).
(** The check box "Извличай 'ПРЕДАЛ' от хиперлинковете". *)
Context (fetch_predal : bool).

Record main_state := {
  url_cache : gmap pystr pystr;
  requests : list pystr
}.

(** [s or ""] *)
Definition or_empty (s : pystr) : pystr := if truthy s then s else [].

(** One round of the loop over [rows]. *)
Definition main_row (st : main_state) (row : desktop_app.ReceiptRow)
  : main_state * (pystr * pystr * pystr * pystr * pystr) :=
  let predal := [] in
  let '(st, predal) :=
    match desktop_app.r_link row with
    | Some link =>
        if fetch_predal && truthy link then
          match url_cache st !! link with
          | Some cached => (st, or_empty cached)
          | None =>
              match fetch_html (length (requests st)) link with
              | Fetched html content_type =>
                  let predal :=
                    if contains TEXT_HTML content_type
                    then
                      let chunks := html_to_chunks html in
                      default [] (app.extract_predal_from_chunks chunks)
                    else predal in
                  ({| url_cache := <[link := predal]> (url_cache st);
                      requests := requests st ++ [link] |}, predal)
              | Raised =>
                  ({| url_cache := <[link := []]> (url_cache st);
                      requests := requests st ++ [link] |}, predal)
              end
          end
        else (st, predal)
    | None => (st, predal)
    end in
  (st, (desktop_app.r_number row, predal, desktop_app.r_date row,
        desktop_app.r_product row, desktop_app.r_qty row)).

Definition main_loop
    (acc : main_state * list (pystr * pystr * pystr * pystr * pystr))
    (row : desktop_app.ReceiptRow)
  : main_state * list (pystr * pystr * pystr * pystr * pystr) :=
  let '(st, out) := main_row (fst acc) row in
  (st, snd acc ++ [out]).

(** The loop of [main]: the final state and [output_rows]. *)
Definition main (rows : list desktop_app.ReceiptRow)
  : main_state * list (pystr * pystr * pystr * pystr * pystr) :=
  fold_left main_loop rows ({| url_cache := ∅; requests := [] |}, []).

End main.

End app_main.


(** ** Reference reading of the extraction rule *)

(** The original-case text that follows the end of the first
    case-insensitive occurrence of the marker in a chunk. *)
Fixpoint after_marker (s : pystr) : option pystr :=
  if bool_decide (upper (take (length PREDAL) s) = PREDAL)
  then Some (drop (length PREDAL) s)
  else match s with
       | [] => None
       | _ :: s' => after_marker s'
       end.

(** The rule in words: at a chunk that contains the marker, the text
    after it, stripped of leading spaces, colons and no-break spaces, is
    returned if it is not empty; else the next chunk, trimmed, if there is
    one and it does not end with a colon; else the scan goes on. *)
Fixpoint extract_rule (chunks : list pystr) : option pystr :=
  match chunks with
  | [] => None
  | chunk :: rest =>
      match after_marker chunk with
      | None => extract_rule rest
      | Some after =>
          let value := lstrip_chars after MARKER_PUNCT in
          if truthy value then Some value
          else
            match rest with
            | next :: _ =>
                if negb (endswith_char next COLON) then Some (strip next)
                else extract_rule rest
            | [] => None
            end
      end
  end.

(** A chunk as the text extractor produces them: not empty, and with no
    white space at either end. *)
Definition trimmed_chunk (c : pystr) : Prop := c <> [] /\ strip c = c.

(** The body of the loop of [extract_predal_from_chunks], on the chunk
    itself and the chunks after it. *)
Definition scan_chunk (original : pystr) (rest : list pystr) : option pystr :=
  if contains PREDAL (upper original) then
    let after :=
      lstrip_chars (slice_from original (find (upper original) PREDAL + len PREDAL))
        MARKER_PUNCT in
    if truthy after then Some after
    else
      match rest with
      | next :: _ =>
          let next_chunk := strip next in
          if truthy next_chunk && negb (endswith_char next_chunk COLON)
          then Some next_chunk
          else None
      | [] => None
      end
  else None.

Fixpoint scan (chunks : list pystr) : option pystr :=
  match chunks with
  | [] => None
  | original :: rest =>
      match scan_chunk original rest with
      | Some r => Some r
      | None => scan rest
      end
  end.

(** The body of the loop of [extract_predal_from_chunks], as a function of
    the chunk list. *)
Definition loop_body (chunks : list pystr) (i : nat) (chunk_upper : pystr)
  : option pystr :=
  if contains PREDAL chunk_upper then
    let original := default [] (chunks !! i) in
    let idx := find (upper original) PREDAL in
    let after := slice_from original (idx + len PREDAL) in
    let after := lstrip_chars after MARKER_PUNCT in
    if truthy after then Some after
    else
      if (Z.of_nat i + 1 <? Z.of_nat (length chunks))%Z then
        let next_chunk := strip (default [] (chunks !! S i)) in
        if truthy next_chunk && negb (endswith_char next_chunk COLON)
        then Some next_chunk
        else None
      else None
  else None.

(** A case mapping [fc] ([upper_char] or [lower_char]) keeps the length of
    a string when it sends each of its characters to one character. *)
Definition stable (fc : N -> pystr) (s : pystr) : Prop :=
  Forall (fun c => length (fc c) = 1%nat) s.

(** Upper-casing keeps the length of a string of such characters. *)
Definition case_stable (s : pystr) : Prop := stable upper_char s.

(** ** Reference reading of the clean-up *)

(** [s] without the first place where [phrase] occurs in it, whatever the
    case of the letters. *)
Fixpoint remove_first_ci (phrase s : pystr) : pystr :=
  if bool_decide (lower (take (length phrase) s) = phrase)
  then drop (length phrase) s
  else match s with
       | [] => []
       | c :: s' => c :: remove_first_ci phrase s'
       end.

(** Lower-casing keeps the length of a string of such characters. *)
Definition lower_stable (s : pystr) : Prop := stable lower_char s.

(** Trim, take the first occurrence of the phrase out, trim again, and
    strip spaces, colons and no-break spaces from both ends. *)
Definition clean_rule (value : pystr) : pystr :=
  strip_chars
    (strip (remove_first_ci desktop_app.BOILERPLATE (strip value)))
    MARKER_PUNCT.

(** Whether the phrase still occurs in a value, whatever the case. *)
Definition has_boilerplate (value : pystr) : bool :=
  contains desktop_app.BOILERPLATE (lower value).

(** ** Reference reading of the product normalisation *)

(** One pass that keeps the last space of every run of spaces. *)
Fixpoint squeeze_spaces (s : pystr) : pystr :=
  match s with
  | [] => []
  | c :: s' =>
      if (c =? 32) && startswith s' desktop_app.SPACE
      then squeeze_spaces s'
      else c :: squeeze_spaces s'
  end.

(** Every white-space character of [s] is a space that is not followed by
    another white-space character. *)
Fixpoint whitespace_collapsed (s : pystr) : bool :=
  match s with
  | [] => true
  | c :: s' =>
      (negb (isspace c)
       || ((c =? 32) && negb (match s' with d :: _ => isspace d | [] => false end)))
      && whitespace_collapsed s'
  end.

(** ** Reference definition of the summary table *)

(** A date put in its place in an ascending list of distinct dates. *)
Fixpoint insert_date (d : pystr) (l : list pystr) : list pystr :=
  match l with
  | [] => [d]
  | x :: l' =>
      if decide (d = x) then l
      else if str_leb d x then d :: l
      else x :: insert_date d l'
  end.

(** The distinct non-empty dates of the rows, ascending. *)
Definition dates_present (rows : list desktop_app.OutputRow) : list pystr :=
  foldr (fun row acc =>
           if truthy (desktop_app.date_str row)
           then insert_date (desktop_app.date_str row) acc
           else acc)
        [] rows.

(** The columns: those dates, or the one placeholder when there are none. *)
Definition date_columns (rows : list desktop_app.OutputRow) : list pystr :=
  match dates_present rows with
  | [] => [desktop_app.DATE_PLACEHOLDER]
  | ds => ds
  end.

(** The lines of a summary, top to bottom: a line per catalog product,
    and after a brand-boundary product the subtotal line of its brand
    group. *)
Inductive summary_line : Type :=
| ProductLine (prod : pystr)
| SubtotalLine (group : list pystr).

Definition lines_of (prod : pystr) : list summary_line :=
  ProductLine prod ::
  match desktop_app.BRAND_BOUNDARIES !! prod with
  | Some brand =>
      [SubtotalLine (default [] (desktop_app.BRAND_PRODUCTS !! brand))]
  | None => []
  end.

Definition layout : list summary_line :=
  flat_map lines_of desktop_app.PRODUCT_ORDER.

Section summary_reference.
Context `{PyFloat F}.

(** What a row adds to the cell of catalog product [prod] and column
    [date]: its parsed quantity, if its product normalises to the same
    key as [prod], its date is [date] and its quantity parses. *)
Definition contribution (prod date : pystr) (row : desktop_app.OutputRow)
  : option F :=
  if decide (desktop_app.normalize_product (desktop_app.product row)
             = desktop_app.normalize_product prod
             /\ desktop_app.date_str row = date)
  then desktop_app.parse_quantity (desktop_app.qty row)
  else None.

(** The sum of the contributions, added in row order to [0.0]. *)
Definition product_total (rows : list desktop_app.OutputRow)
    (prod date : pystr) : F :=
  py_sum (omap (contribution prod date) rows).

Definition product_cells (rows : list desktop_app.OutputRow) (prod : pystr)
  : list (num F) :=
  map (fun date => desktop_app.format_num (product_total rows prod date))
      (date_columns rows).

Definition product_rows (rows : list desktop_app.OutputRow)
  : list (pystr * list (num F)) :=
  map (fun prod => (prod, product_cells rows prod)) desktop_app.PRODUCT_ORDER.

(** Per column, the sum of the product totals of a brand group. *)
Definition subtotal_cells (rows : list desktop_app.OutputRow)
    (group : list pystr) : list (num F) :=
  map (fun date =>
         desktop_app.format_num
           (py_sum (map (fun prod => product_total rows prod date) group)))
      (date_columns rows).

Definition render (rows : list desktop_app.OutputRow) (line : summary_line)
  : pystr * list (num F) :=
  match line with
  | ProductLine prod => (prod, product_cells rows prod)
  | SubtotalLine group => ([], subtotal_cells rows group)
  end.

(** The rows of a summary that carry a product label. *)
Definition labelled (summary_rows : list (pystr * list (num F)))
  : list (pystr * list (num F)) :=
  List.filter (fun r => truthy (fst r)) summary_rows.
End summary_reference.

(** The summary rows as the loop over [PRODUCT_ORDER] computes them from
    [totals], line by line. *)
Definition render_totals `{PyFloat F} (totals : gmap (pystr * pystr) F)
    (date_headers : list pystr) (line : summary_line) : pystr * list (num F) :=
  match line with
  | ProductLine prod =>
      (prod,
       map (fun date_val =>
              desktop_app.format_num (default fzero (totals !! (prod, date_val))))
           date_headers)
  | SubtotalLine group =>
      ([], map desktop_app.format_num
             (desktop_app.totals_for_products totals date_headers group))
  end.

(** A line that names catalog products only. *)
Definition line_in_catalog (line : summary_line) : bool :=
  match line with
  | ProductLine prod => bool_decide (prod ∈ desktop_app.PRODUCT_ORDER)
  | SubtotalLine group =>
      forallb (fun prod => bool_decide (prod ∈ desktop_app.PRODUCT_ORDER)) group
  end.

(** ** Reference reading of the quantity parser *)

Definition remove_char (c : N) (s : pystr) : pystr :=
  List.filter (fun x => negb (x =? c)) s.

Definition subst_char (c d : N) (s : pystr) : pystr :=
  map (fun x => if x =? c then d else x) s.

Definition has_char (c : N) (s : pystr) : bool := existsb (fun x => x =? c) s.

(** Trim and take the spaces out; with both a comma and a dot, the commas
    are thousands separators and go; with commas only, a comma is the
    decimal point; what is left is read as a number. *)
Definition parse_quantity_rule `{PyFloat F} (value : pystr) : option F :=
  let text := remove_char 32 (strip value) in
  let text :=
    if has_char 44 text && has_char 46 text then remove_char 44 text
    else if has_char 44 text then subst_char 44 46 text
    else text in
  float_of_str text.

(** ** Plain decimal numbers, computed exactly

    An instance of the number interface on the rationals, for running the
    examples: [float_of_str] reads an optional sign, digits and at most
    one dot, and sums are exact. *)
Module decimal.

Definition digit (c : N) : option Z :=
  if (48 <=? c) && (c <=? 57) then Some (Z.of_N (c - 48)) else None.

Fixpoint digits (acc : Z) (s : pystr) : option Z :=
  match s with
  | [] => Some acc
  | c :: s' =>
      match digit c with
      | Some d => digits (10 * acc + d) s'
      | None => None
      end
  end.

Fixpoint before_dot (s : pystr) : pystr :=
  match s with
  | [] => []
  | c :: s' => if c =? 46 then [] else c :: before_dot s'
  end.

Fixpoint after_dot (s : pystr) : pystr :=
  match s with
  | [] => []
  | c :: s' => if c =? 46 then s' else after_dot s'
  end.

Definition unsigned (s : pystr) : option Q :=
  let whole := before_dot s in
  let frac := after_dot s in
  match whole ++ frac with
  | [] => None
  | _ =>
      match digits 0 whole, digits 0 frac with
      | Some w, Some f =>
          let scale := (10 ^ Z.of_nat (length frac))%Z in
          Some (Qred (Qmake (w * scale + f) (Z.to_pos scale)))
      | _, _ => None
      end
  end.

Definition of_str (s : pystr) : option Q :=
  match s with
  | 45 :: s' => Qopp <$> unsigned s'
  | 43 :: s' => unsigned s'
  | _ => unsigned s
  end.

Definition numbers : PyFloat Q := {|
  float_of_str := of_str;
  fzero := 0%Q;
  fadd := fun a b => Qred (a + b);
  is_integer := fun q => (Qden (Qred q) =? 1)%positive;
  int_of := fun q => (Qnum q ÷ Zpos (Qden q))%Z
|}.

End decimal.

(** ** Reference reading of the grouping *)

(** The distinct names of a list, each at the place of its first
    appearance. *)
Fixpoint first_appearances (names : list pystr) : list pystr :=
  match names with
  | [] => []
  | n :: names' => n :: filter (fun m => m <> n) (first_appearances names')
  end.

(** The rows of a person, in input order. *)
Definition rows_of (name : pystr) (rows : list desktop_app.OutputRow)
  : list desktop_app.OutputRow :=
  filter (fun row => desktop_app.colleague_name row = name) rows.

(** The person a row belongs to, in the words of the specification: the
    responsible value of the row, trimmed, and the fixed name
    "Неизвестен" when that value is empty or blank. *)
Definition responsible_person (row : desktop_app.OutputRow) : pystr :=
  match strip (desktop_app.predal row) with
  | [] => u "Неизвестен"
  | name => name
  end.

(** The rows that belong to a person, in input order. *)
Definition group_of (person : pystr) (rows : list desktop_app.OutputRow)
  : list desktop_app.OutputRow :=
  filter (fun row => responsible_person row = person) rows.

(** ** What the runs keep true *)

Section run_reference.
Context (fetch_html : nat -> pystr -> fetch_outcome).
Context (html_to_chunks : pystr -> list pystr).

(** The value [Worker.run] stores for a link, from what the request
    brought. *)
Definition stored_value (outcome : fetch_outcome) : pystr :=
  match outcome with
  | Fetched html content_type =>
      desktop_app.clean_predal
        (if contains TEXT_HTML content_type
         then default [] (desktop_app.extract_predal_from_chunks
                            (html_to_chunks html))
         else [])
  | Raised => []
  end.

(** The responsible person of a row with link [link], read off the
    cache. *)
Definition resolved (st : desktop_app.run_state) (link : option pystr) : pystr :=
  match link with
  | Some l => if truthy l then default [] (desktop_app.url_cache st !! l) else []
  | None => []
  end.

(** A link that [Worker.run] resolves (one that is not [None] or empty)
    is in the cache. *)
Definition in_cache (st : desktop_app.run_state) (link : option pystr) : Prop :=
  forall l, link = Some l -> l <> [] -> is_Some (desktop_app.url_cache st !! l).

Definition run_invariant (rows : list desktop_app.ReceiptRow)
    (st : desktop_app.run_state) (out : list desktop_app.OutputRow) : Prop :=
  Forall2 (fun row o =>
             desktop_app.link o = desktop_app.r_link row /\
             desktop_app.predal o = resolved st (desktop_app.r_link row) /\
             in_cache st (desktop_app.r_link row))
          rows out /\
  NoDup (desktop_app.requests st) /\
  (forall l, l ∈ desktop_app.requests st <->
             is_Some (desktop_app.url_cache st !! l)) /\
  (forall l, l ∈ desktop_app.requests st <->
             l <> [] /\
             exists row, row ∈ rows /\ desktop_app.r_link row = Some l) /\
  (forall n l, desktop_app.requests st !! n = Some l ->
               desktop_app.url_cache st !! l
               = Some (stored_value (fetch_html n l))).

(** The value [main] of [extract_predal.py] stores for a link. *)
Definition main_stored_value (outcome : fetch_outcome) : option pystr :=
  match outcome with
  | Fetched html content_type =>
      if negb (contains TEXT_HTML content_type) then None
      else extract_predal.extract_predal_from_chunks (html_to_chunks html)
  | Raised => None
  end.

Definition main_invariant (links : list (pystr * pystr))
    (st : extract_predal.main_state)
    (results : list (pystr * option pystr * pystr)) : Prop :=
  Forall2 (fun item result =>
             exists predal,
               result = (fst item, predal, snd item) /\
               extract_predal.url_cache st !! snd item = Some predal)
          links results /\
  NoDup (extract_predal.requests st) /\
  (forall l, l ∈ extract_predal.requests st <->
             is_Some (extract_predal.url_cache st !! l)) /\
  (forall l, l ∈ extract_predal.requests st <->
             exists item, item ∈ links /\ snd item = l) /\
  (forall n l, extract_predal.requests st !! n = Some l ->
               extract_predal.url_cache st !! l
               = Some (main_stored_value (fetch_html n l))).
End run_reference.

(** The text handed to [float] for a trimmed quantity without spaces. *)
Definition decimal_text (text : pystr) : pystr :=
  if has_char 44 text && has_char 46 text then remove_char 44 text
  else if has_char 44 text then subst_char 44 46 text
  else text.

(** ** Reference reading of the header map *)

(** The column of the last header cell with a value whose trimmed text is
    [name]. *)
Definition last_header (name : pystr) (cells : list (nat * openpyxl.Cell))
  : option nat :=
  last (omap (fun '(column, cell) =>
                match openpyxl.value cell with
                | openpyxl.VNone => None
                | v => if decide (strip (openpyxl.str v) = name)
                       then Some column else None
                end) cells).

(** ** What the loop of [app.py] keeps true *)

Section app_reference.
Context (fetch_html : nat -> pystr -> fetch_outcome).
Context (html_to_chunks : pystr -> list pystr).
Context (fetch_predal : bool).

(** The value the loop stores for a link, from what the request brought. *)
Definition app_stored_value (outcome : fetch_outcome) : pystr :=
  match outcome with
  | Fetched html content_type =>
      if contains TEXT_HTML content_type
      then default [] (app.extract_predal_from_chunks (html_to_chunks html))
      else []
  | Raised => []
  end.

(** The link the loop resolves for a row, if any. *)
Definition app_key (row : desktop_app.ReceiptRow) : option pystr :=
  match desktop_app.r_link row with
  | Some l => if fetch_predal && truthy l then Some l else None
  | None => None
  end.

Definition app_invariant (rows : list desktop_app.ReceiptRow)
    (st : app_main.main_state)
    (out : list (pystr * pystr * pystr * pystr * pystr)) : Prop :=
  Forall2 (fun row o =>
             exists predal,
               o = (desktop_app.r_number row, predal, desktop_app.r_date row,
                    desktop_app.r_product row, desktop_app.r_qty row) /\
               match app_key row with
               | Some l => app_main.url_cache st !! l = Some predal
               | None => predal = []
               end)
          rows out /\
  NoDup (app_main.requests st) /\
  (forall l, l ∈ app_main.requests st <-> is_Some (app_main.url_cache st !! l)) /\
  (forall l, l ∈ app_main.requests st <->
             exists row, row ∈ rows /\ app_key row = Some l) /\
  (forall n l, app_main.requests st !! n = Some l ->
               app_main.url_cache st !! l = Some (app_stored_value (fetch_html n l))).
End app_reference.

(** The output row of [desktop_app.py] for a row and the tuple [app.py]
    gives for it, with the responsible person cleaned. *)
Definition cleaned_row (row : desktop_app.ReceiptRow)
    (o : pystr * pystr * pystr * pystr * pystr) : desktop_app.OutputRow :=
  let '(number, predal, date_str, product, qty) := o in
  {| desktop_app.number := number;
     desktop_app.predal := desktop_app.clean_predal predal;
     desktop_app.date_str := date_str;
     desktop_app.product := product;
     desktop_app.qty := qty;
     desktop_app.link := desktop_app.r_link row |}.

(** ** Reading a number back from a title *)

(** The number whose decimal digits, the last one first, are [l]. *)
Fixpoint digits_value (l : pystr) : N :=
  match l with
  | [] => 0
  | c :: l' => (c - 48) + 10 * digits_value l'
  end.

Definition is_digit (c : N) : bool := (48 <=? c) && (c <=? 57).

Fixpoint leading_digits (l : pystr) : pystr :=
  match l with
  | [] => []
  | c :: l' => if is_digit c then c :: leading_digits l' else []
  end.

(** The counter a numbered title ends with. *)
Definition counter_of (title : pystr) : N :=
  digits_value (leading_digits (rev title)).

(** What a sheet title must be for the workbook: at most 31 characters,
    not empty, and without the characters a title may not contain. *)
Definition valid_title (title : pystr) : Prop :=
  (length title <= 31)%nat /\ title <> [] /\
  Forall (fun c => in_chars desktop_app.INVALID c = false) title.

(** The output row of [Worker.run] for a row when a request for its link
    brings [outcome]: no cache involved. *)
Definition direct_row (html_to_chunks : pystr -> list pystr)
    (fetch : pystr -> fetch_outcome) (row : desktop_app.ReceiptRow)
  : desktop_app.OutputRow :=
  {| desktop_app.number := desktop_app.r_number row;
     desktop_app.predal :=
       match desktop_app.r_link row with
       | Some l => if truthy l then stored_value html_to_chunks (fetch l) else []
       | None => []
       end;
     desktop_app.date_str := desktop_app.r_date row;
     desktop_app.product := desktop_app.r_product row;
     desktop_app.qty := desktop_app.r_qty row;
     desktop_app.link := desktop_app.r_link row |}.

(** * Proofs *)

(** ** The loop over indices is a scan down the list *)

Lemma loop_body_scan_chunk (done_ todo : list pystr) (c : pystr) :
  loop_body (done_ ++ c :: todo) (length done_) (upper c) = scan_chunk c todo.
Proof.
  unfold loop_body, scan_chunk.
  rewrite (list_lookup_middle done_ todo c (length done_) eq_refl).
  cbn [default from_option id].
  destruct (contains PREDAL (upper c)); [|reflexivity].
  cbv zeta.
  destruct (truthy _); [reflexivity|].
  destruct todo as [|n todo].
  - replace (Z.of_nat (length done_) + 1 <? Z.of_nat (length (done_ ++ [c])))%Z
      with false; [reflexivity|].
    symmetry. apply Z.ltb_ge. rewrite length_app. cbn. lia.
  - replace (Z.of_nat (length done_) + 1 <? Z.of_nat (length (done_ ++ c :: n :: todo)))%Z
      with true.
    + replace (done_ ++ c :: n :: todo) with ((done_ ++ [c]) ++ n :: todo)
        by (rewrite <- app_assoc; reflexivity).
      replace (S (length done_)) with (length (done_ ++ [c]))
        by (rewrite length_app; cbn; lia).
      rewrite (list_lookup_middle (done_ ++ [c]) todo n _ eq_refl). cbn [default from_option id].
      destruct (truthy (strip n) && negb (endswith_char (strip n) COLON)); reflexivity.
    + symmetry. apply Z.ltb_lt. rewrite !length_app. cbn. lia.
Qed.

Lemma extract_from_index (done_ todo : list pystr) :
  for_enumerate (loop_body (done_ ++ todo)) (length done_) (map upper todo)
  = scan todo.
Proof.
  revert done_. induction todo as [|c todo IH]; intros done_; [reflexivity|].
  cbn [map for_enumerate scan].
  rewrite loop_body_scan_chunk.
  destruct (scan_chunk c todo); [reflexivity|].
  specialize (IH (done_ ++ [c])).
  rewrite <- app_assoc in IH. cbn [app] in IH.
  rewrite <- IH. f_equal. rewrite length_app. cbn. lia.
Qed.

Lemma extract_is_scan (chunks : list pystr) :
  desktop_app.extract_predal_from_chunks chunks = scan chunks.
Proof. exact (extract_from_index [] chunks). Qed.

(** ** Facts about the string primitives *)

Lemma startswith_take (s p : pystr) :
  startswith s p = true <-> take (length p) s = p.
Proof.
  revert s. induction p as [|x p IH]; intros [|c s]; cbn; try easy.
  rewrite andb_true_iff, N.eqb_eq, IH. split.
  - intros [-> ->]. reflexivity.
  - intros [= -> Hs]. auto.
Qed.

Lemma index_of_cons (d : N) (t p : pystr) :
  index_of (d :: t) p =
  if startswith (d :: t) p then Some O else S <$> index_of t p.
Proof. reflexivity. Qed.

(** *** Case mappings that keep the length of a string *)

Section case_stable.
(** [fc] is [upper_char] or [lower_char]. *)
Variable fc : N -> pystr.

Lemma flat_map_cons_stable (c : N) (s : pystr) :
  length (fc c) = 1%nat ->
  exists d, fc c = [d] /\ flat_map fc (c :: s) = d :: flat_map fc s.
Proof.
  intros Hc. cbn [flat_map].
  destruct (fc c) as [|d [|? ?]]; try discriminate.
  exists d. split; reflexivity.
Qed.

Lemma flat_map_take_stable (n : nat) (s : pystr) :
  stable fc s -> flat_map fc (take n s) = take n (flat_map fc s).
Proof.
  intros Hs. revert n.
  induction Hs as [|c s Hc Hs IH]; intros [|n]; try reflexivity.
  destruct (flat_map_cons_stable c s Hc) as (d & Hd & ->).
  cbn [take]. destruct (flat_map_cons_stable c (take n s) Hc) as (d' & Hd' & ->).
  rewrite IH. congruence.
Qed.

(** Whether the phrase matches at the head of [s] can be read off the
    mapped copy. *)
Lemma startswith_stable (s p : pystr) :
  stable fc s ->
  startswith (flat_map fc s) p = true <-> flat_map fc (take (length p) s) = p.
Proof.
  intros Hs. rewrite startswith_take, (flat_map_take_stable _ _ Hs). reflexivity.
Qed.
End case_stable.

Lemma after_marker_stable (s : pystr) :
  case_stable s ->
  after_marker s =
  (fun i => drop (i + length PREDAL) s) <$> index_of (upper s) PREDAL.
Proof.
  intros Hs. induction Hs as [|c s Hc Hs IH]; [reflexivity|].
  assert (Hcs : case_stable (c :: s)) by (constructor; assumption).
  cbn [after_marker]. rewrite IH. clear IH.
  pose proof (startswith_stable upper_char (c :: s) PREDAL Hcs) as Hsw.
  fold (upper (c :: s)) in Hsw. fold (upper (take (length PREDAL) (c :: s))) in Hsw.
  destruct (flat_map_cons_stable upper_char c s Hc) as (d & Hd & Hup).
  fold (upper (c :: s)) in Hup. fold (upper s) in Hup.
  rewrite Hup in Hsw |- *. rewrite index_of_cons.
  destruct (startswith (d :: upper s) PREDAL).
  - rewrite bool_decide_eq_true_2 by (apply Hsw; reflexivity). reflexivity.
  - rewrite bool_decide_eq_false_2.
    + destruct (index_of (upper s) PREDAL); reflexivity.
    + intros Heq. apply Hsw in Heq. discriminate.
Qed.

Lemma scan_chunk_rule (c : pystr) (rest : list pystr) :
  case_stable c -> Forall trimmed_chunk rest ->
  scan_chunk c rest =
  match after_marker c with
  | None => None
  | Some after =>
      let value := lstrip_chars after MARKER_PUNCT in
      if truthy value then Some value
      else
        match rest with
        | next :: _ =>
            if negb (endswith_char next COLON) then Some (strip next) else None
        | [] => None
        end
  end.
Proof.
  intros Hc Hrest. unfold scan_chunk, contains, find.
  rewrite (after_marker_stable c Hc).
  destruct (index_of (upper c) PREDAL) as [i|]; [|reflexivity].
  cbn [fmap option_fmap option_map]. cbv zeta.
  unfold slice_from, len.
  replace (Z.to_nat (Z.of_nat i + Z.of_nat (length PREDAL)))
    with (i + length PREDAL)%nat by lia.
  destruct (truthy _); [reflexivity|].
  destruct Hrest as [|n rest [Hne Hn] _]; [reflexivity|].
  rewrite Hn. destruct n; [contradiction|reflexivity].
Qed.

(** On chunks whose upper-casing keeps their length, the function follows
    the rule. *)
Lemma extract_follows_rule (chunks : list pystr) :
  Forall trimmed_chunk chunks -> Forall case_stable chunks ->
  desktop_app.extract_predal_from_chunks chunks = extract_rule chunks.
Proof.
  rewrite extract_is_scan.
  intros Ht Hs. induction Ht as [|c rest Hc Hrest IH]; [reflexivity|].
  inversion Hs as [|? ? Hsc Hsr]; subst.
  cbn [scan extract_rule]. rewrite (scan_chunk_rule c rest Hsc Hrest).
  rewrite (IH Hsr).
  destruct (after_marker c) as [after|]; [|reflexivity].
  cbv zeta. destruct (truthy _); [reflexivity|].
  destruct rest as [|n rest']; [reflexivity|].
  destruct (negb (endswith_char n COLON)); reflexivity.
Qed.

(** ** The field extractor *)

(** C1 (the code departs from the claim).  At the chunk
    "Große Straße ПРЕДАЛ Иван" the text after the marker is " Иван", so the
    rule gives "Иван"; the function returns "ван".  It looks the marker up
    in the upper-cased copy of the chunk, where each "ß" has become "SS",
    and cuts the original chunk at that index. *)
Theorem extract_predal_cuts_at_upper_index :
  let chunks := [u "Große Straße ПРЕДАЛ Иван"] in
  Forall trimmed_chunk chunks /\
  extract_rule chunks = Some (u "Иван") /\
  desktop_app.extract_predal_from_chunks chunks = Some (u "ван") /\
  desktop_app.extract_predal_from_chunks chunks <> extract_rule chunks.
Proof.
  cbv zeta. split; [|split; [|split]].
  - constructor; [|constructor]. split; [discriminate|]. vm_compute. reflexivity.
  - vm_compute. reflexivity.
  - vm_compute. reflexivity.
  - vm_compute. discriminate.
Qed.

(** C9.  The four copies of [extract_predal_from_chunks] return the same
    result on every chunk sequence. *)
Theorem extract_predal_copies_agree (chunks : list pystr) :
  extract_predal.extract_predal_from_chunks chunks
  = desktop_app.extract_predal_from_chunks chunks /\
  lagardere_table.extract_predal_from_chunks chunks
  = desktop_app.extract_predal_from_chunks chunks /\
  app.extract_predal_from_chunks chunks
  = desktop_app.extract_predal_from_chunks chunks.
Proof. repeat split. Qed.

Lemma scan_chunk_nonempty (c : pystr) (rest : list pystr) (value : pystr) :
  scan_chunk c rest = Some value -> value <> [].
Proof.
  unfold scan_chunk. destruct (contains _ _); [|discriminate].
  cbv zeta. destruct (truthy _) eqn:Hafter.
  - intros [= <-]. intros Hnil. rewrite Hnil in Hafter. discriminate.
  - destruct rest as [|n rest]; [discriminate|].
    destruct (truthy (strip n)) eqn:Hn; [|discriminate].
    destruct (negb _); [|discriminate].
    intros [= <-]. intros Hnil. rewrite Hnil in Hn. discriminate.
Qed.

(** C10.  A value returned by the extractor is never the empty string. *)
Theorem extract_predal_value_nonempty (chunks : list pystr) (value : pystr) :
  desktop_app.extract_predal_from_chunks chunks = Some value -> value <> [].
Proof.
  rewrite extract_is_scan.
  induction chunks as [|c rest IH]; [discriminate|].
  cbn [scan]. destruct (scan_chunk c rest) as [r|] eqn:Hc.
  - intros [= <-]. exact (scan_chunk_nonempty c rest r Hc).
  - exact IH.
Qed.

Lemma extract_predal_value_nonempty_witness :
  desktop_app.extract_predal_from_chunks [u "ПРЕДАЛ:"; u "Иван Иванов"]
  = Some (u "Иван Иванов") /\ u "Иван Иванов" <> [].
Proof.
  split; [vm_compute; reflexivity|].
  apply (extract_predal_value_nonempty [u "ПРЕДАЛ:"; u "Иван Иванов"]).
  vm_compute. reflexivity.
Defined.

(** ** Stripping *)

Section strip_facts.
Variable f : N -> bool.

Lemma lstrip_by_idem (s : pystr) : lstrip_by f (lstrip_by f s) = lstrip_by f s.
Proof.
  induction s as [|c s IH]; [reflexivity|].
  cbn. destruct (f c) eqn:Hc; [exact IH|]. cbn. rewrite Hc. reflexivity.
Qed.

Lemma rstrip_by_cons (c : N) (s : pystr) :
  rstrip_by f (c :: s) =
  match rstrip_by f s with
  | [] => if f c then [] else [c]
  | r => c :: r
  end.
Proof. reflexivity. Qed.

Lemma rstrip_by_idem (s : pystr) : rstrip_by f (rstrip_by f s) = rstrip_by f s.
Proof.
  induction s as [|c s IH]; [reflexivity|].
  rewrite rstrip_by_cons. destruct (rstrip_by f s) as [|d r] eqn:Hr.
  - destruct (f c) eqn:Hc; [reflexivity|]. cbn. rewrite Hc. reflexivity.
  - rewrite rstrip_by_cons, IH. reflexivity.
Qed.

(** Stripping on the left keeps a string stripped on the right. *)
Lemma rstrip_by_lstrip_by (s : pystr) :
  rstrip_by f s = s -> rstrip_by f (lstrip_by f s) = lstrip_by f s.
Proof.
  induction s as [|c s IH]; [reflexivity|].
  intros Hs. cbn [lstrip_by]. destruct (f c) eqn:Hc; [|exact Hs].
  apply IH. rewrite rstrip_by_cons in Hs.
  destruct (rstrip_by f s) as [|d r]; [rewrite Hc in Hs; discriminate|].
  congruence.
Qed.

Lemma strip_by_idem (s : pystr) : strip_by f (strip_by f s) = strip_by f s.
Proof.
  unfold strip_by.
  rewrite (rstrip_by_lstrip_by (rstrip_by f s)) by apply rstrip_by_idem.
  apply lstrip_by_idem.
Qed.
End strip_facts.

Lemma strip_idem (s : pystr) : strip (strip s) = strip s.
Proof. apply strip_by_idem. Qed.

(** ** The clean-up *)

Lemma remove_first_ci_stable (p s : pystr) :
  lower_stable s ->
  remove_first_ci p s =
  match index_of (lower s) p with
  | Some i => take i s ++ drop (i + length p) s
  | None => s
  end.
Proof.
  intros Hs. induction Hs as [|c s Hc Hs IH].
  - cbn. destruct (bool_decide _) eqn:Hb.
    + apply bool_decide_eq_true_1 in Hb. rewrite take_nil in Hb. cbn in Hb. subst p.
      reflexivity.
    + destruct p; [|reflexivity].
      rewrite bool_decide_eq_true_2 in Hb by reflexivity. discriminate.
  - assert (Hcs : lower_stable (c :: s)) by (constructor; assumption).
    cbn [remove_first_ci]. rewrite IH. clear IH.
    pose proof (startswith_stable lower_char (c :: s) p Hcs) as Hsw.
    fold (lower (c :: s)) in Hsw. fold (lower (take (length p) (c :: s))) in Hsw.
    destruct (flat_map_cons_stable lower_char c s Hc) as (d & Hd & Hup).
    fold (lower (c :: s)) in Hup. fold (lower s) in Hup.
    rewrite Hup in Hsw |- *. rewrite index_of_cons.
    destruct (startswith (d :: lower s) p).
    + rewrite bool_decide_eq_true_2 by (apply Hsw; reflexivity). reflexivity.
    + rewrite bool_decide_eq_false_2.
      * destruct (index_of (lower s) p); reflexivity.
      * intros Heq. apply Hsw in Heq. discriminate.
Qed.

Lemma clean_predal_follows_rule (value : pystr) :
  lower_stable (strip value) ->
  desktop_app.clean_predal value = clean_rule value.
Proof.
  intros Hs. unfold desktop_app.clean_predal, clean_rule.
  destruct value as [|c value]; [reflexivity|].
  cbn [truthy negb]. cbv zeta.
  rewrite (remove_first_ci_stable _ _ Hs). unfold find, slice_to, slice_from, len.
  destruct (index_of (lower (strip (c :: value))) desktop_app.BOILERPLATE) as [i|].
  - replace (negb (Z.of_nat i =? -1)%Z) with true
      by (symmetry; apply negb_true_iff, Z.eqb_neq; lia).
    rewrite Nat2Z.id.
    replace (Z.to_nat (Z.of_nat i + Z.of_nat (length desktop_app.BOILERPLATE)))
      with (i + length desktop_app.BOILERPLATE)%nat by lia.
    reflexivity.
  - cbn [Z.eqb negb]. rewrite strip_idem. reflexivity.
Qed.

(** C7 (as the code has it).  The clean-up trims the value, takes out the
    first occurrence of the phrase "(име, фамилия, подпис):", found
    whatever the case of its letters, trims again and strips spaces,
    colons and no-break spaces from both ends; a second occurrence stays.
    It is a stage of its own: [Worker.run] applies it to what the scan
    returned.  The value is one whose lower-casing keeps its length. *)
Theorem clean_predal_removes_first_occurrence (value : pystr) :
  lower_stable (strip value) ->
  desktop_app.clean_predal value = clean_rule value /\
  (forall fetch_html html_to_chunks st row link html content_type,
      desktop_app.r_link row = Some link ->
      truthy link = true ->
      desktop_app.url_cache st !! link = None ->
      fetch_html (length (desktop_app.requests st)) link = Fetched html content_type ->
      contains TEXT_HTML content_type = true ->
      desktop_app.predal (snd (desktop_app.run_row fetch_html html_to_chunks st row))
      = desktop_app.clean_predal
          (default [] (desktop_app.extract_predal_from_chunks (html_to_chunks html)))).
Proof.
  intros Hs. split; [exact (clean_predal_follows_rule value Hs)|].
  intros fetch_html html_to_chunks st row link html content_type Hl Ht Hc Hf Hct.
  unfold desktop_app.run_row. rewrite Hl, Ht, Hc, Hf, Hct. reflexivity.
Qed.

Lemma clean_predal_removes_first_occurrence_witness :
  desktop_app.clean_predal (u "(Име, Фамилия, Подпис): Иван Иванов") = u "Иван Иванов".
Proof.
  destruct (clean_predal_removes_first_occurrence
              (u "(Име, Фамилия, Подпис): Иван Иванов")) as [-> _].
  - apply (bool_decide_unpack _). vm_compute. exact I.
  - vm_compute. reflexivity.
Defined.

(** C7, as stated, fails: with the phrase twice in the value, the second
    occurrence is still there after the clean-up. *)
Lemma clean_predal_keeps_second_occurrence :
  desktop_app.clean_predal (u "(име, фамилия, подпис): (име, фамилия, подпис): Иван")
  = u "(име, фамилия, подпис): Иван" /\
  ~ (forall value, has_boilerplate (desktop_app.clean_predal value) = false).
Proof.
  split; [vm_compute; reflexivity|].
  intros Hall.
  specialize (Hall (u "(име, фамилия, подпис): (име, фамилия, подпис): Иван")).
  vm_compute in Hall. discriminate.
Qed.

(** ** Collapsing runs of spaces *)

Lemma contains_cons (p : pystr) (c : N) (s : pystr) :
  contains p (c :: s) = startswith (c :: s) p || contains p s.
Proof.
  unfold contains. rewrite index_of_cons.
  destruct (startswith (c :: s) p); [reflexivity|].
  destruct (index_of s p); reflexivity.
Qed.

Local Abbreviation collapse_pass s :=
  (replace s desktop_app.TWO_SPACES desktop_app.SPACE).

Lemma startswith_two_spaces (c : N) (s : pystr) :
  startswith (c :: s) desktop_app.TWO_SPACES
  = (c =? 32) && startswith s desktop_app.SPACE.
Proof. reflexivity. Qed.

Lemma collapse_pass_cons (c : N) (s : pystr) :
  collapse_pass (c :: s) =
  if startswith (c :: s) desktop_app.TWO_SPACES
  then 32 :: collapse_pass (tail s)
  else c :: collapse_pass s.
Proof.
  unfold replace. cbn [replace_from].
  destruct (startswith (c :: s) desktop_app.TWO_SPACES) eqn:Hsw; [|reflexivity].
  destruct s as [|d s]; [rewrite startswith_two_spaces, andb_comm in Hsw; discriminate|].
  reflexivity.
Qed.

Lemma startswith_space_cons (c : N) (s : pystr) :
  startswith (c :: s) desktop_app.SPACE = (c =? 32).
Proof. cbn. apply andb_true_r. Qed.

Lemma collapse_pass_head (s : pystr) :
  startswith (collapse_pass s) desktop_app.SPACE = startswith s desktop_app.SPACE.
Proof.
  destruct s as [|c s]; [reflexivity|].
  rewrite collapse_pass_cons.
  destruct (startswith (c :: s) desktop_app.TWO_SPACES) eqn:Hsw; [|reflexivity].
  rewrite startswith_two_spaces in Hsw. apply andb_true_iff in Hsw as [Hc _].
  rewrite !startswith_space_cons, Hc. reflexivity.
Qed.

Lemma squeeze_spaces_head (s : pystr) :
  startswith (squeeze_spaces s) desktop_app.SPACE = startswith s desktop_app.SPACE.
Proof.
  induction s as [|c s IH]; [reflexivity|].
  cbn [squeeze_spaces].
  destruct ((c =? 32) && startswith s desktop_app.SPACE) eqn:Hb.
  - apply andb_true_iff in Hb as [Hc Hs].
    rewrite IH, Hs, startswith_space_cons, Hc. reflexivity.
  - rewrite !startswith_space_cons. reflexivity.
Qed.

Lemma squeeze_collapse_pass (n : nat) (s : pystr) :
  (length s <= n)%nat -> squeeze_spaces (collapse_pass s) = squeeze_spaces s.
Proof.
  revert s. induction n as [|n IH]; intros s Hn.
  - destruct s; [reflexivity|cbn in Hn; lia].
  - destruct s as [|c s]; [reflexivity|]. cbn [length] in Hn.
    rewrite collapse_pass_cons.
    destruct (startswith (c :: s) desktop_app.TWO_SPACES) eqn:Hsw.
    + rewrite startswith_two_spaces in Hsw. apply andb_true_iff in Hsw as [Hc Hs].
      apply N.eqb_eq in Hc. subst c.
      destruct s as [|d s]; [discriminate|].
      rewrite startswith_space_cons in Hs. apply N.eqb_eq in Hs. subst d.
      cbn [tail length] in *.
      change (squeeze_spaces (32 :: 32 :: s)) with (squeeze_spaces (32 :: s)).
      cbn [squeeze_spaces]. rewrite collapse_pass_head, IH by lia. reflexivity.
    + cbn [squeeze_spaces]. rewrite collapse_pass_head, IH by lia. reflexivity.
Qed.

Lemma collapse_pass_length_le (n : nat) (s : pystr) :
  (length s <= n)%nat -> (length (collapse_pass s) <= length s)%nat.
Proof.
  revert s. induction n as [|n IH]; intros s Hn.
  - destruct s; [cbn; lia|cbn in Hn; lia].
  - destruct s as [|c s]; [cbn; lia|]. cbn [length] in Hn.
    rewrite collapse_pass_cons.
    destruct (startswith (c :: s) desktop_app.TWO_SPACES).
    + destruct s as [|d s]; cbn [tail length].
      * cbn. lia.
      * cbn [length] in Hn. specialize (IH s). lia.
    + cbn [length]. specialize (IH s). lia.
Qed.

(** A pass over a text with two spaces in a row makes it shorter, so the
    [while] loop ends. *)
Lemma collapse_pass_length_lt (s : pystr) :
  contains desktop_app.TWO_SPACES s = true ->
  (length (collapse_pass s) < length s)%nat.
Proof.
  induction s as [|c s IH]; [discriminate|].
  rewrite contains_cons, collapse_pass_cons.
  destruct (startswith (c :: s) desktop_app.TWO_SPACES) eqn:Hsw.
  - intros _. rewrite startswith_two_spaces in Hsw.
    destruct s as [|d s]; [rewrite andb_comm in Hsw; discriminate|].
    cbn [tail length]. pose proof (collapse_pass_length_le (length s) s). lia.
  - cbn [orb length]. intros Hs. specialize (IH Hs). lia.
Qed.

Lemma squeeze_spaces_fixed (s : pystr) :
  contains desktop_app.TWO_SPACES s = false -> squeeze_spaces s = s.
Proof.
  induction s as [|c s IH]; [reflexivity|].
  rewrite contains_cons. intros Hc. apply orb_false_iff in Hc as [Hsw Hs].
  rewrite startswith_two_spaces in Hsw.
  cbn [squeeze_spaces]. rewrite Hsw, (IH Hs). reflexivity.
Qed.

Lemma squeeze_spaces_no_run (s : pystr) :
  contains desktop_app.TWO_SPACES (squeeze_spaces s) = false.
Proof.
  induction s as [|c s IH]; [reflexivity|].
  cbn [squeeze_spaces].
  destruct ((c =? 32) && startswith s desktop_app.SPACE) eqn:Hb; [exact IH|].
  rewrite contains_cons, IH, startswith_two_spaces, squeeze_spaces_head, Hb.
  reflexivity.
Qed.

Lemma collapse_loop_squeeze (fuel : nat) (text : pystr) :
  (length text <= fuel)%nat ->
  desktop_app.collapse_loop fuel text = squeeze_spaces text.
Proof.
  revert text. induction fuel as [|fuel IH]; intros text Hlen.
  - destruct text; [reflexivity|cbn in Hlen; lia].
  - cbn [desktop_app.collapse_loop].
    destruct (contains desktop_app.TWO_SPACES text) eqn:Hc.
    + pose proof (collapse_pass_length_lt text Hc).
      rewrite IH by lia. apply (squeeze_collapse_pass (length text)). lia.
    + symmetry. apply squeeze_spaces_fixed, Hc.
Qed.

Lemma normalize_product_squeeze (value : pystr) :
  desktop_app.normalize_product value = squeeze_spaces (lower (strip value)).
Proof. unfold desktop_app.normalize_product. apply collapse_loop_squeeze. lia. Qed.

(** ** Lower-casing and white space *)

Ltac bool_to_prop H :=
  repeat (progress
    rewrite ?andb_true_iff, ?andb_false_iff, ?orb_true_iff, ?orb_false_iff,
      ?negb_true_iff, ?negb_false_iff, ?N.leb_le, ?N.leb_gt, ?N.ltb_lt,
      ?N.ltb_ge, ?N.eqb_eq, ?N.eqb_neq in H).

Lemma isspace_spec (c : N) :
  isspace c = true <->
  (9 <= c <= 13 \/ 28 <= c <= 32 \/ c = 133 \/ c = 160 \/ c = 5760
   \/ 8192 <= c <= 8202 \/ c = 8232 \/ c = 8233 \/ c = 8239 \/ c = 8287
   \/ c = 12288).
Proof.
  unfold isspace.
  rewrite ?orb_true_iff, ?andb_true_iff, ?N.leb_le, ?N.eqb_eq. tauto.
Qed.

Lemma isspace_false (c : N) :
  ~ (9 <= c <= 13 \/ 28 <= c <= 32 \/ c = 133 \/ c = 160 \/ c = 5760
     \/ 8192 <= c <= 8202 \/ c = 8232 \/ c = 8233 \/ c = 8239 \/ c = 8287
     \/ c = 12288) ->
  isspace c = false.
Proof. intros Hc. apply not_true_iff_false. rewrite isspace_spec. exact Hc. Qed.

Ltac lower_char_cases c :=
  unfold lower_char;
  repeat match goal with
    | |- context [if ?b then _ else _] =>
        let H := fresh "Hcase" in destruct b eqn:H; bool_to_prop H
    end.

Lemma lower_char_space (c : N) : isspace c = true -> lower_char c = [c].
Proof.
  intros Hc. apply isspace_spec in Hc.
  lower_char_cases c; solve [reflexivity | exfalso; lia].
Qed.

Lemma lower_char_nonspace (c : N) :
  isspace c = false -> Forall (fun d => isspace d = false) (lower_char c).
Proof.
  intros Hc. apply not_true_iff_false in Hc. rewrite isspace_spec in Hc.
  lower_char_cases c;
    repeat (constructor; [apply isspace_false; lia|]); constructor.
Qed.

Lemma lower_char_nonempty (c : N) : lower_char c <> [].
Proof. lower_char_cases c; discriminate. Qed.

Lemma lower_cons (c : N) (s : pystr) : lower (c :: s) = lower_char c ++ lower s.
Proof. reflexivity. Qed.

Lemma lower_lstrip (s : pystr) :
  lower (lstrip_by isspace s) = lstrip_by isspace (lower s).
Proof.
  induction s as [|c s IH]; [reflexivity|].
  cbn [lstrip_by]. rewrite lower_cons. destruct (isspace c) eqn:Hc.
  - rewrite (lower_char_space c Hc). cbn. rewrite Hc. exact IH.
  - pose proof (lower_char_nonspace c Hc) as Hall.
    pose proof (lower_char_nonempty c) as Hne.
    rewrite lower_cons.
    destruct (lower_char c) as [|d ds]; [contradiction|].
    inversion Hall as [|? ? Hd _]; subst. cbn. rewrite Hd. reflexivity.
Qed.

Lemma rstrip_by_app (f : N -> bool) (x y : pystr) :
  rstrip_by f (x ++ y) =
  match rstrip_by f y with
  | [] => rstrip_by f x
  | r => x ++ r
  end.
Proof.
  induction x as [|c x IH].
  - cbn. destruct (rstrip_by f y); reflexivity.
  - cbn [app]. rewrite !rstrip_by_cons, IH.
    destruct (rstrip_by f y) as [|d r]; [reflexivity|].
    destruct x; reflexivity.
Qed.

Lemma rstrip_by_none (f : N -> bool) (x : pystr) :
  Forall (fun d => f d = false) x -> rstrip_by f x = x.
Proof.
  induction 1 as [|c x Hc Hx IH]; [reflexivity|].
  rewrite rstrip_by_cons, IH. destruct x; [rewrite Hc|]; reflexivity.
Qed.

Lemma lower_rstrip (s : pystr) :
  lower (rstrip_by isspace s) = rstrip_by isspace (lower s).
Proof.
  induction s as [|c s IH]; [reflexivity|].
  rewrite lower_cons, rstrip_by_app, <- IH, rstrip_by_cons.
  destruct (rstrip_by isspace s) as [|d r].
  - cbn [lower flat_map]. destruct (isspace c) eqn:Hc.
    + rewrite (lower_char_space c Hc). cbn. rewrite Hc. reflexivity.
    + rewrite (rstrip_by_none _ _ (lower_char_nonspace c Hc)).
      cbn. rewrite app_nil_r. reflexivity.
  - rewrite (lower_cons d r).
    pose proof (lower_char_nonempty d).
    rewrite lower_cons, (lower_cons d r).
    destruct (lower_char d); [contradiction|reflexivity].
Qed.

Lemma lower_strip (s : pystr) : lower (strip s) = strip (lower s).
Proof. unfold strip, strip_by. rewrite lower_lstrip, lower_rstrip. reflexivity. Qed.

Lemma normalize_product_case (a b : pystr) :
  lower a = lower b ->
  desktop_app.normalize_product a = desktop_app.normalize_product b.
Proof.
  intros Hab. rewrite !normalize_product_squeeze, !lower_strip, Hab. reflexivity.
Qed.

(** ** The catalog *)

Lemma fold_insert_lookup {A} (key : A -> pystr) (l : list A)
    (m0 : gmap pystr A) (k : pystr) (p : A) :
  NoDup (map key l) ->
  fold_left (fun m x => <[key x := x]> m) l m0 !! k = Some p <->
  (p ∈ l /\ key p = k) \/ ((k ∉ map key l) /\ m0 !! k = Some p).
Proof.
  revert m0. induction l as [|x l IH]; intros m0 Hnd.
  - cbn. split.
    + intros Hm. right. split; [apply not_elem_of_nil|exact Hm].
    + intros [[Hp _]|[_ Hm]]; [inversion Hp|exact Hm].
  - cbn [fold_left map] in *. apply NoDup_cons in Hnd as [Hx Hnd].
    rewrite (IH _ Hnd). rewrite elem_of_cons, not_elem_of_cons.
    destruct (decide (key x = k)) as [<-|Hne].
    + rewrite lookup_insert_eq. split.
      * intros [[Hp Hk]|[_ [= <-]]]; [|left; auto].
        exfalso. apply Hx. rewrite <- Hk. apply list_elem_of_fmap_2. exact Hp.
      * intros [[[->|Hp] Hk]|[[Hk _] _]]; [right; auto| |congruence].
        exfalso. apply Hx. rewrite <- Hk. apply list_elem_of_fmap_2. exact Hp.
    + rewrite lookup_insert_ne by exact Hne. split.
      * intros [[Hp Hk]|[Hk Hm]]; [left; auto|right; auto].
      * intros [[[->|Hp] Hk]|[[_ Hk] Hm]]; [contradiction|left; auto|right; auto].
Qed.

Lemma catalog_keys_distinct :
  NoDup (map desktop_app.normalize_product desktop_app.PRODUCT_ORDER).
Proof. apply (bool_decide_unpack _). vm_compute. exact I. Qed.

Lemma product_map_lookup (k p : pystr) :
  desktop_app.product_map !! k = Some p <->
  p ∈ desktop_app.PRODUCT_ORDER /\ desktop_app.normalize_product p = k.
Proof.
  unfold desktop_app.product_map.
  rewrite (fold_insert_lookup _ _ _ _ _ catalog_keys_distinct), lookup_empty.
  split; [intros [?|[_ [=]]]; assumption|left; assumption].
Qed.

(** ** The order of strings *)

Lemma str_leb_cons (x y : N) (a b : pystr) :
  str_leb (x :: a) (y :: b) = (x <? y) || ((x =? y) && str_leb a b).
Proof. reflexivity. Qed.

#[global] Instance str_le_total : Total str_le.
Proof.
  intros a. unfold str_le. induction a as [|x a IH]; intros [|y b]; auto.
  rewrite !str_leb_cons.
  destruct (IH b) as [Hab|Hba]; [rewrite Hab|rewrite Hba];
    destruct (N.lt_trichotomy x y) as [Hlt|[->|Hgt]].
  - left. apply N.ltb_lt in Hlt. rewrite Hlt. reflexivity.
  - left. rewrite N.eqb_refl. apply orb_true_r.
  - right. apply N.ltb_lt in Hgt. rewrite Hgt. reflexivity.
  - left. apply N.ltb_lt in Hlt. rewrite Hlt. reflexivity.
  - right. rewrite N.eqb_refl. apply orb_true_r.
  - right. apply N.ltb_lt in Hgt. rewrite Hgt. reflexivity.
Qed.

#[global] Instance str_le_trans : Transitive str_le.
Proof.
  intros a. unfold str_le.
  induction a as [|x a IH]; intros [|y b] [|z c]; try easy.
  rewrite !str_leb_cons.
  intros Hab Hbc. bool_to_prop Hab. bool_to_prop Hbc.
  destruct Hab as [Hxy|[-> Hab]], Hbc as [Hyz|[-> Hbc]].
  - replace (x <? z) with true by (symmetry; apply N.ltb_lt; lia). reflexivity.
  - replace (x <? z) with true by (symmetry; apply N.ltb_lt; lia). reflexivity.
  - replace (y <? z) with true by (symmetry; apply N.ltb_lt; lia). reflexivity.
  - rewrite N.eqb_refl, (IH b c Hab Hbc). apply orb_true_r.
Qed.

#[global] Instance str_le_antisym : AntiSymm (=) str_le.
Proof.
  intros a. unfold str_le.
  induction a as [|x a IH]; intros [|y b]; try easy.
  rewrite !str_leb_cons.
  intros Hab Hba. bool_to_prop Hab. bool_to_prop Hba.
  destruct Hab as [Hxy|[-> Hab]], Hba as [Hyx|[Heq Hba]]; try lia.
  f_equal. apply IH; assumption.
Qed.

(** ** The date columns *)

Lemma elem_of_insert_date (y d : pystr) (l : list pystr) :
  y ∈ insert_date d l <-> y = d \/ y ∈ l.
Proof.
  induction l as [|x l IH]; cbn [insert_date].
  - rewrite list_elem_of_singleton, elem_of_nil. tauto.
  - destruct (decide (d = x)) as [->|Hne].
    + rewrite elem_of_cons. tauto.
    + destruct (str_leb d x).
      * rewrite !elem_of_cons. tauto.
      * rewrite !elem_of_cons, IH. tauto.
Qed.

Lemma insert_date_sorted (d : pystr) (l : list pystr) :
  StronglySorted str_le l -> NoDup l ->
  StronglySorted str_le (insert_date d l) /\ NoDup (insert_date d l).
Proof.
  induction l as [|x l IH]; intros Hs Hn; cbn [insert_date].
  - split; [repeat constructor|]. apply NoDup_singleton.
  - apply StronglySorted_inv in Hs as [Hs Hx].
    apply NoDup_cons in Hn as [Hxl Hn].
    destruct (decide (d = x)) as [->|Hne].
    + split; [constructor; assumption|apply NoDup_cons; auto].
    + destruct (str_leb d x) eqn:Hdx.
      * assert (Hall : Forall (str_le d) (x :: l)).
        { constructor; [exact Hdx|].
          eapply Forall_impl; [exact Hx|]. intros y Hy.
          transitivity x; [exact Hdx|exact Hy]. }
        split.
        -- constructor; [constructor; assumption|exact Hall].
        -- apply NoDup_cons. split; [|apply NoDup_cons; auto].
           intros Hd. apply elem_of_cons in Hd as [Hd|Hd]; [contradiction|].
           rewrite Forall_forall in Hx. specialize (Hx d Hd).
           apply Hne. apply (anti_symm str_le); assumption.
      * destruct (IH Hs Hn) as [IHs IHn]. split.
        -- constructor; [exact IHs|]. apply Forall_forall. intros y Hy.
           apply elem_of_insert_date in Hy as [->|Hy].
           ++ destruct (total str_le x d) as [Hle|Hle]; [exact Hle|].
              unfold str_le in Hle. congruence.
           ++ rewrite Forall_forall in Hx. apply Hx, Hy.
        -- apply NoDup_cons. split; [|exact IHn].
           rewrite elem_of_insert_date. intros [Heq|Hin]; [congruence|contradiction].
Qed.

Lemma truthy_nonempty (s : pystr) : truthy s = true <-> s <> [].
Proof. destruct s; cbn; split; intros; congruence. Qed.

Lemma dates_present_spec (rows : list desktop_app.OutputRow) :
  StronglySorted str_le (dates_present rows) /\ NoDup (dates_present rows) /\
  forall d, d ∈ dates_present rows <->
            d <> [] /\ exists row, row ∈ rows /\ desktop_app.date_str row = d.
Proof.
  induction rows as [|row rows (IHs & IHn & IHm)]; cbn [dates_present foldr].
  - split; [constructor|]. split; [constructor|].
    intros d. rewrite elem_of_nil. split; [tauto|].
    intros (_ & row & Hrow & _). inversion Hrow.
  - fold (dates_present rows).
    destruct (truthy (desktop_app.date_str row)) eqn:Ht.
    + destruct (insert_date_sorted (desktop_app.date_str row) _ IHs IHn) as [Hs Hn].
      split; [exact Hs|]. split; [exact Hn|].
      intros d. rewrite elem_of_insert_date, IHm. split.
      * intros [->|(Hd & r & Hr & Hrd)].
        -- split; [apply truthy_nonempty, Ht|].
           exists row. split; [apply elem_of_cons; auto|reflexivity].
        -- split; [exact Hd|]. exists r. split; [apply elem_of_cons; auto|exact Hrd].
      * intros (Hd & r & Hr & Hrd). apply elem_of_cons in Hr as [->|Hr].
        -- left. symmetry. exact Hrd.
        -- right. split; [exact Hd|]. exists r. auto.
    + split; [exact IHs|]. split; [exact IHn|].
      intros d. rewrite IHm. split.
      * intros (Hd & r & Hr & Hrd). split; [exact Hd|].
        exists r. split; [apply elem_of_cons; auto|exact Hrd].
      * intros (Hd & r & Hr & Hrd). split; [exact Hd|].
        apply elem_of_cons in Hr as [->|Hr]; [|exists r; auto].
        exfalso. apply Hd. rewrite <- Hrd.
        destruct (desktop_app.date_str row); [reflexivity|discriminate].
Qed.

(** [sorted] gives the one ascending list of the elements of the set. *)
Lemma sorted_unique (s : gset pystr) (l : list pystr) :
  StronglySorted str_le l -> NoDup l -> (forall d, d ∈ l <-> d ∈ s) ->
  sorted s = l.
Proof.
  intros Hs Hn Hm. unfold sorted.
  apply (StronglySorted_unique str_le).
  - apply (StronglySorted_merge_sort str_le).
  - exact Hs.
  - rewrite merge_sort_Permutation. apply NoDup_Permutation.
    + apply NoDup_elements.
    + exact Hn.
    + intros d. rewrite elem_of_elements, Hm. reflexivity.
Qed.

(** ** The totals of a summary *)

Section summary_facts.
Context `{PyFloat F}.

Lemma py_sum_snoc (xs : list F) (a : F) :
  py_sum (xs ++ [a]) = fadd (py_sum xs) a.
Proof. unfold py_sum. rewrite fold_left_app. reflexivity. Qed.

Lemma date_key (d : pystr) : (if truthy d then d else []) = d.
Proof. destruct d; reflexivity. Qed.

(** What one round of the loop over the rows does to the total of a
    catalog product and a date. *)
Lemma summary_row_step_total
    (acc : gmap (pystr * pystr) F * gset pystr) (row : desktop_app.OutputRow)
    (p d : pystr) :
  p ∈ desktop_app.PRODUCT_ORDER ->
  default fzero (fst (desktop_app.summary_row_step acc row) !! (p, d)) =
  match contribution p d row with
  | Some a => fadd (default fzero (fst acc !! (p, d))) a
  | None => default fzero (fst acc !! (p, d))
  end.
Proof.
  intros Hp. destruct acc as [totals date_set].
  unfold desktop_app.summary_row_step, contribution. cbn [fst].
  destruct (desktop_app.product_map
              !! desktop_app.normalize_product (desktop_app.product row))
    as [prod|] eqn:Hmap.
  - assert (Hpp : desktop_app.normalize_product (desktop_app.product row)
                  = desktop_app.normalize_product p -> p = prod).
    { intros Heq.
      assert (Hmp : desktop_app.product_map
                      !! desktop_app.normalize_product (desktop_app.product row)
                    = Some p)
        by (apply product_map_lookup; split; [exact Hp|symmetry; exact Heq]).
      congruence. }
    apply product_map_lookup in Hmap as [Hprod Hkey].
    destruct (desktop_app.parse_quantity (desktop_app.qty row)) as [amount|].
    + rewrite date_key. cbn [fst].
      destruct (decide (_ /\ _)) as [[Hn Hd]|Hno].
      * rewrite <- (Hpp Hn). rewrite Hd, lookup_insert_eq. reflexivity.
      * rewrite lookup_insert_ne; [reflexivity|].
        intros [= Hprodp Hdate]. apply Hno. subst prod.
        split; [symmetry; exact Hkey|exact Hdate].
    + cbn [fst]. destruct (decide (_ /\ _)); reflexivity.
  - cbn [fst]. destruct (decide (_ /\ _)) as [[Hn Hd]|Hno]; [|reflexivity].
    assert (Hmp : desktop_app.product_map
                    !! desktop_app.normalize_product (desktop_app.product row)
                  = Some p)
      by (apply product_map_lookup; split; [exact Hp|symmetry; exact Hn]).
    congruence.
Qed.

Lemma summary_row_step_dates
    (acc : gmap (pystr * pystr) F * gset pystr) (row : desktop_app.OutputRow) :
  snd (desktop_app.summary_row_step acc row) =
  if truthy (desktop_app.date_str row)
  then snd acc ∪ {[desktop_app.date_str row]}
  else snd acc.
Proof.
  destruct acc as [totals date_set]. unfold desktop_app.summary_row_step.
  destruct (desktop_app.product_map !! _); [|reflexivity].
  destruct (desktop_app.parse_quantity _); reflexivity.
Qed.

(** The accumulators after the loop over the rows. *)
Lemma summary_fold (rows : list desktop_app.OutputRow) :
  let acc := fold_left desktop_app.summary_row_step rows (∅, ∅) in
  (forall p d, p ∈ desktop_app.PRODUCT_ORDER ->
               default fzero (fst acc !! (p, d)) = product_total rows p d) /\
  (forall d, d ∈ snd acc <->
             d <> [] /\ exists row, row ∈ rows /\ desktop_app.date_str row = d).
Proof.
  induction rows as [|row rows [IHt IHd]] using rev_ind; cbv zeta.
  - split.
    + intros p d _. cbn. rewrite lookup_empty. reflexivity.
    + intros d. cbn. split; [intros Hd; inversion Hd|].
      intros (_ & row & Hrow & _). inversion Hrow.
  - rewrite fold_left_app. cbn [fold_left]. split.
    + intros p d Hp. rewrite (summary_row_step_total _ _ _ _ Hp), (IHt p d Hp).
      unfold product_total. rewrite omap_app. cbn [omap list_omap].
      destruct (contribution p d row) as [a|].
      * rewrite py_sum_snoc. reflexivity.
      * rewrite app_nil_r. reflexivity.
    + intros d. rewrite summary_row_step_dates.
      destruct (truthy (desktop_app.date_str row)) eqn:Ht.
      * rewrite elem_of_union, elem_of_singleton, IHd. split.
        -- intros [(Hd & r & Hr & Hrd)| ->].
           ++ split; [exact Hd|]. exists r.
              split; [apply elem_of_app; auto|exact Hrd].
           ++ split; [apply truthy_nonempty, Ht|]. exists row.
              split; [apply elem_of_app; right; apply list_elem_of_singleton|];
                reflexivity.
        -- intros (Hd & r & Hr & Hrd). apply elem_of_app in Hr as [Hr|Hr].
           ++ left. split; [exact Hd|]. exists r. auto.
           ++ apply list_elem_of_singleton in Hr. subst r. right.
              symmetry. exact Hrd.
      * rewrite IHd. split.
        -- intros (Hd & r & Hr & Hrd). split; [exact Hd|]. exists r.
           split; [apply elem_of_app; auto|exact Hrd].
        -- intros (Hd & r & Hr & Hrd). split; [exact Hd|].
           apply elem_of_app in Hr as [Hr|Hr]; [exists r; auto|].
           apply list_elem_of_singleton in Hr. subst r.
           exfalso. apply Hd. rewrite <- Hrd.
           destruct (desktop_app.date_str row); [reflexivity|discriminate].
Qed.

Lemma summary_headers (rows : list desktop_app.OutputRow) :
  sorted (snd (fold_left desktop_app.summary_row_step rows (∅, ∅)))
  = dates_present rows.
Proof.
  destruct (dates_present_spec rows) as (Hs & Hn & Hm).
  destruct (summary_fold rows) as [_ Hd].
  apply sorted_unique; [exact Hs|exact Hn|].
  intros d. rewrite Hm, Hd. reflexivity.
Qed.

Lemma summary_product_fold (totals : gmap (pystr * pystr) F)
    (date_headers : list pystr) (products : list pystr)
    (summary_rows : list (pystr * list (num F))) :
  fold_left (desktop_app.summary_product_step totals date_headers)
    products summary_rows
  = summary_rows
    ++ map (render_totals totals date_headers) (flat_map lines_of products).
Proof.
  revert summary_rows.
  induction products as [|prod products IH]; intros summary_rows.
  - cbn. rewrite app_nil_r. reflexivity.
  - cbn [fold_left flat_map]. rewrite IH. clear IH.
    unfold desktop_app.summary_product_step, lines_of.
    destruct (desktop_app.BRAND_BOUNDARIES !! prod) as [brand|].
    + rewrite <- !app_assoc. reflexivity.
    + rewrite <- !app_assoc. reflexivity.
Qed.

Lemma render_totals_reference (rows : list desktop_app.OutputRow)
    (line : summary_line) :
  line_in_catalog line = true ->
  render_totals (fst (fold_left desktop_app.summary_row_step rows (∅, ∅)))
    (date_columns rows) line
  = render rows line.
Proof.
  destruct (summary_fold rows) as [Ht _]. cbv zeta in Ht.
  destruct line as [prod|group]; cbn [line_in_catalog render_totals render].
  - intros Hp. apply bool_decide_eq_true_1 in Hp.
    unfold product_cells. f_equal. apply map_ext. intros d.
    rewrite (Ht prod d Hp). reflexivity.
  - intros Hg. unfold subtotal_cells, desktop_app.totals_for_products.
    f_equal. rewrite map_map. apply map_ext. intros d. do 2 f_equal.
    apply map_ext_in. intros q Hq.
    rewrite forallb_forall in Hg. specialize (Hg q Hq).
    apply bool_decide_eq_true_1 in Hg. apply Ht, Hg.
Qed.

Lemma layout_in_catalog : forallb line_in_catalog layout = true.
Proof. vm_compute. reflexivity. Qed.

(** The summary: the date columns, and a row per line of the layout. *)
Lemma build_summary_layout (rows : list desktop_app.OutputRow) :
  desktop_app.build_summary_for_colleague rows
  = (date_columns rows, map (render rows) layout).
Proof.
  unfold desktop_app.build_summary_for_colleague.
  pose proof (summary_headers rows) as Hh.
  destruct (fold_left desktop_app.summary_row_step rows (∅, ∅))
    as [totals date_set] eqn:Hfold.
  cbn [snd] in Hh. rewrite Hh.
  replace (match dates_present rows with
           | [] => [desktop_app.DATE_PLACEHOLDER]
           | _ :: _ => dates_present rows
           end) with (date_columns rows)
    by (unfold date_columns; destruct (dates_present rows); reflexivity).
  rewrite summary_product_fold. cbn [app]. fold layout. f_equal.
  apply map_ext_in. intros line Hline.
  pose proof layout_in_catalog as Hall. rewrite forallb_forall in Hall.
  pose proof (render_totals_reference rows line (Hall line Hline)) as Hr.
  rewrite Hfold in Hr. exact Hr.
Qed.
End summary_facts.

(** ** Where the subtotal lines are *)

Ltac subtotal_line_at Hi :=
  vm_compute in Hi;
  first
    [ discriminate Hi
    | injection Hi as <-;
      eexists _, _, _;
      split; [reflexivity|];
      split; [vm_compute; reflexivity|];
      split; [vm_compute; reflexivity|];
      split; vm_compute; reflexivity ].

Lemma layout_subtotal (i : nat) (group : list pystr) :
  layout !! i = Some (SubtotalLine group) ->
  exists j prod brand,
    i = S j /\ layout !! j = Some (ProductLine prod) /\
    desktop_app.BRAND_BOUNDARIES !! prod = Some brand /\
    desktop_app.BRAND_PRODUCTS !! brand = Some group /\
    last group = Some prod.
Proof.
  intros Hi.
  assert (Hlt : (i < 44)%nat) by (apply lookup_lt_Some in Hi; exact Hi).
  do 44 (destruct i as [|i]; [subtotal_line_at Hi|]).
  lia.
Qed.

Ltac found_or_absurd H :=
  vm_compute in H;
  first [ discriminate H | eexists; vm_compute; reflexivity ].

Ltac product_line_at Hi :=
  vm_compute in Hi;
  first
    [ discriminate Hi
    | injection Hi as <-;
      split; [discriminate|];
      split;
      [ intros [brand Hb]; found_or_absurd Hb
      | intros [group Hg]; found_or_absurd Hg ] ].

Lemma layout_product (i : nat) (prod : pystr) :
  layout !! i = Some (ProductLine prod) ->
  prod <> [] /\
  (is_Some (desktop_app.BRAND_BOUNDARIES !! prod) <->
   exists group, layout !! S i = Some (SubtotalLine group)).
Proof.
  intros Hi.
  assert (Hlt : (i < 44)%nat) by (apply lookup_lt_Some in Hi; exact Hi).
  do 44 (destruct i as [|i]; [product_line_at Hi|]).
  lia.
Qed.

(** ** The summary table *)

Section summary_theorems.
Context `{PyFloat F}.

Lemma labelled_layout (rows : list desktop_app.OutputRow) (products : list pystr) :
  Forall (fun prod => truthy prod = true) products ->
  labelled (map (render rows) (flat_map lines_of products))
  = map (fun prod => (prod, product_cells rows prod)) products.
Proof.
  induction 1 as [|prod products Hprod _ IH]; [reflexivity|].
  cbn [flat_map]. rewrite map_app. unfold labelled in *.
  rewrite List.filter_app, IH. cbn [map]. rewrite <- IH. unfold lines_of.
  destruct (desktop_app.BRAND_BOUNDARIES !! prod);
    cbn [map List.filter render fst truthy]; rewrite Hprod; reflexivity.
Qed.

Lemma catalog_names_nonempty :
  Forall (fun prod => truthy prod = true) desktop_app.PRODUCT_ORDER.
Proof. apply (bool_decide_unpack _). vm_compute. exact I. Qed.

(** C2.  The summary computed for a group of rows is the reference
    table: its columns are the distinct non-empty dates of the group in
    ascending order, or the one placeholder column if there are none;
    the row of a catalog product holds, per column, the sum (shown by
    [format_num]) of the parsed quantities of the rows whose product
    normalises to that entry and whose date is that column.  Rows with
    an unparsable quantity or with a product outside the catalog add
    nothing. *)
Theorem summary_is_reference_table (rows : list desktop_app.OutputRow) :
  fst (desktop_app.build_summary_for_colleague rows) = date_columns rows /\
  labelled (snd (desktop_app.build_summary_for_colleague rows))
  = product_rows rows /\
  (StronglySorted str_le (dates_present rows) /\ NoDup (dates_present rows) /\
   forall d, d ∈ dates_present rows <->
             d <> [] /\ exists row, row ∈ rows /\ desktop_app.date_str row = d) /\
  (forall prod date row,
      prod ∈ desktop_app.PRODUCT_ORDER ->
      desktop_app.parse_quantity (desktop_app.qty row) = None
      \/ desktop_app.product_map
           !! desktop_app.normalize_product (desktop_app.product row) = None ->
      contribution prod date row = None).
Proof.
  rewrite build_summary_layout. cbn [fst snd].
  split; [reflexivity|]. split; [|split].
  - apply labelled_layout, catalog_names_nonempty.
  - apply dates_present_spec.
  - intros prod date row Hprod [Hq|Hp]; unfold contribution.
    + rewrite Hq. destruct (decide _); reflexivity.
    + destruct (decide _) as [[Hn _]|]; [|reflexivity].
      assert (Hmp : desktop_app.product_map
                      !! desktop_app.normalize_product (desktop_app.product row)
                    = Some prod)
        by (apply product_map_lookup; split; [exact Hprod|symmetry; exact Hn]).
      congruence.
Qed.

(** C3.  In the summary rows, a row with a blank label stands right
    after the row of a brand-boundary product and nowhere else: every
    blank row follows the row of a boundary product and holds, per date
    column, the sum of the product totals over the products of that
    boundary's brand group, of which the boundary product is the last;
    and the row of a catalog product is followed by a blank row exactly
    when the product is a brand boundary. *)
Theorem summary_subtotal_rows (rows : list desktop_app.OutputRow) :
  let summary_rows := snd (desktop_app.build_summary_for_colleague rows) in
  (forall i cells,
      summary_rows !! i = Some ([], cells) ->
      exists j prod brand group,
        i = S j /\
        summary_rows !! j = Some (prod, product_cells rows prod) /\
        prod <> [] /\
        desktop_app.BRAND_BOUNDARIES !! prod = Some brand /\
        desktop_app.BRAND_PRODUCTS !! brand = Some group /\
        last group = Some prod /\
        cells = subtotal_cells rows group) /\
  (forall i prod cells,
      summary_rows !! i = Some (prod, cells) -> prod <> [] ->
      (is_Some (desktop_app.BRAND_BOUNDARIES !! prod) <->
       exists cells', summary_rows !! S i = Some ([], cells'))).
Proof.
  cbv zeta. rewrite build_summary_layout. cbn [snd].
  change (map (render rows) layout) with (render rows <$> layout).
  split.
  - intros i cells Hi. rewrite list_lookup_fmap in Hi.
    destruct (layout !! i) as [[prod|group]|] eqn:Hl; try discriminate Hi.
    + injection Hi as Hp _. apply layout_product in Hl as [Hne _]. contradiction.
    + injection Hi as <-.
      destruct (layout_subtotal i group Hl) as (j & prod & brand & -> & Hj & Hb & Hg & Hlast).
      exists j, prod, brand, group.
      split; [reflexivity|]. split; [rewrite list_lookup_fmap, Hj; reflexivity|].
      split; [apply (layout_product j prod Hj)|]. auto.
  - intros i prod cells Hi Hne. rewrite list_lookup_fmap in Hi.
    destruct (layout !! i) as [[prod'|group]|] eqn:Hl; try discriminate Hi.
    + injection Hi as -> _. destruct (layout_product i prod Hl) as [_ Hiff].
      rewrite Hiff. split.
      * intros [group Hg]. exists (subtotal_cells rows group).
        rewrite list_lookup_fmap, Hg. reflexivity.
      * intros [cells' Hc]. rewrite list_lookup_fmap in Hc.
        destruct (layout !! S i) as [[prod'|group]|] eqn:Hs; try discriminate Hc.
        -- injection Hc as Hp _. apply layout_product in Hs as [Hne' _].
           contradiction.
        -- exists group. reflexivity.
    + injection Hi as Hp _. congruence.
Qed.
End summary_theorems.

(** ** The quantity parser *)

Lemma replace_char_remove (c : N) (s : pystr) : replace s [c] [] = remove_char c s.
Proof.
  unfold replace. induction s as [|x s IH]; [reflexivity|].
  cbn [replace_from startswith remove_char List.filter length Nat.pred].
  fold (remove_char c s). rewrite andb_true_r.
  destruct (x =? c); cbn [negb app]; rewrite IH; reflexivity.
Qed.

Lemma replace_char_subst (c d : N) (s : pystr) :
  replace s [c] [d] = subst_char c d s.
Proof.
  unfold replace. induction s as [|x s IH]; [reflexivity|].
  cbn [replace_from startswith subst_char map length Nat.pred].
  fold (subst_char c d s). rewrite andb_true_r.
  destruct (x =? c); cbn [app]; rewrite IH; reflexivity.
Qed.

Lemma contains_char (c : N) (s : pystr) : contains [c] s = has_char c s.
Proof.
  induction s as [|x s IH]; [reflexivity|].
  rewrite contains_cons, IH. cbn. rewrite andb_true_r. reflexivity.
Qed.

Lemma parse_quantity_is_rule `{PyFloat F} (value : pystr) :
  float_of_str [] = None ->
  desktop_app.parse_quantity value = parse_quantity_rule value.
Proof.
  intros Hempty. unfold desktop_app.parse_quantity, parse_quantity_rule.
  unfold desktop_app.SPACE, desktop_app.COMMA, desktop_app.DOT.
  destruct (strip value) as [|c text] eqn:Hs.
  - cbn. symmetry. exact Hempty.
  - cbn [truthy negb]. cbv zeta.
    rewrite replace_char_remove, !contains_char.
    rewrite replace_char_remove, replace_char_subst. reflexivity.
Qed.

(** C4.  The quantity parser trims the string and takes its spaces out;
    with both a comma and a dot in it, it drops every comma; with commas
    only, it turns them into dots; and it hands the result to [float],
    whose failure gives no value.  So "1 234,5" reads as 1234.5, "10,5" as
    10.5, "7" as 7, and "abc" has no value.  The two facts about [float]
    used: it rejects the empty string and "abc". *)
Theorem parse_quantity_follows_rule `{PyFloat F} :
  float_of_str [] = None ->
  float_of_str (u "abc") = None ->
  (forall value, desktop_app.parse_quantity value = parse_quantity_rule value) /\
  desktop_app.parse_quantity (u "1 234,5") = float_of_str (u "1234.5") /\
  desktop_app.parse_quantity (u "10,5") = float_of_str (u "10.5") /\
  desktop_app.parse_quantity (u "7") = float_of_str (u "7") /\
  desktop_app.parse_quantity (u "abc") = None.
Proof.
  intros Hempty Habc. split.
  - intros value. apply parse_quantity_is_rule, Hempty.
  - repeat split; try (vm_compute; reflexivity).
    rewrite <- Habc. vm_compute. reflexivity.
Qed.

Lemma parse_quantity_follows_rule_witness :
  @desktop_app.parse_quantity Q decimal.numbers (u "1 234,5") = Some (2469 # 2)%Q /\
  @desktop_app.parse_quantity Q decimal.numbers (u "10,5") = Some (21 # 2)%Q /\
  @desktop_app.parse_quantity Q decimal.numbers (u "7") = Some (7 # 1)%Q /\
  @desktop_app.parse_quantity Q decimal.numbers (u "abc") = None.
Proof.
  destruct (@parse_quantity_follows_rule Q decimal.numbers)
    as (_ & H1 & H2 & H3 & H4).
  - vm_compute. reflexivity.
  - vm_compute. reflexivity.
  - rewrite H1, H2, H3, H4. vm_compute. repeat split.
Defined.

(** ** Grouping by responsible person *)

Lemma elem_of_first_appearances (x : pystr) (names : list pystr) :
  x ∈ first_appearances names <-> x ∈ names.
Proof.
  induction names as [|n names IH]; [reflexivity|].
  cbn [first_appearances]. rewrite !elem_of_cons, list_elem_of_filter, IH.
  destruct (decide (x = n)); tauto.
Qed.

Lemma first_appearances_NoDup (names : list pystr) :
  NoDup (first_appearances names).
Proof.
  induction names as [|n names IH]; [constructor|].
  cbn [first_appearances]. apply NoDup_cons. split.
  - rewrite list_elem_of_filter. tauto.
  - apply NoDup_filter, IH.
Qed.

Lemma first_appearances_snoc (names : list pystr) (x : pystr) :
  first_appearances (names ++ [x]) =
  if decide (x ∈ names) then first_appearances names
  else first_appearances names ++ [x].
Proof.
  induction names as [|n names IH].
  - cbn. destruct (decide (x ∈ [])) as [Hx|_]; [inversion Hx|reflexivity].
  - cbn [app first_appearances]. rewrite IH. clear IH.
    destruct (decide (x ∈ names)) as [Hx|Hx].
    + rewrite decide_True by (apply elem_of_cons; auto). reflexivity.
    + rewrite filter_app.
      destruct (decide (x = n)) as [->|Hne].
      * rewrite decide_True by (apply elem_of_cons; auto).
        rewrite filter_cons_False by tauto. rewrite filter_nil, app_nil_r.
        reflexivity.
      * rewrite decide_False
          by (rewrite elem_of_cons; intros [?|?]; contradiction).
        rewrite filter_cons_True by exact Hne. reflexivity.
Qed.

Lemma rows_of_snoc (name : pystr) (rows : list desktop_app.OutputRow)
    (row : desktop_app.OutputRow) :
  rows_of name (rows ++ [row]) =
  if decide (desktop_app.colleague_name row = name)
  then rows_of name rows ++ [row]
  else rows_of name rows.
Proof.
  unfold rows_of. rewrite filter_app.
  destruct (decide (desktop_app.colleague_name row = name)) as [Heq|Hne].
  - rewrite filter_cons_True by exact Heq. reflexivity.
  - rewrite filter_cons_False by exact Hne. rewrite filter_nil, app_nil_r.
    reflexivity.
Qed.

Lemma rows_of_absent (name : pystr) (rows : list desktop_app.OutputRow) :
  name ∉ map desktop_app.colleague_name rows -> rows_of name rows = [].
Proof.
  induction rows as [|r rows IH]; [reflexivity|].
  cbn [map]. rewrite not_elem_of_cons. intros [Hne Hout].
  unfold rows_of. rewrite filter_cons_False by congruence. apply IH, Hout.
Qed.

(** The two accumulators after the loop over the rows. *)
Lemma group_rows_spec (rows : list desktop_app.OutputRow) :
  fst (desktop_app.group_rows rows)
  = first_appearances (map desktop_app.colleague_name rows) /\
  forall name,
    snd (desktop_app.group_rows rows) !! name =
    if decide (name ∈ map desktop_app.colleague_name rows)
    then Some (rows_of name rows)
    else None.
Proof.
  unfold desktop_app.group_rows.
  induction rows as [|row rows [IHo IHg]] using rev_ind.
  - split; [reflexivity|]. intros name. cbn. rewrite lookup_empty.
    destruct (decide (name ∈ [])) as [Hn|_]; [inversion Hn|reflexivity].
  - rewrite fold_left_app. cbn [fold_left].
    destruct (fold_left desktop_app.group_row rows ([], ∅))
      as [colleague_order by_colleague].
    cbn [fst snd] in IHo, IHg.
    rewrite map_app. cbn [map]. rewrite first_appearances_snoc.
    unfold desktop_app.group_row.
    set (person := desktop_app.colleague_name row).
    pose proof (IHg person) as Hperson.
    destruct (decide (person ∈ map desktop_app.colleague_name rows)) as [Hin|Hout];
      rewrite Hperson; cbn [fst snd].
    + split; [exact IHo|]. intros name.
      rewrite rows_of_snoc. fold person.
      destruct (decide (person = name)) as [<-|Hne].
      * rewrite lookup_insert_eq, Hperson.
        rewrite decide_True by (apply elem_of_app; auto). reflexivity.
      * rewrite lookup_insert_ne by exact Hne. rewrite IHg.
        destruct (decide (name ∈ map desktop_app.colleague_name rows)) as [Hn|Hn].
        -- rewrite decide_True by (apply elem_of_app; auto). reflexivity.
        -- rewrite decide_False; [reflexivity|].
           rewrite elem_of_app, list_elem_of_singleton. intros [?|?]; congruence.
    + split; [rewrite IHo; reflexivity|]. intros name.
      rewrite rows_of_snoc. fold person.
      destruct (decide (person = name)) as [<-|Hne].
      * rewrite lookup_insert_eq, lookup_insert_eq.
        rewrite decide_True
          by (apply elem_of_app; right; apply list_elem_of_singleton; reflexivity).
        rewrite (rows_of_absent person rows Hout). reflexivity.
      * rewrite lookup_insert_ne by exact Hne.
        rewrite lookup_insert_ne by exact Hne. rewrite IHg.
        destruct (decide (name ∈ map desktop_app.colleague_name rows)) as [Hn|Hn].
        -- rewrite decide_True by (apply elem_of_app; auto). reflexivity.
        -- rewrite decide_False; [reflexivity|].
           rewrite elem_of_app, list_elem_of_singleton. intros [?|?]; congruence.
Qed.

Lemma colleague_name_person (row : desktop_app.OutputRow) :
  desktop_app.colleague_name row = responsible_person row.
Proof.
  unfold desktop_app.colleague_name, responsible_person.
  destruct (strip (desktop_app.predal row)); reflexivity.
Qed.

Lemma colleague_names_persons (rows : list desktop_app.OutputRow) :
  map desktop_app.colleague_name rows = map responsible_person rows.
Proof. apply map_ext. intros row. apply colleague_name_person. Qed.

Lemma rows_of_group_of (name : pystr) (rows : list desktop_app.OutputRow) :
  rows_of name rows = group_of name rows.
Proof.
  unfold rows_of, group_of. induction rows as [|row rows IH]; [reflexivity|].
  rewrite !filter_cons, IH, colleague_name_person. reflexivity.
Qed.

(** C6.  Grouping the output rows by responsible person: the group of a
    row is named by its responsible value, trimmed, and by "Неизвестен"
    when that value is empty or blank.  The names are listed once each,
    in the order of their first appearance over the input; the rows
    stored under a name are exactly the rows of that person, in input
    order; a row with a responsible value is stored under that value,
    trimmed; a row without one is stored under "Неизвестен", which is in
    the list like any other name; and the sheets are the listed names
    with their rows. *)
Theorem grouping_keeps_first_appearance (rows : list desktop_app.OutputRow) :
  let colleague_order := fst (desktop_app.group_rows rows) in
  let by_colleague := snd (desktop_app.group_rows rows) in
  colleague_order = first_appearances (map responsible_person rows) /\
  NoDup colleague_order /\
  (forall name,
      name ∈ colleague_order <->
      exists row, row ∈ rows /\ responsible_person row = name) /\
  (forall name,
      name ∈ colleague_order ->
      by_colleague !! name = Some (group_of name rows) /\
      group_of name rows `sublist_of` rows) /\
  (forall row,
      row ∈ rows -> strip (desktop_app.predal row) <> [] ->
      strip (desktop_app.predal row) ∈ colleague_order /\
      by_colleague !! strip (desktop_app.predal row)
      = Some (group_of (strip (desktop_app.predal row)) rows) /\
      row ∈ group_of (strip (desktop_app.predal row)) rows) /\
  (forall row,
      row ∈ rows -> strip (desktop_app.predal row) = [] ->
      u "Неизвестен" ∈ colleague_order /\
      by_colleague !! u "Неизвестен" = Some (group_of (u "Неизвестен") rows) /\
      row ∈ group_of (u "Неизвестен") rows) /\
  desktop_app.sheets rows
  = map (fun name => (name, group_of name rows)) colleague_order.
Proof.
  cbv zeta. destruct (group_rows_spec rows) as [Ho Hg].
  rewrite colleague_names_persons in Ho.
  assert (Hmem : forall name,
             name ∈ fst (desktop_app.group_rows rows) <->
             exists row, row ∈ rows /\ responsible_person row = name).
  { intros name. rewrite Ho, elem_of_first_appearances.
    change (map responsible_person rows) with (responsible_person <$> rows).
    rewrite list_elem_of_fmap. split.
    - intros (row & -> & Hrow). exists row. auto.
    - intros (row & Hrow & <-). exists row. auto. }
  assert (Hlook : forall name,
             name ∈ fst (desktop_app.group_rows rows) ->
             snd (desktop_app.group_rows rows) !! name = Some (group_of name rows)).
  { intros name Hn. rewrite Hg, colleague_names_persons, rows_of_group_of.
    rewrite Ho, elem_of_first_appearances in Hn.
    rewrite decide_True by exact Hn. reflexivity. }
  assert (Hrow : forall row,
             row ∈ rows ->
             responsible_person row ∈ fst (desktop_app.group_rows rows) /\
             snd (desktop_app.group_rows rows) !! responsible_person row
             = Some (group_of (responsible_person row) rows) /\
             row ∈ group_of (responsible_person row) rows).
  { intros row Hin.
    assert (Hn : responsible_person row ∈ fst (desktop_app.group_rows rows))
      by (apply Hmem; exists row; auto).
    split; [exact Hn|]. split; [exact (Hlook _ Hn)|].
    unfold group_of. apply list_elem_of_filter. auto. }
  split; [exact Ho|]. split; [rewrite Ho; apply first_appearances_NoDup|].
  split; [exact Hmem|]. split; [|split; [|split]].
  - intros name Hn. split; [exact (Hlook name Hn)|]. apply sublist_filter.
  - intros row Hin Hvalue. specialize (Hrow row Hin).
    unfold responsible_person in Hrow at 1 2 3 4.
    destruct (strip (desktop_app.predal row)); [congruence|exact Hrow].
  - intros row Hin Hblank. specialize (Hrow row Hin).
    unfold responsible_person in Hrow at 1 2 3 4.
    rewrite Hblank in Hrow. exact Hrow.
  - unfold desktop_app.sheets.
    destruct (desktop_app.group_rows rows) as [colleague_order by_colleague].
    cbn [fst snd] in *. apply map_ext_in. intros name Hn.
    apply list_elem_of_In in Hn. rewrite (Hlook name Hn). reflexivity.
Qed.

(** ** Resolving links *)

Section run_facts.
Context (fetch_html : nat -> pystr -> fetch_outcome).
Context (html_to_chunks : pystr -> list pystr).

Local Abbreviation run_row := (desktop_app.run_row fetch_html html_to_chunks).
Local Abbreviation run := (desktop_app.run fetch_html html_to_chunks).
Local Abbreviation stored := (stored_value html_to_chunks).

Lemma or_empty_id (s : pystr) : desktop_app.or_empty s = s.
Proof. destruct s; reflexivity. Qed.

(** A round of the loop on a link that is not in the cache makes one
    request and stores what it brought; any other round leaves the
    state alone. *)
Lemma run_row_cases (st : desktop_app.run_state) (row : desktop_app.ReceiptRow) :
  let '(st', o) := run_row st row in
  desktop_app.link o = desktop_app.r_link row /\
  ((st' = st /\ desktop_app.predal o = resolved st (desktop_app.r_link row) /\
    in_cache st (desktop_app.r_link row))
   \/
   (exists l, desktop_app.r_link row = Some l /\ l <> [] /\
              desktop_app.url_cache st !! l = None /\
              let v := stored (fetch_html (length (desktop_app.requests st)) l) in
              desktop_app.predal o = v /\
              st' = {| desktop_app.url_cache := <[l := v]> (desktop_app.url_cache st);
                       desktop_app.requests := desktop_app.requests st ++ [l] |})).
Proof.
  unfold desktop_app.run_row, in_cache.
  destruct (desktop_app.r_link row) as [l|] eqn:Hl; cbn [resolved].
  - destruct (truthy l) eqn:Ht.
    + destruct (desktop_app.url_cache st !! l) as [cached|] eqn:Hc.
      * split; [reflexivity|]. left. cbn [desktop_app.predal].
        rewrite or_empty_id. split; [reflexivity|]. split; [reflexivity|].
        intros l' [= <-] _. rewrite Hc. eauto.
      * destruct (fetch_html (length (desktop_app.requests st)) l)
          as [html content_type|] eqn:Hf;
          (split; [reflexivity|]); right; exists l;
          (split; [reflexivity|]); (split; [apply truthy_nonempty, Ht|]);
          (split; [exact Hc|]); cbv zeta; rewrite Hf; cbn [stored_value];
          split; reflexivity.
    + split; [reflexivity|]. left. split; [reflexivity|]. split; [reflexivity|].
      intros l' [= <-] Hne. apply truthy_nonempty in Hne. congruence.
  - split; [reflexivity|]. left. split; [reflexivity|]. split; [reflexivity|].
    intros l' [=].
Qed.
End run_facts.

Section run_invariants.
Context (fetch_html : nat -> pystr -> fetch_outcome).
Context (html_to_chunks : pystr -> list pystr).

Local Abbreviation run_row := (desktop_app.run_row fetch_html html_to_chunks).
Local Abbreviation run := (desktop_app.run fetch_html html_to_chunks).
Local Abbreviation stored := (stored_value html_to_chunks).

Lemma run_snoc (rows : list desktop_app.ReceiptRow) (row : desktop_app.ReceiptRow) :
  run (rows ++ [row]) =
  let '(st', o) := run_row (fst (run rows)) row in (st', snd (run rows) ++ [o]).
Proof. unfold desktop_app.run. rewrite fold_left_app. reflexivity. Qed.

(** Values of links already in the cache are kept by a new entry. *)
Lemma resolved_insert (st : desktop_app.run_state) (l v : pystr)
    (requests' : list pystr) (link : option pystr) :
  desktop_app.url_cache st !! l = None ->
  in_cache st link ->
  resolved {| desktop_app.url_cache := <[l := v]> (desktop_app.url_cache st);
              desktop_app.requests := requests' |} link
  = resolved st link /\
  in_cache {| desktop_app.url_cache := <[l := v]> (desktop_app.url_cache st);
              desktop_app.requests := requests' |} link.
Proof.
  intros Hmiss Hin. unfold resolved, in_cache in *. cbn [desktop_app.url_cache].
  destruct link as [k|]; [|split; [reflexivity|intros ? [=]]].
  destruct (truthy k) eqn:Hk.
  - assert (Hsome : is_Some (desktop_app.url_cache st !! k))
      by (apply Hin; [reflexivity|apply truthy_nonempty, Hk]).
    assert (Hne : l <> k) by (intros ->; rewrite Hmiss in Hsome; destruct Hsome; discriminate).
    rewrite lookup_insert_ne by exact Hne. split; [reflexivity|].
    intros k' [= <-] _. rewrite lookup_insert_ne by exact Hne. exact Hsome.
  - split; [reflexivity|]. intros k' [= <-] Hk'.
    apply truthy_nonempty in Hk'. congruence.
Qed.

Lemma run_invariant_holds (rows : list desktop_app.ReceiptRow) :
  run_invariant fetch_html html_to_chunks rows (fst (run rows)) (snd (run rows)).
Proof.
  induction rows as [|row rows IH] using rev_ind.
  - unfold run_invariant. cbn.
    split; [constructor|]. split; [constructor|].
    split; [|split].
    + intros l. rewrite lookup_empty. split; [intros Hl; inversion Hl|].
      intros [? [=]].
    + intros l. split; [intros Hl; inversion Hl|].
      intros (_ & row & Hrow & _). inversion Hrow.
    + intros n l Hn. rewrite lookup_nil in Hn. discriminate.
  - rewrite run_snoc.
    pose proof (run_row_cases fetch_html html_to_chunks (fst (run rows)) row) as Hcase.
    destruct (run_row (fst (run rows)) row) as [st' o].
    destruct IH as (Ha & Hb & Hc & Hd & He).
    destruct Hcase as [Hlink [(-> & Hp & Hhit)|(l & Hl & Hne & Hmiss & Hstep)]];
      cbn [fst snd].
    + (* nothing requested *)
      split; [|split; [exact Hb|split; [exact Hc|split; [|exact He]]]].
      * apply Forall2_app; [exact Ha|]. repeat constructor; assumption.
      * intros l. split.
        -- intros Hin. apply Hd in Hin as (Hl & r & Hr & Hrl).
           split; [exact Hl|]. exists r. split; [apply elem_of_app; auto|exact Hrl].
        -- intros (Hl & r & Hr & Hrl). apply elem_of_app in Hr as [Hr|Hr].
           ++ apply Hd. split; [exact Hl|]. exists r. auto.
           ++ apply list_elem_of_singleton in Hr. subst r.
              apply Hc. apply (Hhit l Hrl Hl).
    + (* one request *)
      cbv zeta in Hstep. destruct Hstep as [Hp ->].
      set (v := stored (fetch_html (length (desktop_app.requests (fst (run rows)))) l)) in *.
      assert (Hfresh : l ∉ desktop_app.requests (fst (run rows))).
      { intros Hin. apply Hc in Hin. rewrite Hmiss in Hin.
        destruct Hin. discriminate. }
      split; [|split; [|split; [|split]]]; cbn [desktop_app.url_cache desktop_app.requests].
      * apply Forall2_app.
        -- eapply Forall2_impl; [exact Ha|]. intros r o' (Ho1 & Ho2 & Ho3).
           destruct (resolved_insert (fst (run rows)) l v
                       (desktop_app.requests (fst (run rows)) ++ [l])
                       (desktop_app.r_link r) Hmiss Ho3) as [Hr1 Hr2].
           split; [exact Ho1|]. split; [rewrite Hr1; exact Ho2|exact Hr2].
        -- constructor; [|constructor]. split; [exact Hlink|].
           rewrite Hl. unfold resolved, in_cache. cbn [desktop_app.url_cache].
           apply truthy_nonempty in Hne. rewrite Hne, lookup_insert_eq.
           split; [exact Hp|]. intros l' [= <-] _. rewrite lookup_insert_eq. eauto.
      * apply NoDup_app. split; [exact Hb|]. split; [|apply NoDup_singleton].
        intros x Hx Hxl. apply list_elem_of_singleton in Hxl. subst x. contradiction.
      * intros l'. rewrite elem_of_app, list_elem_of_singleton.
        destruct (decide (l = l')) as [<-|Hll].
        -- rewrite lookup_insert_eq. split; [eauto|auto].
        -- rewrite lookup_insert_ne by exact Hll. rewrite <- Hc.
           split; [intros [?|?]; [assumption|congruence]|auto].
      * intros l'. rewrite elem_of_app, list_elem_of_singleton. split.
        -- intros [Hin| ->].
           ++ apply Hd in Hin as (Hl' & r & Hr & Hrl).
              split; [exact Hl'|]. exists r. split; [apply elem_of_app; auto|exact Hrl].
           ++ split; [exact Hne|]. exists row.
              split; [apply elem_of_app; right; apply list_elem_of_singleton; reflexivity|exact Hl].
        -- intros (Hl' & r & Hr & Hrl). apply elem_of_app in Hr as [Hr|Hr].
           ++ left. apply Hd. split; [exact Hl'|]. exists r. auto.
           ++ apply list_elem_of_singleton in Hr. subst r. right. congruence.
      * intros n l' Hn.
        destruct (decide (n < length (desktop_app.requests (fst (run rows))))%nat)
          as [Hlt|Hge].
        -- rewrite lookup_app_l in Hn by exact Hlt.
           assert (Hll : l <> l').
           { intros <-. apply Hfresh. apply list_elem_of_lookup. eauto. }
           rewrite lookup_insert_ne by exact Hll. apply He, Hn.
        -- rewrite lookup_app_r in Hn by lia.
           destruct (n - length (desktop_app.requests (fst (run rows))))%nat
             as [|k] eqn:Hk; [|destruct k; discriminate Hn].
           injection Hn as <-.
           assert (n = length (desktop_app.requests (fst (run rows)))) as -> by lia.
           rewrite lookup_insert_eq. reflexivity.
Qed.
End run_invariants.

Section main_invariants.
Context (fetch_html : nat -> pystr -> fetch_outcome).
Context (html_to_chunks : pystr -> list pystr).

Local Abbreviation main_row := (extract_predal.main_row fetch_html html_to_chunks).
Local Abbreviation main := (extract_predal.main fetch_html html_to_chunks).
Local Abbreviation main_stored := (main_stored_value html_to_chunks).

Lemma main_row_cases (st : extract_predal.main_state) (item : pystr * pystr) :
  let '(st', result) := main_row st item in
  (st' = st /\
   exists predal, extract_predal.url_cache st !! snd item = Some predal /\
                  result = (fst item, predal, snd item))
  \/
  (extract_predal.url_cache st !! snd item = None /\
   let v := main_stored (fetch_html (length (extract_predal.requests st)) (snd item)) in
   result = (fst item, v, snd item) /\
   st' = {| extract_predal.url_cache := <[snd item := v]> (extract_predal.url_cache st);
            extract_predal.requests := extract_predal.requests st ++ [snd item] |}).
Proof.
  destruct item as [doc_number url]. unfold extract_predal.main_row. cbn [fst snd].
  destruct (extract_predal.url_cache st !! url) as [cached|] eqn:Hc.
  - cbv beta iota zeta. left. split; [reflexivity|].
    exists cached. split; reflexivity.
  - destruct (fetch_html (length (extract_predal.requests st)) url)
      as [html content_type|]; cbv beta iota zeta; right;
      (split; [reflexivity|]); cbn [main_stored_value]; split; reflexivity.
Qed.

Lemma main_snoc (links : list (pystr * pystr)) (item : pystr * pystr) :
  main (links ++ [item]) =
  let '(st', result) := main_row (fst (main links)) item in
  (st', snd (main links) ++ [result]).
Proof. unfold extract_predal.main. rewrite fold_left_app. reflexivity. Qed.

Lemma main_invariant_holds (links : list (pystr * pystr)) :
  main_invariant fetch_html html_to_chunks links
    (fst (main links)) (snd (main links)).
Proof.
  induction links as [|item links IH] using rev_ind.
  - unfold main_invariant. cbn.
    split; [constructor|]. split; [constructor|].
    split; [|split].
    + intros l. rewrite lookup_empty. split; [intros Hl; inversion Hl|].
      intros [? [=]].
    + intros l. split; [intros Hl; inversion Hl|].
      intros (item & Hitem & _). inversion Hitem.
    + intros n l Hn. rewrite lookup_nil in Hn. discriminate.
  - rewrite main_snoc.
    pose proof (main_row_cases (fst (main links)) item) as Hcase.
    destruct (main_row (fst (main links)) item) as [st' result].
    destruct IH as (Ha & Hb & Hc & Hd & He).
    destruct Hcase as [(-> & predal & Hhit & ->)|(Hmiss & Hstep)]; cbn [fst snd].
    + (* nothing requested *)
      split; [|split; [exact Hb|split; [exact Hc|split; [|exact He]]]].
      * apply Forall2_app; [exact Ha|]. constructor; [|constructor].
        exists predal. auto.
      * intros l. split.
        -- intros Hin. apply Hd in Hin as (it & Hit & Hl).
           exists it. split; [apply elem_of_app; auto|exact Hl].
        -- intros (it & Hit & Hl). apply elem_of_app in Hit as [Hit|Hit].
           ++ apply Hd. exists it. auto.
           ++ apply list_elem_of_singleton in Hit. subst it l.
              apply Hc. rewrite Hhit. eauto.
    + (* one request *)
      cbv zeta in Hstep. destruct Hstep as [-> ->].
      set (url := snd item) in *.
      set (v := main_stored (fetch_html (length (extract_predal.requests (fst (main links)))) url)) in *.
      assert (Hfresh : url ∉ extract_predal.requests (fst (main links))).
      { intros Hin. apply Hc in Hin. rewrite Hmiss in Hin.
        destruct Hin. discriminate. }
      split; [|split; [|split; [|split]]];
        cbn [extract_predal.url_cache extract_predal.requests].
      * apply Forall2_app.
        -- eapply Forall2_impl; [exact Ha|]. intros it res (predal & Hres & Hcache).
           exists predal. split; [exact Hres|].
           rewrite lookup_insert_ne; [exact Hcache|].
           intros Heq. rewrite <- Heq, Hmiss in Hcache. discriminate.
        -- constructor; [|constructor]. exists v.
           split; [reflexivity|apply lookup_insert_eq].
      * apply NoDup_app. split; [exact Hb|]. split; [|apply NoDup_singleton].
        intros x Hx Hxl. apply list_elem_of_singleton in Hxl. subst x. contradiction.
      * intros l'. rewrite elem_of_app, list_elem_of_singleton.
        destruct (decide (url = l')) as [<-|Hll].
        -- rewrite lookup_insert_eq. split; [eauto|auto].
        -- rewrite lookup_insert_ne by exact Hll. rewrite <- Hc.
           split; [intros [?|?]; [assumption|congruence]|auto].
      * intros l'. rewrite elem_of_app, list_elem_of_singleton. split.
        -- intros [Hin| ->].
           ++ apply Hd in Hin as (it & Hit & Hl).
              exists it. split; [apply elem_of_app; auto|exact Hl].
           ++ exists item.
              split; [apply elem_of_app; right; apply list_elem_of_singleton|];
                reflexivity.
        -- intros (it & Hit & Hl). apply elem_of_app in Hit as [Hit|Hit].
           ++ left. apply Hd. exists it. auto.
           ++ apply list_elem_of_singleton in Hit. subst it. right.
              symmetry. exact Hl.
      * intros n l' Hn.
        destruct (decide (n < length (extract_predal.requests (fst (main links))))%nat)
          as [Hlt|Hge].
        -- rewrite lookup_app_l in Hn by exact Hlt.
           assert (Hll : url <> l').
           { intros <-. apply Hfresh. apply list_elem_of_lookup. eauto. }
           rewrite lookup_insert_ne by exact Hll. apply He, Hn.
        -- rewrite lookup_app_r in Hn by lia.
           destruct (n - length (extract_predal.requests (fst (main links))))%nat
             as [|k] eqn:Hk; [|destruct k; discriminate Hn].
           injection Hn as <-.
           assert (n = length (extract_predal.requests (fst (main links)))) as -> by lia.
           rewrite lookup_insert_eq. reflexivity.
Qed.
End main_invariants.

Lemma requested_once (requests : list pystr) (l : pystr) :
  NoDup requests -> l ∈ requests ->
  count_occ (fun x y : pystr => decide (x = y)) requests l = 1%nat.
Proof.
  intros Hnd Hin. apply list_elem_of_In in Hin. apply NoDup_ListNoDup in Hnd.
  apply (proj1 (NoDup_count_occ' _ requests) Hnd l Hin).
Qed.

(** C5.  In a run of [Worker.run] ([desktop_app.py]) and in a run of
    [main] ([extract_predal.py]), whatever the network answers: every row
    gets its output row; a link is requested exactly once if some row
    carries it (and is not empty, for [Worker.run]) and never otherwise;
    rows with the same link get the same value; and when the request for a
    link raised, the cache holds the absent value for it ([""], resp.
    [None]), which is what every row with that link gets. *)
Theorem links_are_fetched_once
    (fetch_html : nat -> pystr -> fetch_outcome)
    (html_to_chunks : pystr -> list pystr) :
  (forall rows : list desktop_app.ReceiptRow,
      let st := fst (desktop_app.run fetch_html html_to_chunks rows) in
      let out := snd (desktop_app.run fetch_html html_to_chunks rows) in
      length out = length rows /\
      (forall l,
          l ∈ desktop_app.requests st <->
          l <> [] /\ exists row, row ∈ rows /\ desktop_app.r_link row = Some l) /\
      (forall l,
          l ∈ desktop_app.requests st ->
          count_occ (fun x y : pystr => decide (x = y)) (desktop_app.requests st) l
          = 1%nat) /\
      (forall i j ri rj oi oj,
          rows !! i = Some ri -> rows !! j = Some rj ->
          out !! i = Some oi -> out !! j = Some oj ->
          desktop_app.r_link ri = desktop_app.r_link rj ->
          desktop_app.predal oi = desktop_app.predal oj) /\
      (forall n l,
          desktop_app.requests st !! n = Some l -> fetch_html n l = Raised ->
          desktop_app.url_cache st !! l = Some [] /\
          forall i ri oi,
            rows !! i = Some ri -> out !! i = Some oi ->
            desktop_app.r_link ri = Some l -> desktop_app.predal oi = []))
  /\
  (forall links : list (pystr * pystr),
      let st := fst (extract_predal.main fetch_html html_to_chunks links) in
      let results := snd (extract_predal.main fetch_html html_to_chunks links) in
      length results = length links /\
      (forall l,
          l ∈ extract_predal.requests st <->
          exists item, item ∈ links /\ snd item = l) /\
      (forall l,
          l ∈ extract_predal.requests st ->
          count_occ (fun x y : pystr => decide (x = y)) (extract_predal.requests st) l
          = 1%nat) /\
      (forall i j itemi itemj resi resj,
          links !! i = Some itemi -> links !! j = Some itemj ->
          results !! i = Some resi -> results !! j = Some resj ->
          snd itemi = snd itemj ->
          snd (fst resi) = snd (fst resj)) /\
      (forall n l,
          extract_predal.requests st !! n = Some l -> fetch_html n l = Raised ->
          extract_predal.url_cache st !! l = Some None /\
          forall i item res,
            links !! i = Some item -> results !! i = Some res ->
            snd item = l -> snd (fst res) = None)).
Proof.
  split.
  - intros rows. cbv zeta.
    destruct (run_invariant_holds fetch_html html_to_chunks rows)
      as (Ha & Hb & Hc & Hd & He).
    split; [symmetry; apply (Forall2_length _ _ _ Ha)|].
    split; [exact Hd|]. split; [intros l; apply requested_once, Hb|].
    split.
    + intros i j ri rj oi oj Hi Hj Hoi Hoj Hlink.
      destruct (Forall2_lookup_lr _ _ _ _ _ _ Ha Hi Hoi) as (_ & -> & _).
      destruct (Forall2_lookup_lr _ _ _ _ _ _ Ha Hj Hoj) as (_ & -> & _).
      rewrite Hlink. reflexivity.
    + intros n l Hn Hraised. pose proof (He n l Hn) as Hcache.
      rewrite Hraised in Hcache. cbn [stored_value] in Hcache.
      split; [exact Hcache|]. intros i ri oi Hi Hoi Hl.
      destruct (Forall2_lookup_lr _ _ _ _ _ _ Ha Hi Hoi) as (_ & -> & _).
      rewrite Hl. unfold resolved. rewrite Hcache. destruct (truthy l); reflexivity.
  - intros links. cbv zeta.
    destruct (main_invariant_holds fetch_html html_to_chunks links)
      as (Ha & Hb & Hc & Hd & He).
    split; [symmetry; apply (Forall2_length _ _ _ Ha)|].
    split; [exact Hd|]. split; [intros l; apply requested_once, Hb|].
    split.
    + intros i j itemi itemj resi resj Hi Hj Hri Hrj Hurl.
      destruct (Forall2_lookup_lr _ _ _ _ _ _ Ha Hi Hri) as (pi & -> & Hpi).
      destruct (Forall2_lookup_lr _ _ _ _ _ _ Ha Hj Hrj) as (pj & -> & Hpj).
      cbn [fst snd]. rewrite Hurl in Hpi. congruence.
    + intros n l Hn Hraised. pose proof (He n l Hn) as Hcache.
      rewrite Hraised in Hcache. cbn [main_stored_value] in Hcache.
      split; [exact Hcache|]. intros i item res Hi Hres Hl.
      destruct (Forall2_lookup_lr _ _ _ _ _ _ Ha Hi Hres) as (p & -> & Hp).
      cbn [fst snd]. rewrite Hl in Hp. congruence.
Qed.

(** ** Product names *)

(** C8 (as the code has it).  Normalisation trims the name, lower-cases
    it and collapses every run of space characters (U+0020) to one space;
    other white-space characters inside the name stay as they are.  Names
    with the same lower-casing have the same normal form.  A name whose
    normal form is that of a catalog entry is looked up to that entry, and
    the labelled rows of a summary carry the catalog spellings. *)
Theorem normalize_product_collapses_spaces :
  (forall value,
      desktop_app.normalize_product value = squeeze_spaces (lower (strip value))) /\
  (forall value,
      contains desktop_app.TWO_SPACES (desktop_app.normalize_product value) = false) /\
  (forall a b,
      lower a = lower b ->
      desktop_app.normalize_product a = desktop_app.normalize_product b) /\
  (forall value prod,
      desktop_app.product_map !! desktop_app.normalize_product value = Some prod <->
      prod ∈ desktop_app.PRODUCT_ORDER /\
      desktop_app.normalize_product prod = desktop_app.normalize_product value) /\
  (forall F (numbers : PyFloat F) (rows : list desktop_app.OutputRow),
      map fst (labelled (snd (desktop_app.build_summary_for_colleague rows)))
      = desktop_app.PRODUCT_ORDER).
Proof.
  split; [exact normalize_product_squeeze|].
  split; [intros value; rewrite normalize_product_squeeze; apply squeeze_spaces_no_run|].
  split; [exact normalize_product_case|].
  split; [intros value prod; apply product_map_lookup|].
  intros F numbers rows.
  rewrite build_summary_layout. cbn [snd]. unfold layout.
  rewrite (labelled_layout rows _ catalog_names_nonempty).
  rewrite map_map. cbn [fst]. apply map_id.
Qed.

(** C8, as stated, fails: a run of two no-break spaces inside a name is
    left as it is, so "PAZ  Mango" written with them is not found in the
    catalog. *)
Lemma normalize_product_keeps_other_whitespace :
  desktop_app.normalize_product (u "PAZ" ++ [160; 160] ++ u "Mango")
  = u "paz" ++ [160; 160] ++ u "mango" /\
  desktop_app.product_map
    !! desktop_app.normalize_product (u "PAZ" ++ [160; 160] ++ u "Mango") = None /\
  ~ (forall value,
        whitespace_collapsed (desktop_app.normalize_product value) = true).
Proof.
  split; [vm_compute; reflexivity|]. split; [vm_compute; reflexivity|].
  intros Hall. specialize (Hall (u "PAZ" ++ [160; 160] ++ u "Mango")).
  vm_compute in Hall. discriminate.
Qed.

(** ** The examples of the specification, run on the model *)

Example extract_next_chunk :
  desktop_app.extract_predal_from_chunks [u "ПРЕДАЛ:"; u "Иван Иванов"]
  = Some (u "Иван Иванов").
Proof. vm_compute. reflexivity. Qed.

Example extract_same_chunk :
  desktop_app.extract_predal_from_chunks [u "Предал: Мария Петрова"]
  = Some (u "Мария Петрова").
Proof. vm_compute. reflexivity. Qed.

Example extract_next_is_label :
  desktop_app.extract_predal_from_chunks [u "ПРЕДАЛ:"; u "Получил:"] = None.
Proof. vm_compute. reflexivity. Qed.

Example extract_scan_goes_on :
  desktop_app.extract_predal_from_chunks
    [u "ПРЕДАЛ:"; u "Получил:"; u "предал Петър"]
  = Some (u "Петър").
Proof. vm_compute. reflexivity. Qed.

Example summary_two_rows :
  let row q := {| desktop_app.number := u "1"; desktop_app.predal := u "Иван";
                  desktop_app.date_str := u "2024-01-01";
                  desktop_app.product := u "PAZ X-Freeze";
                  desktop_app.qty := u q; desktop_app.link := None |} in
  let summary :=
    @desktop_app.build_summary_for_colleague Q decimal.numbers [row "3"; row "2"]%string in
  fst summary = [u "2024-01-01"] /\
  snd summary !! 0%nat = Some (u "PAZ X-Freeze", [NInt 5]) /\
  snd summary !! 10%nat = Some ([], [NInt 5]).
Proof. vm_compute. repeat split. Qed.

Example grouping_example :
  let row p := {| desktop_app.number := u "1"; desktop_app.predal := u p;
                  desktop_app.date_str := []; desktop_app.product := [];
                  desktop_app.qty := []; desktop_app.link := None |} in
  map fst (desktop_app.sheets [row "Мария"; row " "; row "Иван"; row "Мария "; row ""]%string)
  = [u "Мария"; desktop_app.UNKNOWN; u "Иван"].
Proof. vm_compute. reflexivity. Qed.

(** * Further properties of the code *)

(** ** Text chunks *)

Lemma chunks_of_data_from (fragments chunks : list pystr) :
  fold_left desktop_app.handle_data fragments chunks
  = chunks ++ filter (fun c => c <> []) (strip <$> fragments).
Proof.
  revert chunks. induction fragments as [|d fragments IH]; intros chunks.
  - cbn. rewrite app_nil_r. reflexivity.
  - cbn [fold_left fmap list_fmap]. rewrite IH. unfold desktop_app.handle_data.
    destruct (truthy (strip d)) eqn:Hd.
    + rewrite filter_cons_True by (apply truthy_nonempty, Hd).
      rewrite <- app_assoc. reflexivity.
    + rewrite filter_cons_False; [reflexivity|].
      intros Hne. apply truthy_nonempty in Hne. congruence.
Qed.

Lemma chunks_of_data_filter (fragments : list pystr) :
  desktop_app.chunks_of_data fragments
  = filter (fun c => c <> []) (strip <$> fragments).
Proof. apply (chunks_of_data_from fragments []). Qed.

Lemma chunks_of_data_trimmed (fragments : list pystr) :
  Forall trimmed_chunk (desktop_app.chunks_of_data fragments).
Proof.
  rewrite chunks_of_data_filter. apply Forall_forall. intros c Hc.
  apply list_elem_of_filter in Hc as [Hne Hc].
  apply list_elem_of_fmap in Hc as (d & -> & _).
  split; [exact Hne|apply strip_idem].
Qed.

(** X1.  The chunks [html_to_chunks] returns are the text fragments of
    the document, each trimmed, in document order, without the blank
    ones; so every chunk is non-empty and has no white space at either
    end. *)
Theorem chunks_are_trimmed (fragments : list pystr) :
  desktop_app.chunks_of_data fragments
  = filter (fun c => c <> []) (strip <$> fragments) /\
  Forall trimmed_chunk (desktop_app.chunks_of_data fragments).
Proof.
  split; [apply chunks_of_data_filter|apply chunks_of_data_trimmed].
Qed.

(** X2.  On the chunks of a document whose upper-casing keeps their
    length, the field extractor returns what the rule of the
    specification gives. *)
Theorem extract_on_document_chunks (fragments : list pystr) :
  Forall case_stable (desktop_app.chunks_of_data fragments) ->
  desktop_app.extract_predal_from_chunks (desktop_app.chunks_of_data fragments)
  = extract_rule (desktop_app.chunks_of_data fragments).
Proof.
  intros Hs. apply extract_follows_rule; [|exact Hs].
  apply chunks_of_data_trimmed.
Qed.

Lemma extract_on_document_chunks_witness :
  desktop_app.extract_predal_from_chunks
    (desktop_app.chunks_of_data [u "  ПРЕДАЛ: "; u "   "; u " Иван Иванов "])
  = Some (u "Иван Иванов").
Proof.
  rewrite (extract_on_document_chunks [u "  ПРЕДАЛ: "; u "   "; u " Иван Иванов "]).
  - vm_compute. reflexivity.
  - apply (bool_decide_unpack _). vm_compute. exact I.
Defined.

(** ** Where an extracted value comes from *)

Lemma lstrip_by_suffix (f : N -> bool) (s : pystr) :
  exists k, lstrip_by f s = drop k s.
Proof.
  induction s as [|c s [k IH]]; [exists O; reflexivity|].
  cbn [lstrip_by]. destruct (f c).
  - exists (S k). exact IH.
  - exists O. reflexivity.
Qed.

Lemma lstrip_by_head (f : N -> bool) (s : pystr) (c : N) :
  head (lstrip_by f s) = Some c -> f c = false.
Proof.
  induction s as [|d s IH]; [discriminate|].
  cbn [lstrip_by]. destruct (f d) eqn:Hd; [exact IH|].
  intros [= <-]. exact Hd.
Qed.

Lemma scan_absent (chunks : list pystr) :
  Forall (fun c => contains PREDAL (upper c) = false) chunks -> scan chunks = None.
Proof.
  induction 1 as [|c chunks Hc _ IH]; [reflexivity|].
  cbn [scan]. unfold scan_chunk. rewrite Hc. exact IH.
Qed.

(** X3.  Without the marker in any chunk, in whatever case, the field
    extractor returns nothing. *)
Theorem extract_absent_without_marker (chunks : list pystr) :
  Forall (fun c => contains PREDAL (upper c) = false) chunks ->
  desktop_app.extract_predal_from_chunks chunks = None.
Proof. rewrite extract_is_scan. apply scan_absent. Qed.

Lemma extract_absent_without_marker_witness :
  desktop_app.extract_predal_from_chunks [u "Получил:"; u "Мария Петрова"] = None.
Proof.
  apply extract_absent_without_marker.
  apply (bool_decide_unpack _). vm_compute. exact I.
Defined.

Lemma scan_origin (done_ chunks : list pystr) (value : pystr) :
  scan chunks = Some value ->
  exists i chunk,
    (done_ ++ chunks) !! i = Some chunk /\
    contains PREDAL (upper chunk) = true /\
    ((exists k, value = drop k chunk /\
                forall c, head value = Some c -> in_chars MARKER_PUNCT c = false)
     \/ (exists next, (done_ ++ chunks) !! S i = Some next /\
                      value = strip next /\
                      endswith_char value COLON = false)).
Proof.
  revert done_. induction chunks as [|c chunks IH]; intros done_; [discriminate|].
  cbn [scan]. destruct (scan_chunk c chunks) as [r|] eqn:Hc.
  - intros [= ->]. exists (length done_), c.
    split; [apply list_lookup_middle; reflexivity|].
    unfold scan_chunk in Hc. destruct (contains PREDAL (upper c)); [|discriminate].
    split; [reflexivity|]. cbv zeta in Hc.
    destruct (truthy _) eqn:Ht.
    + injection Hc as <-. left.
      destruct (lstrip_by_suffix (in_chars MARKER_PUNCT)
                  (slice_from c (find (upper c) PREDAL + len PREDAL))) as [k Hk].
      unfold lstrip_chars.
      exists (Z.to_nat (find (upper c) PREDAL + len PREDAL) + k)%nat. split.
      * rewrite Hk. unfold slice_from. rewrite drop_drop. reflexivity.
      * intros d. apply lstrip_by_head.
    + destruct chunks as [|n chunks]; [discriminate|].
      destruct (truthy (strip n) && negb (endswith_char (strip n) COLON)) eqn:Hn;
        [|discriminate].
      injection Hc as <-. right. exists n.
      apply andb_true_iff in Hn as [_ Hcolon]. apply negb_true_iff in Hcolon.
      split; [|split; [reflexivity|exact Hcolon]].
      replace (S (length done_)) with (length (done_ ++ [c]))
        by (rewrite length_app; cbn; lia).
      replace (done_ ++ c :: n :: chunks) with ((done_ ++ [c]) ++ n :: chunks)
        by (rewrite <- app_assoc; reflexivity).
      apply list_lookup_middle. reflexivity.
  - intros Hv. specialize (IH (done_ ++ [c]) Hv).
    rewrite <- app_assoc in IH. exact IH.
Qed.

(** X4.  A value the field extractor returns comes from a chunk that
    contains the marker: it is the end of that chunk, starting with a
    character that is not a space, a colon or a no-break space, or it is
    the next chunk, trimmed, and then it does not end with a colon. *)
Theorem extract_value_origin (chunks : list pystr) (value : pystr) :
  desktop_app.extract_predal_from_chunks chunks = Some value ->
  exists i chunk,
    chunks !! i = Some chunk /\
    contains PREDAL (upper chunk) = true /\
    ((exists k, value = drop k chunk /\
                forall c, head value = Some c -> in_chars MARKER_PUNCT c = false)
     \/ (exists next, chunks !! S i = Some next /\
                      value = strip next /\
                      endswith_char value COLON = false)).
Proof. rewrite extract_is_scan. apply (scan_origin [] chunks value). Qed.

Lemma extract_value_origin_witness :
  exists i chunk,
    [u "ПРЕДАЛ:"; u "Иван Иванов"] !! i = Some chunk /\
    contains PREDAL (upper chunk) = true /\
    ((exists k, u "Иван Иванов" = drop k chunk /\
                forall c, head (u "Иван Иванов") = Some c ->
                          in_chars MARKER_PUNCT c = false)
     \/ (exists next, [u "ПРЕДАЛ:"; u "Иван Иванов"] !! S i = Some next /\
                      u "Иван Иванов" = strip next /\
                      endswith_char (u "Иван Иванов") COLON = false)).
Proof.
  apply (extract_value_origin [u "ПРЕДАЛ:"; u "Иван Иванов"] (u "Иван Иванов")).
  vm_compute. reflexivity.
Defined.

(** ** The ends and the length of a cleaned value *)

Section strip_ends.
Variable f : N -> bool.

Lemma lstrip_by_length (s : pystr) : (length (lstrip_by f s) <= length s)%nat.
Proof.
  induction s as [|c s IH]; [reflexivity|].
  cbn [lstrip_by]. destruct (f c); cbn [length]; lia.
Qed.

Lemma rstrip_by_length (s : pystr) : (length (rstrip_by f s) <= length s)%nat.
Proof.
  induction s as [|c s IH]; [reflexivity|].
  rewrite rstrip_by_cons. destruct (rstrip_by f s) as [|d r].
  - destruct (f c); cbn [length]; lia.
  - cbn [length] in *. lia.
Qed.

Lemma strip_by_length (s : pystr) : (length (strip_by f s) <= length s)%nat.
Proof.
  unfold strip_by. pose proof (lstrip_by_length (rstrip_by f s)).
  pose proof (rstrip_by_length s). lia.
Qed.

Lemma rstrip_by_last (s : pystr) (c : N) :
  last (rstrip_by f s) = Some c -> f c = false.
Proof.
  induction s as [|d s IH]; [discriminate|].
  rewrite rstrip_by_cons. destruct (rstrip_by f s) as [|e r].
  - destruct (f d) eqn:Hd; [discriminate|]. intros [= <-]. exact Hd.
  - intros Hl. apply IH. exact Hl.
Qed.

Lemma last_drop_some (k : nat) (s : pystr) (c : N) :
  last (drop k s) = Some c -> last s = Some c.
Proof.
  revert s. induction k as [|k IH]; intros s; [rewrite drop_0; auto|].
  destruct s as [|d s]; [discriminate|]. cbn [drop]. intros Hl.
  specialize (IH s Hl). destruct s; [discriminate|exact IH].
Qed.

Lemma strip_by_head (s : pystr) (c : N) :
  head (strip_by f s) = Some c -> f c = false.
Proof. apply lstrip_by_head. Qed.

Lemma strip_by_last (s : pystr) (c : N) :
  last (strip_by f s) = Some c -> f c = false.
Proof.
  unfold strip_by. destruct (lstrip_by_suffix f (rstrip_by f s)) as [k ->].
  intros Hl. apply last_drop_some in Hl. apply (rstrip_by_last s c Hl).
Qed.
End strip_ends.

(** X5.  A cleaned value neither starts nor ends with a space, a colon or
    a no-break space, and it is never longer than the value it was made
    from; in particular the clean-up of an empty or blank value is
    empty. *)
Theorem clean_predal_ends (value : pystr) :
  (forall c, head (desktop_app.clean_predal value) = Some c ->
             in_chars MARKER_PUNCT c = false) /\
  (forall c, last (desktop_app.clean_predal value) = Some c ->
             in_chars MARKER_PUNCT c = false) /\
  (length (desktop_app.clean_predal value) <= length value)%nat /\
  (strip value = [] -> desktop_app.clean_predal value = []).
Proof.
  unfold desktop_app.clean_predal.
  destruct (negb (truthy value)) eqn:Hv.
  - split; [discriminate|]. split; [discriminate|]. split; [cbn; lia|reflexivity].
  - cbv zeta. unfold strip_chars.
    split; [intros c; apply strip_by_head|].
    split; [intros c; apply strip_by_last|]. split.
    + etransitivity; [apply strip_by_length|].
      pose proof (strip_by_length isspace value) as Hs. fold (strip value) in Hs.
      destruct (negb (find (lower (strip value)) desktop_app.BOILERPLATE =? -1)%Z);
        [|exact Hs].
      etransitivity; [apply strip_by_length|].
      unfold slice_to, slice_from, len.
      rewrite length_app, length_take, length_drop. lia.
    + intros Hblank. rewrite Hblank. vm_compute. reflexivity.
Qed.

(** ** Spaces and decimal commas in a quantity *)

Lemma parse_quantity_text `{PyFloat F} (value : pystr) :
  desktop_app.parse_quantity value =
  if truthy (strip value)
  then float_of_str (decimal_text (remove_char 32 (strip value)))
  else None.
Proof.
  unfold desktop_app.parse_quantity, decimal_text.
  unfold desktop_app.SPACE, desktop_app.COMMA, desktop_app.DOT.
  destruct (truthy (strip value)); [|reflexivity].
  cbn [negb]. cbv zeta.
  rewrite replace_char_remove, !contains_char.
  rewrite replace_char_remove, replace_char_subst. reflexivity.
Qed.

Section strip_commutes.
Variable f : N -> bool.

Lemma lstrip_by_map (g : N -> N) (s : pystr) :
  (forall c, f (g c) = f c) ->
  lstrip_by f (map g s) = map g (lstrip_by f s).
Proof.
  intros Hg. induction s as [|c s IH]; [reflexivity|].
  cbn [map lstrip_by]. rewrite Hg. destruct (f c); [exact IH|reflexivity].
Qed.

Lemma rstrip_by_map (g : N -> N) (s : pystr) :
  (forall c, f (g c) = f c) ->
  rstrip_by f (map g s) = map g (rstrip_by f s).
Proof.
  intros Hg. induction s as [|c s IH]; [reflexivity|].
  cbn [map]. rewrite !rstrip_by_cons, IH, Hg.
  destruct (rstrip_by f s); [destruct (f c)|]; reflexivity.
Qed.

Lemma strip_by_map (g : N -> N) (s : pystr) :
  (forall c, f (g c) = f c) ->
  strip_by f (map g s) = map g (strip_by f s).
Proof.
  intros Hg. unfold strip_by. rewrite rstrip_by_map, lstrip_by_map by exact Hg.
  reflexivity.
Qed.

(** Taking out characters that [f] strips anyway. *)
Variable p : N -> bool.
Hypothesis removed_are_stripped : forall c, p c = false -> f c = true.

Lemma lstrip_by_filter (s : pystr) :
  lstrip_by f (List.filter p s) = List.filter p (lstrip_by f s).
Proof.
  induction s as [|c s IH]; [reflexivity|].
  cbn [List.filter lstrip_by]. destruct (p c) eqn:Hp.
  - cbn [lstrip_by]. destruct (f c); [exact IH|].
    cbn [List.filter]. rewrite Hp. reflexivity.
  - rewrite (removed_are_stripped c Hp). exact IH.
Qed.

Lemma rstrip_by_kept (s : pystr) :
  rstrip_by f s <> [] -> List.filter p (rstrip_by f s) <> [].
Proof.
  intros Hne. destruct (last (rstrip_by f s)) as [c|] eqn:Hl.
  - pose proof (rstrip_by_last f s c Hl) as Hc.
    assert (Hp : p c = true).
    { destruct (p c) eqn:Hp; [reflexivity|].
      rewrite (removed_are_stripped c Hp) in Hc. discriminate. }
    apply last_Some in Hl as [l' Hl]. rewrite Hl, List.filter_app.
    cbn [List.filter]. rewrite Hp. intros Habs.
    apply app_eq_nil in Habs as [_ Habs]. discriminate.
  - apply last_None in Hl. contradiction.
Qed.

Lemma rstrip_by_filter (s : pystr) :
  rstrip_by f (List.filter p s) = List.filter p (rstrip_by f s).
Proof.
  induction s as [|c s IH]; [reflexivity|].
  cbn [List.filter]. rewrite (rstrip_by_cons f c s).
  destruct (p c) eqn:Hp.
  - rewrite rstrip_by_cons, IH.
    destruct (rstrip_by f s) as [|d r] eqn:Hr.
    + cbn [List.filter]. destruct (f c); [reflexivity|].
      cbn [List.filter]. rewrite Hp. reflexivity.
    + pose proof (rstrip_by_kept s) as Hk. rewrite Hr in Hk.
      change (List.filter p (c :: d :: r)) with
        (if p c then c :: List.filter p (d :: r) else List.filter p (d :: r)).
      rewrite Hp.
      destruct (List.filter p (d :: r)); [exfalso; apply Hk; [discriminate|reflexivity]|].
      reflexivity.
  - rewrite IH. rewrite (removed_are_stripped c Hp).
    destruct (rstrip_by f s) as [|d r]; [reflexivity|].
    change (List.filter p (c :: d :: r)) with
      (if p c then c :: List.filter p (d :: r) else List.filter p (d :: r)).
    rewrite Hp. reflexivity.
Qed.

Lemma strip_by_filter (s : pystr) :
  strip_by f (List.filter p s) = List.filter p (strip_by f s).
Proof. unfold strip_by. rewrite rstrip_by_filter, lstrip_by_filter. reflexivity. Qed.
End strip_commutes.

Lemma strip_remove_spaces (s : pystr) :
  strip (remove_char 32 s) = remove_char 32 (strip s).
Proof.
  apply strip_by_filter. intros c Hc.
  apply negb_false_iff, N.eqb_eq in Hc. subst c. reflexivity.
Qed.

Lemma remove_char_idem (c : N) (s : pystr) :
  remove_char c (remove_char c s) = remove_char c s.
Proof.
  unfold remove_char. induction s as [|x s IH]; [reflexivity|].
  cbn [List.filter]. destruct (negb (x =? c)) eqn:Hx; [|exact IH].
  cbn [List.filter]. rewrite Hx, IH. reflexivity.
Qed.

Lemma truthy_remove_spaces_strip (s : pystr) :
  truthy (remove_char 32 (strip s)) = truthy (strip s).
Proof.
  destruct (strip s) as [|c t] eqn:Hs; [reflexivity|].
  assert (Hc : isspace c = false)
    by (apply (strip_by_head isspace s c); fold (strip s); rewrite Hs; reflexivity).
  unfold remove_char. cbn [List.filter].
  destruct (c =? 32) eqn:Hc32; [|reflexivity].
  apply N.eqb_eq in Hc32. subst c. discriminate.
Qed.

(** X6.  Spaces anywhere in a quantity are ignored: the quantity without
    its space characters parses to the same result. *)
Theorem parse_quantity_ignores_spaces `{PyFloat F} (value : pystr) :
  desktop_app.parse_quantity (remove_char 32 value)
  = desktop_app.parse_quantity value.
Proof.
  rewrite !parse_quantity_text, strip_remove_spaces, remove_char_idem.
  rewrite truthy_remove_spaces_strip. reflexivity.
Qed.

Lemma subst_comma_space (c : N) :
  isspace (if c =? 44 then 46 else c) = isspace c.
Proof. destruct (c =? 44) eqn:Hc; [|reflexivity]. apply N.eqb_eq in Hc. subst c. reflexivity. Qed.

Lemma has_char_filter (c : N) (p : N -> bool) (s : pystr) :
  has_char c (List.filter p s) = true -> has_char c s = true.
Proof.
  unfold has_char. rewrite !existsb_exists. intros (x & Hx & Hc).
  apply List.filter_In in Hx as [Hx _]. eauto.
Qed.

Lemma has_char_cons (c x : N) (s : pystr) :
  has_char c (x :: s) = (x =? c) || has_char c s.
Proof. reflexivity. Qed.

Lemma has_char_drop (c : N) (k : nat) (s : pystr) :
  has_char c (drop k s) = true -> has_char c s = true.
Proof.
  revert s. induction k as [|k IH]; intros s; [rewrite drop_0; auto|].
  destruct s as [|x s]; [discriminate|]. cbn [drop]. intros Hc.
  rewrite has_char_cons, (IH s Hc). apply orb_true_r.
Qed.

Lemma has_char_rstrip (f : N -> bool) (c : N) (s : pystr) :
  has_char c (rstrip_by f s) = true -> has_char c s = true.
Proof.
  induction s as [|x s IH]; [discriminate|].
  rewrite rstrip_by_cons. destruct (rstrip_by f s) as [|d r].
  - destruct (f x); [discriminate|]. rewrite !has_char_cons.
    intros Hx. apply orb_true_iff in Hx as [->|Hx]; [reflexivity|discriminate].
  - rewrite (has_char_cons c x (d :: r)), (has_char_cons c x s).
    intros Hx. apply orb_true_iff in Hx as [->|Hx]; [reflexivity|].
    rewrite (IH Hx). apply orb_true_r.
Qed.

Lemma has_char_strip (c : N) (s : pystr) :
  has_char c (strip s) = true -> has_char c s = true.
Proof.
  unfold strip, strip_by.
  destruct (lstrip_by_suffix isspace (rstrip_by isspace s)) as [k ->].
  intros Hc. apply has_char_drop in Hc. apply (has_char_rstrip _ _ _ Hc).
Qed.

Lemma subst_char_absent (c d : N) (s : pystr) :
  has_char c s = false -> subst_char c d s = s.
Proof.
  induction s as [|x s IH]; [reflexivity|].
  rewrite has_char_cons. cbn [subst_char map]. intros Hx.
  apply orb_false_iff in Hx as [Hx Hs]. rewrite Hx. f_equal. apply IH, Hs.
Qed.

Lemma has_char_subst_old (c d : N) (s : pystr) :
  c <> d -> has_char c (subst_char c d s) = false.
Proof.
  intros Hcd. induction s as [|x s IH]; [reflexivity|].
  cbn [subst_char map]. fold (subst_char c d s).
  rewrite has_char_cons, IH, orb_false_r.
  destruct (x =? c) eqn:Hx; [|exact Hx]. apply N.eqb_neq. congruence.
Qed.

Lemma subst_char_remove (s : pystr) :
  remove_char 32 (subst_char 44 46 s) = subst_char 44 46 (remove_char 32 s).
Proof.
  unfold remove_char, subst_char. induction s as [|x s IH]; [reflexivity|].
  cbn [map List.filter]. rewrite IH.
  destruct (x =? 44) eqn:H44.
  - apply N.eqb_eq in H44. subst x. reflexivity.
  - destruct (negb (x =? 32)); [cbn [map]; rewrite H44|]; reflexivity.
Qed.

(** X7.  In a quantity without a dot, a comma reads as the decimal
    point: the quantity with every comma turned into a dot parses to the
    same result. *)
Theorem parse_quantity_decimal_comma `{PyFloat F} (value : pystr) :
  has_char 46 value = false ->
  desktop_app.parse_quantity (subst_char 44 46 value)
  = desktop_app.parse_quantity value.
Proof.
  intros Hdot. rewrite !parse_quantity_text.
  assert (Hstrip : strip (subst_char 44 46 value) = subst_char 44 46 (strip value))
    by (apply strip_by_map, subst_comma_space).
  rewrite Hstrip, subst_char_remove.
  replace (truthy (subst_char 44 46 (strip value))) with (truthy (strip value))
    by (destruct (strip value); reflexivity).
  destruct (truthy (strip value)); [|reflexivity]. f_equal.
  set (text := remove_char 32 (strip value)).
  assert (Htext : has_char 46 text = false).
  { apply not_true_iff_false. intros Hc. apply has_char_filter, has_char_strip in Hc.
    congruence. }
  unfold decimal_text. rewrite Htext, andb_false_r.
  rewrite (has_char_subst_old 44 46 text) by discriminate. cbn [andb].
  destruct (has_char 44 text) eqn:Hcomma; [reflexivity|].
  apply subst_char_absent, Hcomma.
Qed.

Lemma parse_quantity_decimal_comma_witness :
  @desktop_app.parse_quantity Q decimal.numbers (u "10,5")
  = @desktop_app.parse_quantity Q decimal.numbers (u "10.5").
Proof.
  symmetry. apply (@parse_quantity_decimal_comma Q decimal.numbers (u "10,5")).
  vm_compute. reflexivity.
Defined.

(** ** The shape of a summary *)

Lemma date_columns_nonempty (rows : list desktop_app.OutputRow) :
  date_columns rows <> [].
Proof. unfold date_columns. destruct (dates_present rows); discriminate. Qed.

(** X8.  Every summary has at least one date column and 44 rows (the 40
    catalog products and the 4 brand subtotals), and every row has one
    cell per date column. *)
Theorem summary_shape `{PyFloat F} (rows : list desktop_app.OutputRow) :
  fst (desktop_app.build_summary_for_colleague rows) <> [] /\
  length (snd (desktop_app.build_summary_for_colleague rows)) = 44%nat /\
  Forall (fun r => length (snd r)
                   = length (fst (desktop_app.build_summary_for_colleague rows)))
         (snd (desktop_app.build_summary_for_colleague rows)).
Proof.
  rewrite build_summary_layout. cbn [fst snd].
  split; [apply date_columns_nonempty|]. split.
  - rewrite length_map. vm_compute. reflexivity.
  - apply Forall_forall. intros r Hr. apply list_elem_of_In, in_map_iff in Hr.
    destruct Hr as (line & <- & _).
    destruct line; cbn [render snd]; unfold product_cells, subtotal_cells;
      apply length_map.
Qed.

Lemma dates_present_perm (rows rows' : list desktop_app.OutputRow) :
  rows ≡ₚ rows' -> dates_present rows = dates_present rows'.
Proof.
  intros Hp.
  destruct (dates_present_spec rows) as (Hs & Hn & Hm).
  destruct (dates_present_spec rows') as (Hs' & Hn' & Hm').
  apply (StronglySorted_unique str_le); [exact Hs|exact Hs'|].
  apply NoDup_Permutation; [exact Hn|exact Hn'|].
  intros d. rewrite Hm, Hm'. split; intros (Hd & row & Hrow & Hdate);
    (split; [exact Hd|]); exists row; (split; [|exact Hdate]).
  - rewrite <- Hp. exact Hrow.
  - rewrite Hp. exact Hrow.
Qed.

(** X9.  The date columns of a summary do not depend on the order of the
    rows. *)
Theorem summary_columns_any_order `{PyFloat F}
    (rows rows' : list desktop_app.OutputRow) :
  rows ≡ₚ rows' ->
  fst (desktop_app.build_summary_for_colleague rows)
  = fst (desktop_app.build_summary_for_colleague rows').
Proof.
  intros Hp. rewrite !build_summary_layout. cbn [fst].
  unfold date_columns. rewrite (dates_present_perm rows rows' Hp). reflexivity.
Qed.

Lemma summary_columns_any_order_witness :
  let row d := {| desktop_app.number := []; desktop_app.predal := [];
                  desktop_app.date_str := u d; desktop_app.product := [];
                  desktop_app.qty := []; desktop_app.link := None |} in
  fst (@desktop_app.build_summary_for_colleague Q decimal.numbers
         [row "2024-02-01"; row "2024-01-15"]%string)
  = fst (@desktop_app.build_summary_for_colleague Q decimal.numbers
           [row "2024-01-15"; row "2024-02-01"]%string).
Proof.
  cbv zeta. apply (@summary_columns_any_order Q decimal.numbers).
  apply Permutation_swap.
Defined.

(** ** The groups are a partition of the rows *)

Lemma sheets_spec (rows : list desktop_app.OutputRow) :
  desktop_app.sheets rows
  = map (fun name => (name, rows_of name rows))
        (first_appearances (map desktop_app.colleague_name rows)).
Proof.
  destruct (group_rows_spec rows) as [Ho Hg]. unfold desktop_app.sheets.
  destruct (desktop_app.group_rows rows) as [colleague_order by_colleague].
  cbn [fst snd] in *. subst colleague_order. apply map_ext_in. intros name Hn.
  apply list_elem_of_In in Hn. rewrite elem_of_first_appearances in Hn.
  rewrite Hg, decide_True by exact Hn. reflexivity.
Qed.

Lemma filter_absent (a : pystr) (l : list pystr) :
  a ∉ l -> filter (fun m => m <> a) l = l.
Proof.
  induction l as [|x l IH]; [reflexivity|].
  rewrite not_elem_of_cons. intros [Hne Hl].
  rewrite filter_cons_True by congruence. rewrite IH by exact Hl. reflexivity.
Qed.

Lemma concat_split_key {A} (f : pystr -> list A) (a : pystr) (l : list pystr) :
  NoDup l ->
  concat (map f l)
  ≡ₚ (if decide (a ∈ l) then f a else []) ++ concat (map f (filter (fun m => m <> a) l)).
Proof.
  induction 1 as [|x l Hx Hnd IH]; [reflexivity|].
  cbn [map concat]. destruct (decide (x = a)) as [->|Hne].
  - rewrite decide_True by (apply elem_of_cons; auto).
    rewrite filter_cons_False by tauto. rewrite filter_absent by exact Hx.
    reflexivity.
  - rewrite filter_cons_True by exact Hne. cbn [map concat]. rewrite IH.
    destruct (decide (a ∈ l)) as [Hin|Hout].
    + rewrite decide_True by (apply elem_of_cons; auto).
      apply Permutation_app_swap_app.
    + rewrite decide_False
        by (rewrite elem_of_cons; intros [?|?]; [congruence|contradiction]).
      reflexivity.
Qed.

Lemma groups_cover_rows (rows : list desktop_app.OutputRow) :
  concat (map (fun name => rows_of name rows)
              (first_appearances (map desktop_app.colleague_name rows)))
  ≡ₚ rows.
Proof.
  induction rows as [|r rows IH]; [reflexivity|].
  cbn [map first_appearances concat].
  set (a := desktop_app.colleague_name r).
  set (names := map desktop_app.colleague_name rows) in *.
  assert (Hhead : rows_of a (r :: rows) = r :: rows_of a rows)
    by (unfold rows_of; rewrite filter_cons_True by reflexivity; reflexivity).
  rewrite Hhead.
  assert (Htail : map (fun name => rows_of name (r :: rows))
                      (filter (fun m => m <> a) (first_appearances names))
                  = map (fun name => rows_of name rows)
                      (filter (fun m => m <> a) (first_appearances names))).
  { apply map_ext_in. intros n Hn.
    apply list_elem_of_In in Hn. apply list_elem_of_filter in Hn as [Hne _].
    unfold rows_of. rewrite filter_cons_False; [reflexivity|].
    fold a. congruence. }
  rewrite Htail. cbn [app]. constructor.
  rewrite <- IH at 2.
  rewrite (concat_split_key (fun name => rows_of name rows) a
             (first_appearances names) (first_appearances_NoDup names)).
  destruct (decide (a ∈ first_appearances names)) as [Hin|Hout]; [reflexivity|].
  rewrite rows_of_absent; [reflexivity|].
  rewrite elem_of_first_appearances in Hout. exact Hout.
Qed.

(** X10.  The sheets of the workbook are a partition of the output rows:
    the names are distinct, no group is empty, and the groups together
    hold every row exactly once. *)
Theorem sheets_partition_rows (rows : list desktop_app.OutputRow) :
  NoDup (map fst (desktop_app.sheets rows)) /\
  Forall (fun sheet => snd sheet <> []) (desktop_app.sheets rows) /\
  concat (map snd (desktop_app.sheets rows)) ≡ₚ rows.
Proof.
  rewrite sheets_spec. rewrite !map_map. cbn [fst snd]. split; [|split].
  - rewrite map_id. apply first_appearances_NoDup.
  - apply Forall_forall. intros sheet Hs.
    apply list_elem_of_In, in_map_iff in Hs as (name & <- & Hn).
    apply list_elem_of_In in Hn. rewrite elem_of_first_appearances in Hn.
    change (map desktop_app.colleague_name rows)
      with (desktop_app.colleague_name <$> rows) in Hn.
    apply list_elem_of_fmap in Hn as (row & -> & Hrow).
    cbn [snd]. intros Hempty.
    assert (Hin : row ∈ rows_of (desktop_app.colleague_name row) rows)
      by (unfold rows_of; apply list_elem_of_filter; auto).
    rewrite Hempty in Hin. inversion Hin.
  - apply groups_cover_rows.
Qed.

(** ** Reading the worksheet *)

Lemma last_snoc_option {A} (l : list A) (o : option A) :
  last (l ++ match o with Some x => [x] | None => [] end)
  = match o with Some x => Some x | None => last l end.
Proof. destruct o; [apply last_snoc|rewrite app_nil_r; reflexivity]. Qed.

Lemma build_header_map_from (name : pystr) (cells : list (nat * openpyxl.Cell))
    (m : gmap pystr nat) :
  fold_left
    (fun header_map '(column, cell) =>
       match openpyxl.value cell with
       | openpyxl.VNone => header_map
       | v => <[strip (openpyxl.str v) := column]> header_map
       end) cells m !! name
  = match last_header name cells with
    | Some column => Some column
    | None => m !! name
    end.
Proof.
  revert m. induction cells as [|[column cell] cells IH] using rev_ind; intros m.
  - reflexivity.
  - rewrite fold_left_app. cbn [fold_left]. unfold last_header in *.
    rewrite omap_app. cbn [omap list_omap].
    destruct (openpyxl.value cell) as [|s|ymd text|text truth] eqn:Hv;
      try (rewrite app_nil_r; apply IH);
      match goal with
      | |- context [decide (?a = name)] =>
          destruct (decide (a = name)) as [Heq|Hne];
          [rewrite last_snoc, <- Heq; apply lookup_insert_eq
          |rewrite app_nil_r, lookup_insert_ne by exact Hne; apply IH]
      end.
Qed.

(** X11.  Looking a header name up gives the column of the last header
    cell of row 1 that has a value and whose trimmed text is the name,
    and the default column when there is none. *)
Theorem header_lookup_last_wins (ws : openpyxl.Worksheet)
    (name : pystr) (default_column : nat) :
  desktop_app.col ws name default_column
  = default default_column (last_header name (openpyxl.first_row ws)).
Proof.
  unfold desktop_app.col, desktop_app.build_header_map.
  rewrite build_header_map_from, lookup_empty.
  destruct (last_header name (openpyxl.first_row ws)); reflexivity.
Qed.

Lemma fold_left_Forall {A B} (P : A -> Prop) (step : list A -> B -> list A)
    (l : list B) (init : list A) :
  (forall acc x, Forall P acc -> Forall P (step acc x)) ->
  Forall P init -> Forall P (fold_left step l init).
Proof.
  intros Hstep. revert init. induction l as [|x l IH]; intros init Hinit; [exact Hinit|].
  cbn [fold_left]. apply IH, Hstep, Hinit.
Qed.

Lemma startswith_nonempty (s p : pystr) :
  p <> [] -> startswith s p = true -> s <> [].
Proof. intros Hp Hs ->. destruct p; [contradiction|discriminate]. Qed.

Lemma link_of_cell_nonempty (number_cell : openpyxl.Cell) (l : pystr) :
  desktop_app.link_of_cell number_cell = Some l -> l <> [].
Proof.
  unfold desktop_app.link_of_cell.
  assert (Hvalue :
            match openpyxl.value number_cell with
            | openpyxl.VStr s => if startswith s desktop_app.HTTP then Some s else None
            | _ => None
            end = Some l -> l <> []).
  { destruct (openpyxl.value number_cell) as [|s| |]; try discriminate.
    destruct (startswith s desktop_app.HTTP) eqn:Hs; [|discriminate].
    intros [= <-]. apply (startswith_nonempty s desktop_app.HTTP); [discriminate|exact Hs]. }
  destruct (openpyxl.hyperlink number_cell) as [h|]; [|exact Hvalue].
  destruct (openpyxl.target h) as [t|]; [|exact Hvalue].
  destruct (truthy t) eqn:Ht; [|exact Hvalue].
  intros [= <-]. apply truthy_nonempty, Ht.
Qed.

Lemma load_row_cases (ws : openpyxl.Worksheet)
    (client_prefix number_header client_header date_header product_header
     quantity_header : pystr) (rows : list desktop_app.ReceiptRow) (r : nat) :
  let rows' :=
    desktop_app.load_row ws client_prefix number_header client_header
      date_header product_header quantity_header rows r in
  rows' = rows \/
  exists row,
    rows' = rows ++ [row] /\
    startswith (lower (desktop_app.r_client row)) (lower (strip client_prefix)) = true /\
    strip (desktop_app.r_client row) = desktop_app.r_client row /\
    forall l, desktop_app.r_link row = Some l -> l <> [].
Proof.
  unfold desktop_app.load_row. cbv zeta.
  destruct (openpyxl.value (openpyxl.cell ws r (desktop_app.col ws client_header 4)))
    as [|s|ymd text|text truth]; [left; reflexivity|..];
    (match goal with
     | |- context [negb (startswith ?a ?b)] => destruct (startswith a b) eqn:Hsw
     end; cbn [negb]; [|left; reflexivity]);
    (destruct (openpyxl.value (openpyxl.cell ws r (desktop_app.col ws number_header 2)));
     [left; reflexivity|..]);
    right; eexists; (split; [reflexivity|]); cbn;
    (split; [exact Hsw|]); (split; [apply strip_idem|]);
    intros l; apply link_of_cell_nonempty.
Qed.

Lemma loaded_rows_facts (ws : openpyxl.Worksheet)
    (client_prefix number_header client_header date_header product_header
     quantity_header : pystr) :
  Forall (fun row =>
            startswith (lower (desktop_app.r_client row))
              (lower (strip client_prefix)) = true /\
            strip (desktop_app.r_client row) = desktop_app.r_client row /\
            forall l, desktop_app.r_link row = Some l -> l <> [])
         (desktop_app.load_rows ws client_prefix number_header client_header
            date_header product_header quantity_header).
Proof.
  unfold desktop_app.load_rows. apply fold_left_Forall; [|constructor].
  intros rows r Hrows.
  destruct (load_row_cases ws client_prefix number_header client_header
              date_header product_header quantity_header rows r)
    as [->|(row & -> & Hrow)]; [exact Hrows|].
  apply Forall_app. split; [exact Hrows|]. constructor; [exact Hrow|constructor].
Qed.

(** X12.  Every row [load_rows] returns has a client that, trimmed and
    lower-cased, starts with the trimmed and lower-cased prefix; the
    client is stored trimmed; and a link, when the row has one, is not
    empty. *)
Theorem load_rows_keeps_prefix (ws : openpyxl.Worksheet)
    (client_prefix number_header client_header date_header product_header
     quantity_header : pystr) :
  Forall (fun row =>
            startswith (lower (desktop_app.r_client row))
              (lower (strip client_prefix)) = true /\
            strip (desktop_app.r_client row) = desktop_app.r_client row /\
            forall l, desktop_app.r_link row = Some l -> l <> [])
         (desktop_app.load_rows ws client_prefix number_header client_header
            date_header product_header quantity_header).
Proof. apply loaded_rows_facts. Qed.

(** X13.  [Worker.run] on the rows [load_rows] returns: a link is
    requested exactly once if a loaded row carries it, and never
    otherwise. *)
Theorem loaded_links_fetched_once (ws : openpyxl.Worksheet)
    (client_prefix number_header client_header date_header product_header
     quantity_header : pystr)
    (fetch_html : nat -> pystr -> fetch_outcome)
    (html_to_chunks : pystr -> list pystr) :
  let rows :=
    desktop_app.load_rows ws client_prefix number_header client_header
      date_header product_header quantity_header in
  let st := fst (desktop_app.run fetch_html html_to_chunks rows) in
  (forall l,
      l ∈ desktop_app.requests st <->
      exists row, row ∈ rows /\ desktop_app.r_link row = Some l) /\
  (forall l,
      (exists row, row ∈ rows /\ desktop_app.r_link row = Some l) ->
      count_occ (fun x y : pystr => decide (x = y)) (desktop_app.requests st) l
      = 1%nat).
Proof.
  cbv zeta.
  pose proof (loaded_rows_facts ws client_prefix number_header client_header
                date_header product_header quantity_header) as Hloaded.
  rewrite Forall_forall in Hloaded.
  destruct (run_invariant_holds fetch_html html_to_chunks
              (desktop_app.load_rows ws client_prefix number_header client_header
                 date_header product_header quantity_header))
    as (_ & Hnd & _ & Hreq & _).
  assert (Hiff : forall l,
             l ∈ desktop_app.requests
                   (fst (desktop_app.run fetch_html html_to_chunks
                           (desktop_app.load_rows ws client_prefix number_header
                              client_header date_header product_header
                              quantity_header))) <->
             exists row,
               row ∈ desktop_app.load_rows ws client_prefix number_header
                       client_header date_header product_header quantity_header /\
               desktop_app.r_link row = Some l).
  { intros l. rewrite Hreq. split.
    - intros (_ & row & Hrow & Hl). eauto.
    - intros (row & Hrow & Hl). split; [|eauto].
      destruct (Hloaded row Hrow) as (_ & _ & Hne). apply (Hne l Hl). }
  split; [exact Hiff|].
  intros l Hl. apply requested_once; [exact Hnd|]. apply Hiff, Hl.
Qed.

(** ** Reading the links ([load_links]) *)

Lemma fold_left_invariant {A B} (I : A -> Prop) (step : A -> B -> A)
    (l : list B) (init : A) :
  (forall acc x, I acc -> I (step acc x)) -> I init -> I (fold_left step l init).
Proof.
  intros Hstep. revert init. induction l as [|x l IH]; intros init Hinit; [exact Hinit|].
  cbn [fold_left]. apply IH, Hstep, Hinit.
Qed.

Lemma load_links_link_nonempty (cell : openpyxl.Cell) (l : pystr) :
  extract_predal.link_of_cell cell = Some l -> l <> [].
Proof. exact (link_of_cell_nonempty cell l). Qed.

(** X14.  The documents [load_links] returns have distinct numbers, each
    non-empty and trimmed, and each with a link that is not empty. *)
Theorem load_links_distinct (ws : openpyxl.Worksheet) (number_header : pystr) :
  NoDup (map fst (extract_predal.load_links ws number_header)) /\
  Forall (fun item => fst item <> [] /\ strip (fst item) = fst item /\ snd item <> [])
         (extract_predal.load_links ws number_header).
Proof.
  unfold extract_predal.load_links.
  assert (Hinv :
            let acc := fold_left (extract_predal.load_link ws number_header)
                         (openpyxl.data_rows ws) (∅, []) in
            (forall d, d ∈ fst acc <-> d ∈ map fst (snd acc)) /\
            NoDup (map fst (snd acc)) /\
            Forall (fun item => fst item <> [] /\ strip (fst item) = fst item
                                /\ snd item <> []) (snd acc)).
  { apply (fold_left_invariant
             (fun acc : gset pystr * list (pystr * pystr) =>
                (forall d, d ∈ fst acc <-> d ∈ map fst (snd acc)) /\
                NoDup (map fst (snd acc)) /\
                Forall (fun item => fst item <> [] /\ strip (fst item) = fst item
                                    /\ snd item <> []) (snd acc))).
    - intros [seen results] row (Hseen & Hnd & Hall). cbn [fst snd] in *.
      unfold extract_predal.load_link.
      set (cell := openpyxl.cell ws row _).
      assert (Hsame : (forall d, d ∈ seen <-> d ∈ map fst results) /\
                      NoDup (map fst results) /\
                      Forall (fun item => fst item <> [] /\ strip (fst item) = fst item
                                          /\ snd item <> []) results)
        by auto.
      assert (Hstep : forall text,
                 let doc_number := strip text in
                 let acc' :=
                   if negb (truthy doc_number) || bool_decide (doc_number ∈ seen)
                   then (seen, results)
                   else match extract_predal.link_of_cell cell with
                        | Some link =>
                            if truthy link
                            then (seen ∪ {[doc_number]}, results ++ [(doc_number, link)])
                            else (seen, results)
                        | None => (seen, results)
                        end in
                 (forall d, d ∈ fst acc' <-> d ∈ map fst (snd acc')) /\
                 NoDup (map fst (snd acc')) /\
                 Forall (fun item => fst item <> [] /\ strip (fst item) = fst item
                                     /\ snd item <> []) (snd acc')).
      { intros text. cbv zeta.
        destruct (truthy (strip text)) eqn:Hdoc; cbn [negb orb]; [|exact Hsame].
        destruct (bool_decide (strip text ∈ seen)) eqn:Hin; [exact Hsame|].
        apply bool_decide_eq_false_1 in Hin.
        destruct (extract_predal.link_of_cell cell) as [link|] eqn:Hlink; [|exact Hsame].
        destruct (truthy link) eqn:Ht; [|exact Hsame].
        cbn [fst snd]. rewrite map_app. cbn [map fst]. split; [|split].
        - intros d. rewrite elem_of_union, elem_of_singleton, elem_of_app,
            list_elem_of_singleton, Hseen. reflexivity.
        - apply NoDup_app. split; [exact Hnd|]. split; [|apply NoDup_singleton].
          intros d Hd Hd'. apply list_elem_of_singleton in Hd'. subst d.
          apply Hin, Hseen, Hd.
        - apply Forall_app. split; [exact Hall|]. constructor; [|constructor].
          cbn [fst snd]. split; [apply truthy_nonempty, Hdoc|].
          split; [apply strip_idem|apply truthy_nonempty, Ht]. }
      destruct (openpyxl.value cell) as [|s|ymd text|text truth]; [exact Hsame|..];
        apply Hstep.
    - cbn. split; [|split; constructor].
      intros d. split; intros Hd; inversion Hd. }
  cbv zeta in Hinv. destruct Hinv as (_ & Hnd & Hall). split; assumption.
Qed.

(** ** The loop of [app.py] *)

Section app_invariants.
Context (fetch_html : nat -> pystr -> fetch_outcome).
Context (html_to_chunks : pystr -> list pystr).
Context (fetch_predal : bool).

Local Abbreviation app_row := (app_main.main_row fetch_html html_to_chunks fetch_predal).
Local Abbreviation app_run := (app_main.main fetch_html html_to_chunks fetch_predal).
Local Abbreviation app_stored := (app_stored_value html_to_chunks).
Local Abbreviation key := (app_key fetch_predal).

Lemma app_or_empty_id (s : pystr) : app_main.or_empty s = s.
Proof. destruct s; reflexivity. Qed.

Lemma app_row_cases (st : app_main.main_state) (row : desktop_app.ReceiptRow) :
  let '(st', o) := app_row st row in
  exists predal,
    o = (desktop_app.r_number row, predal, desktop_app.r_date row,
         desktop_app.r_product row, desktop_app.r_qty row) /\
    ((st' = st /\
      match key row with
      | Some l => app_main.url_cache st !! l = Some predal
      | None => predal = []
      end)
     \/
     (exists l, key row = Some l /\
                app_main.url_cache st !! l = None /\
                predal = app_stored (fetch_html (length (app_main.requests st)) l) /\
                st' = {| app_main.url_cache :=
                           <[l := predal]> (app_main.url_cache st);
                         app_main.requests := app_main.requests st ++ [l] |})).
Proof.
  unfold app_main.main_row, app_key.
  destruct (desktop_app.r_link row) as [l|].
  - destruct (fetch_predal && truthy l).
    + destruct (app_main.url_cache st !! l) as [cached|] eqn:Hc.
      * exists cached. rewrite app_or_empty_id. split; [reflexivity|].
        left. split; reflexivity.
      * destruct (fetch_html (length (app_main.requests st)) l)
          as [html content_type|] eqn:Hf;
          eexists; (split; [reflexivity|]); right; exists l;
          (split; [reflexivity|]); (split; [exact Hc|]);
          rewrite Hf; cbn [app_stored_value]; split; reflexivity.
    + exists []. split; [reflexivity|]. left. split; reflexivity.
  - exists []. split; [reflexivity|]. left. split; reflexivity.
Qed.

Lemma app_snoc (rows : list desktop_app.ReceiptRow) (row : desktop_app.ReceiptRow) :
  app_run (rows ++ [row]) =
  let '(st', o) := app_row (fst (app_run rows)) row in
  (st', snd (app_run rows) ++ [o]).
Proof. unfold app_main.main. rewrite fold_left_app. reflexivity. Qed.

Lemma app_invariant_holds (rows : list desktop_app.ReceiptRow) :
  app_invariant fetch_html html_to_chunks fetch_predal rows
    (fst (app_run rows)) (snd (app_run rows)).
Proof.
  induction rows as [|row rows IH] using rev_ind.
  - unfold app_invariant. cbn.
    split; [constructor|]. split; [constructor|].
    split; [|split].
    + intros l. rewrite lookup_empty. split; [intros Hl; inversion Hl|].
      intros [? [=]].
    + intros l. split; [intros Hl; inversion Hl|].
      intros (row & Hrow & _). inversion Hrow.
    + intros n l Hn. rewrite lookup_nil in Hn. discriminate.
  - rewrite app_snoc.
    pose proof (app_row_cases (fst (app_run rows)) row) as Hcase.
    destruct (app_row (fst (app_run rows)) row) as [st' o].
    destruct IH as (Ha & Hb & Hc & Hd & He).
    destruct Hcase as (predal & -> & [(-> & Hhit)|(l & Hl & Hmiss & Hp & ->)]);
      cbn [fst snd].
    + (* nothing requested *)
      split; [|split; [exact Hb|split; [exact Hc|split; [|exact He]]]].
      * apply Forall2_app; [exact Ha|]. constructor; [|constructor].
        exists predal. split; [reflexivity|exact Hhit].
      * intros l. split.
        -- intros Hin. apply Hd in Hin as (r & Hr & Hrl).
           exists r. split; [apply elem_of_app; auto|exact Hrl].
        -- intros (r & Hr & Hrl). apply elem_of_app in Hr as [Hr|Hr].
           ++ apply Hd. exists r. auto.
           ++ apply list_elem_of_singleton in Hr. subst r.
              rewrite Hrl in Hhit. apply Hc. rewrite Hhit. eauto.
    + (* one request *)
      assert (Hfresh : l ∉ app_main.requests (fst (app_run rows))).
      { intros Hin. apply Hc in Hin. rewrite Hmiss in Hin.
        destruct Hin. discriminate. }
      split; [|split; [|split; [|split]]];
        cbn [app_main.url_cache app_main.requests].
      * apply Forall2_app.
        -- eapply Forall2_impl; [exact Ha|]. intros r o' (p' & Ho & Hk).
           exists p'. split; [exact Ho|].
           destruct (key r) as [k|]; [|exact Hk].
           rewrite lookup_insert_ne; [exact Hk|].
           intros <-. rewrite Hmiss in Hk. discriminate.
        -- constructor; [|constructor]. exists predal. split; [reflexivity|].
           rewrite Hl. apply lookup_insert_eq.
      * apply NoDup_app. split; [exact Hb|]. split; [|apply NoDup_singleton].
        intros x Hx Hxl. apply list_elem_of_singleton in Hxl. subst x. contradiction.
      * intros l'. rewrite elem_of_app, list_elem_of_singleton.
        destruct (decide (l = l')) as [<-|Hll].
        -- rewrite lookup_insert_eq. split; [eauto|auto].
        -- rewrite lookup_insert_ne by exact Hll. rewrite <- Hc.
           split; [intros [?|?]; [assumption|congruence]|auto].
      * intros l'. rewrite elem_of_app, list_elem_of_singleton. split.
        -- intros [Hin| ->].
           ++ apply Hd in Hin as (r & Hr & Hrl).
              exists r. split; [apply elem_of_app; auto|exact Hrl].
           ++ exists row.
              split; [apply elem_of_app; right; apply list_elem_of_singleton; reflexivity
                     |exact Hl].
        -- intros (r & Hr & Hrl). apply elem_of_app in Hr as [Hr|Hr].
           ++ left. apply Hd. exists r. auto.
           ++ apply list_elem_of_singleton in Hr. subst r. right. congruence.
      * intros n l' Hn.
        destruct (decide (n < length (app_main.requests (fst (app_run rows))))%nat)
          as [Hlt|Hge].
        -- rewrite lookup_app_l in Hn by exact Hlt.
           assert (Hll : l <> l').
           { intros <-. apply Hfresh. apply list_elem_of_lookup. eauto. }
           rewrite lookup_insert_ne by exact Hll. apply He, Hn.
        -- rewrite lookup_app_r in Hn by lia.
           destruct (n - length (app_main.requests (fst (app_run rows))))%nat
             as [|k] eqn:Hk; [|destruct k; discriminate Hn].
           injection Hn as <-.
           assert (n = length (app_main.requests (fst (app_run rows)))) as -> by lia.
           rewrite lookup_insert_eq, Hp. reflexivity.
Qed.
End app_invariants.

Lemma app_key_spec (fetch_predal : bool) (row : desktop_app.ReceiptRow) (l : pystr) :
  app_key fetch_predal row = Some l <->
  fetch_predal = true /\ l <> [] /\ desktop_app.r_link row = Some l.
Proof.
  unfold app_key. destruct (desktop_app.r_link row) as [k|].
  - destruct fetch_predal; cbn [andb].
    + destruct (truthy k) eqn:Hk.
      * apply truthy_nonempty in Hk. split.
        -- intros [= <-]. auto.
        -- intros (_ & _ & [= <-]). reflexivity.
      * split; [discriminate|]. intros (_ & Hne & [= <-]).
        apply truthy_nonempty in Hne. congruence.
    + split; [discriminate|]. intros ([=] & _).
  - split; [discriminate|]. intros (_ & _ & [=]).
Qed.

(** X15.  In the loop of [app.py], whatever the network answers: every
    row gets its output tuple; with the check box on, a non-empty link is
    requested exactly once if some row carries it, rows with the same
    link get the same value, and a request that raised leaves the empty
    value for its link; with the check box off, nothing is requested and
    every value is empty. *)
Theorem app_links_fetched_once
    (fetch_html : nat -> pystr -> fetch_outcome)
    (html_to_chunks : pystr -> list pystr) (fetch_predal : bool)
    (rows : list desktop_app.ReceiptRow) :
  let st := fst (app_main.main fetch_html html_to_chunks fetch_predal rows) in
  let out := snd (app_main.main fetch_html html_to_chunks fetch_predal rows) in
  length out = length rows /\
  (forall l,
      l ∈ app_main.requests st <->
      fetch_predal = true /\ l <> [] /\
      exists row, row ∈ rows /\ desktop_app.r_link row = Some l) /\
  (forall l,
      l ∈ app_main.requests st ->
      count_occ (fun x y : pystr => decide (x = y)) (app_main.requests st) l = 1%nat) /\
  (forall i j ri rj oi oj,
      rows !! i = Some ri -> rows !! j = Some rj ->
      out !! i = Some oi -> out !! j = Some oj ->
      desktop_app.r_link ri = desktop_app.r_link rj ->
      snd (fst (fst (fst oi))) = snd (fst (fst (fst oj)))) /\
  (forall n l,
      app_main.requests st !! n = Some l -> fetch_html n l = Raised ->
      forall i ri oi,
        rows !! i = Some ri -> out !! i = Some oi ->
        desktop_app.r_link ri = Some l -> snd (fst (fst (fst oi))) = []) /\
  (fetch_predal = false ->
   app_main.requests st = [] /\
   Forall (fun o => snd (fst (fst (fst o))) = []) out).
Proof.
  cbv zeta.
  destruct (app_invariant_holds fetch_html html_to_chunks fetch_predal rows)
    as (Ha & Hb & Hc & Hd & He).
  assert (Hreq : forall l,
             l ∈ app_main.requests
                   (fst (app_main.main fetch_html html_to_chunks fetch_predal rows)) <->
             fetch_predal = true /\ l <> [] /\
             exists row, row ∈ rows /\ desktop_app.r_link row = Some l).
  { intros l. rewrite Hd. split.
    - intros (row & Hrow & Hk). apply app_key_spec in Hk as (Hf & Hne & Hl). eauto.
    - intros (Hf & Hne & row & Hrow & Hl). exists row. split; [exact Hrow|].
      apply app_key_spec. auto. }
  split; [symmetry; apply (Forall2_length _ _ _ Ha)|].
  split; [exact Hreq|]. split; [intros l; apply requested_once, Hb|].
  split; [|split].
  - intros i j ri rj oi oj Hi Hj Hoi Hoj Hlink.
    destruct (Forall2_lookup_lr _ _ _ _ _ _ Ha Hi Hoi) as (pi & -> & Hpi).
    destruct (Forall2_lookup_lr _ _ _ _ _ _ Ha Hj Hoj) as (pj & -> & Hpj).
    cbn [fst snd]. unfold app_key in Hpi, Hpj. rewrite Hlink in Hpi.
    destruct (desktop_app.r_link rj) as [l|]; [|congruence].
    destruct (fetch_predal && truthy l); congruence.
  - intros n l Hn Hraised i ri oi Hi Hoi Hl.
    pose proof (He n l Hn) as Hcache. rewrite Hraised in Hcache.
    cbn [app_stored_value] in Hcache.
    destruct (Forall2_lookup_lr _ _ _ _ _ _ Ha Hi Hoi) as (p & -> & Hp).
    cbn [fst snd]. unfold app_key in Hp. rewrite Hl in Hp.
    destruct (fetch_predal && truthy l); congruence.
  - intros Hoff. split.
    + assert (Hnone : forall l,
                 l ∉ app_main.requests
                       (fst (app_main.main fetch_html html_to_chunks fetch_predal rows))).
      { intros l Hin. apply Hreq in Hin as (Hon & _). congruence. }
      destruct (app_main.requests
                  (fst (app_main.main fetch_html html_to_chunks fetch_predal rows)))
        as [|l ls]; [reflexivity|].
      exfalso. apply (Hnone l). apply elem_of_cons. auto.
    + apply Forall_forall. intros o Ho.
      apply list_elem_of_lookup in Ho as [i Hi].
      destruct (Forall2_lookup_r _ _ _ _ _ Ha Hi) as (row & _ & p & -> & Hp).
      cbn [fst snd]. unfold app_key in Hp. rewrite Hoff in Hp.
      destruct (desktop_app.r_link row); exact Hp.
Qed.

(** ** The entry points agree *)

Lemma lagardere_or_empty (predal : option pystr) :
  lagardere_table_main.or_empty predal = default [] predal.
Proof. destruct predal as [[|c s]|]; reflexivity. Qed.

Section agreement.
Context (fetch_html : nat -> pystr -> fetch_outcome).
Context (html_to_chunks : pystr -> list pystr).

Local Abbreviation table_row := (lagardere_table_main.main_row fetch_html html_to_chunks).
Local Abbreviation app_row := (app_main.main_row fetch_html html_to_chunks true).
Local Abbreviation desk_row := (desktop_app.run_row fetch_html html_to_chunks).

Lemma table_app_step (stL : lagardere_table_main.main_state)
    (stA : app_main.main_state) (row : desktop_app.ReceiptRow) :
  lagardere_table_main.requests stL = app_main.requests stA ->
  (forall l, app_main.url_cache stA !! l
             = default [] <$> lagardere_table_main.url_cache stL !! l) ->
  lagardere_table_main.requests (fst (table_row stL row))
  = app_main.requests (fst (app_row stA row)) /\
  (forall l, app_main.url_cache (fst (app_row stA row)) !! l
             = default [] <$> lagardere_table_main.url_cache (fst (table_row stL row)) !! l) /\
  snd (table_row stL row) = snd (app_row stA row).
Proof.
  intros Hreq Hcache.
  unfold lagardere_table_main.main_row, app_main.main_row.
  destruct (desktop_app.r_link row) as [l|]; [|auto].
  cbn [andb]. destruct (truthy l); [|auto].
  rewrite (Hcache l), <- Hreq.
  destruct (lagardere_table_main.url_cache stL !! l) as [cached|] eqn:Hl;
    cbn [fmap option_fmap option_map].
  - cbn [fst snd]. split; [exact Hreq|]. split; [exact Hcache|].
    rewrite lagardere_or_empty, app_or_empty_id. reflexivity.
  - destruct (fetch_html (length (lagardere_table_main.requests stL)) l)
      as [html content_type|]; cbn [fst snd lagardere_table_main.requests
                                     app_main.requests lagardere_table_main.url_cache
                                     app_main.url_cache].
    + split; [rewrite Hreq; reflexivity|]. split.
      * intros k. destruct (decide (l = k)) as [<-|Hne].
        -- rewrite !lookup_insert_eq. cbn. destruct (contains _ _); reflexivity.
        -- rewrite !lookup_insert_ne by exact Hne. apply Hcache.
      * rewrite lagardere_or_empty. destruct (contains _ _); reflexivity.
    + split; [rewrite Hreq; reflexivity|]. split; [|reflexivity].
      intros k. destruct (decide (l = k)) as [<-|Hne].
      * rewrite !lookup_insert_eq. reflexivity.
      * rewrite !lookup_insert_ne by exact Hne. apply Hcache.
Qed.

Lemma table_loop_step (st : lagardere_table_main.main_state)
    (out : list (pystr * pystr * pystr * pystr * pystr))
    (row : desktop_app.ReceiptRow) :
  lagardere_table_main.main_loop fetch_html html_to_chunks (st, out) row
  = (fst (table_row st row), out ++ [snd (table_row st row)]).
Proof.
  unfold lagardere_table_main.main_loop. cbn [fst snd].
  destruct (table_row st row). reflexivity.
Qed.

Lemma app_loop_step (fetch_predal : bool) (st : app_main.main_state)
    (out : list (pystr * pystr * pystr * pystr * pystr))
    (row : desktop_app.ReceiptRow) :
  app_main.main_loop fetch_html html_to_chunks fetch_predal (st, out) row
  = (fst (app_main.main_row fetch_html html_to_chunks fetch_predal st row),
     out ++ [snd (app_main.main_row fetch_html html_to_chunks fetch_predal st row)]).
Proof.
  unfold app_main.main_loop. cbn [fst snd].
  destruct (app_main.main_row fetch_html html_to_chunks fetch_predal st row).
  reflexivity.
Qed.

Lemma table_app_fold (rows : list desktop_app.ReceiptRow)
    (stL : lagardere_table_main.main_state) (stA : app_main.main_state)
    (out : list (pystr * pystr * pystr * pystr * pystr)) :
  lagardere_table_main.requests stL = app_main.requests stA ->
  (forall l, app_main.url_cache stA !! l
             = default [] <$> lagardere_table_main.url_cache stL !! l) ->
  let resL := fold_left (lagardere_table_main.main_loop fetch_html html_to_chunks)
                rows (stL, out) in
  let resA := fold_left (app_main.main_loop fetch_html html_to_chunks true)
                rows (stA, out) in
  lagardere_table_main.requests (fst resL) = app_main.requests (fst resA) /\
  snd resL = snd resA.
Proof.
  revert stL stA out. induction rows as [|row rows IH]; intros stL stA out Hreq Hcache.
  - cbn. auto.
  - cbn [fold_left]. rewrite table_loop_step, app_loop_step.
    destruct (table_app_step stL stA row Hreq Hcache) as (Hreq' & Hcache' & Hout).
    rewrite Hout. apply IH; assumption.
Qed.
End agreement.

(** X16.  On the same rows and with the same answers of the network,
    [lagardere_table.py] and [app.py] (its check box on) make the same
    requests in the same order and produce the same output tuples. *)
Theorem table_and_app_agree
    (fetch_html : nat -> pystr -> fetch_outcome)
    (html_to_chunks : pystr -> list pystr)
    (rows : list desktop_app.ReceiptRow) :
  lagardere_table_main.requests
    (fst (lagardere_table_main.main fetch_html html_to_chunks rows))
  = app_main.requests (fst (app_main.main fetch_html html_to_chunks true rows)) /\
  snd (lagardere_table_main.main fetch_html html_to_chunks rows)
  = snd (app_main.main fetch_html html_to_chunks true rows).
Proof.
  apply (table_app_fold fetch_html html_to_chunks rows
           {| lagardere_table_main.url_cache := ∅; lagardere_table_main.requests := [] |}
           {| app_main.url_cache := ∅; app_main.requests := [] |} []).
  - reflexivity.
  - intros l. cbn. rewrite !lookup_empty. reflexivity.
Qed.

Section desktop_and_app.
Context (fetch_html : nat -> pystr -> fetch_outcome).
Context (html_to_chunks : pystr -> list pystr).

Local Abbreviation app_row := (app_main.main_row fetch_html html_to_chunks true).
Local Abbreviation desk_row := (desktop_app.run_row fetch_html html_to_chunks).
Local Abbreviation app_run := (app_main.main fetch_html html_to_chunks true).
Local Abbreviation desk_run := (desktop_app.run fetch_html html_to_chunks).

Lemma desktop_app_step (stD : desktop_app.run_state)
    (stA : app_main.main_state) (row : desktop_app.ReceiptRow) :
  desktop_app.requests stD = app_main.requests stA ->
  (forall l, desktop_app.url_cache stD !! l
             = desktop_app.clean_predal <$> app_main.url_cache stA !! l) ->
  desktop_app.requests (fst (desk_row stD row))
  = app_main.requests (fst (app_row stA row)) /\
  (forall l, desktop_app.url_cache (fst (desk_row stD row)) !! l
             = desktop_app.clean_predal <$> app_main.url_cache (fst (app_row stA row)) !! l) /\
  snd (desk_row stD row) = cleaned_row row (snd (app_row stA row)).
Proof.
  intros Hreq Hcache.
  unfold desktop_app.run_row, app_main.main_row.
  destruct (desktop_app.r_link row) as [l|] eqn:Hl;
    [|cbn [fst snd cleaned_row]; rewrite Hl; auto].
  cbn [andb]. destruct (truthy l);
    [|cbn [fst snd cleaned_row]; rewrite Hl; auto].
  rewrite (Hcache l), Hreq.
  destruct (app_main.url_cache stA !! l) as [cached|];
    cbn [fmap option_fmap option_map].
  - cbn [fst snd cleaned_row]. rewrite Hl. split; [exact Hreq|]. split; [exact Hcache|].
    rewrite or_empty_id, app_or_empty_id. reflexivity.
  - destruct (fetch_html (length (app_main.requests stA)) l)
      as [html content_type|];
      cbn [fst snd cleaned_row desktop_app.requests app_main.requests
             desktop_app.url_cache app_main.url_cache]; rewrite Hl.
    + split; [reflexivity|]. split; [|reflexivity].
      intros k. destruct (decide (l = k)) as [<-|Hne].
      * rewrite !lookup_insert_eq. reflexivity.
      * rewrite !lookup_insert_ne by exact Hne. apply Hcache.
    + split; [reflexivity|]. split; [|reflexivity].
      intros k. destruct (decide (l = k)) as [<-|Hne].
      * rewrite !lookup_insert_eq. reflexivity.
      * rewrite !lookup_insert_ne by exact Hne. apply Hcache.
Qed.

Lemma desktop_app_runs (rows : list desktop_app.ReceiptRow) :
  desktop_app.requests (fst (desk_run rows)) = app_main.requests (fst (app_run rows)) /\
  (forall l, desktop_app.url_cache (fst (desk_run rows)) !! l
             = desktop_app.clean_predal <$> app_main.url_cache (fst (app_run rows)) !! l) /\
  length (snd (app_run rows)) = length rows /\
  snd (desk_run rows) = zip_with cleaned_row rows (snd (app_run rows)).
Proof.
  induction rows as [|row rows (Hreq & Hcache & Hlen & Hout)] using rev_ind.
  - cbn. split; [reflexivity|]. split; [|split; reflexivity].
    intros l. rewrite !lookup_empty. reflexivity.
  - rewrite run_snoc, app_snoc.
    destruct (desktop_app_step (fst (desk_run rows)) (fst (app_run rows)) row Hreq Hcache)
      as (Hreq' & Hcache' & Hrow).
    destruct (desk_row (fst (desk_run rows)) row) as [stD' oD].
    destruct (app_row (fst (app_run rows)) row) as [stA' oA].
    cbn [fst snd] in *. split; [exact Hreq'|]. split; [exact Hcache'|].
    split; [rewrite !length_app, Hlen; reflexivity|].
    rewrite zip_with_app by (symmetry; exact Hlen).
    rewrite Hout, Hrow. reflexivity.
Qed.
End desktop_and_app.

(** X17.  On the same rows and with the same answers of the network,
    [desktop_app.py] makes the requests [app.py] makes, and its output
    rows are those of [app.py] with the responsible person passed through
    [clean_predal] (and the link of the row kept). *)
Theorem desktop_is_cleaned_app
    (fetch_html : nat -> pystr -> fetch_outcome)
    (html_to_chunks : pystr -> list pystr)
    (rows : list desktop_app.ReceiptRow) :
  desktop_app.requests (fst (desktop_app.run fetch_html html_to_chunks rows))
  = app_main.requests (fst (app_main.main fetch_html html_to_chunks true rows)) /\
  snd (desktop_app.run fetch_html html_to_chunks rows)
  = zip_with cleaned_row rows
      (snd (app_main.main fetch_html html_to_chunks true rows)).
Proof.
  destruct (desktop_app_runs fetch_html html_to_chunks rows) as (Hreq & _ & _ & Hout).
  split; assumption.
Qed.

Example safe_title_examples :
  desktop_app.sheet_titles ∅ [u "Иван: Петров"; u "Иван/ Петров"; u "  "; u "Иван* Петров"]
  = Some [u "Иван_ Петров"; u "Иван_ Петров 2"; desktop_app.UNKNOWN; u "Иван_ Петров 3"] /\
  desktop_app.str_int 0 = u "0" /\ desktop_app.str_int 1234567890 = u "1234567890".
Proof. vm_compute. repeat split. Qed.

(** ** Sheet titles *)

Lemma digits_from_value (fuel : nat) (n : N) :
  n < 2 ^ N.of_nat fuel ->
  digits_value (desktop_app.digits_from fuel n) = n.
Proof.
  revert n. induction fuel as [|fuel IH]; intros n Hn.
  - cbn in Hn. assert (n = 0) as -> by lia. reflexivity.
  - cbn [desktop_app.digits_from digits_value].
    rewrite (N.add_comm 48), N.add_sub.
    destruct (n <? 10) eqn:Hlt.
    + apply N.ltb_lt in Hlt. cbn [digits_value].
      rewrite N.mod_small by exact Hlt. lia.
    + apply N.ltb_ge in Hlt. rewrite IH.
      * pose proof (N.div_mod' n 10). lia.
      * apply N.Div0.div_lt_upper_bound.
        rewrite Nat2N.inj_succ, N.pow_succ_r' in Hn. lia.
Qed.

Lemma size_nat_bound (n : N) : n < 2 ^ N.of_nat (S (N.size_nat n)).
Proof.
  destruct n as [|p]; [cbn; lia|].
  cbn [N.size_nat]. rewrite Nat2N.inj_succ, N.pow_succ_r'.
  assert (Hp : N.pos p < 2 ^ N.of_nat (Pos.size_nat p)).
  { induction p as [p IH|p IH|]; cbn [Pos.size_nat];
      rewrite ?Nat2N.inj_succ, ?N.pow_succ_r'; cbn; lia. }
  lia.
Qed.

Lemma str_int_value (n : N) : digits_value (rev (desktop_app.str_int n)) = n.
Proof.
  unfold desktop_app.str_int. rewrite rev_involutive.
  apply digits_from_value, size_nat_bound.
Qed.

Lemma digits_from_digits (fuel : nat) (n : N) :
  Forall (fun c => is_digit c = true) (desktop_app.digits_from fuel n).
Proof.
  revert n. induction fuel as [|fuel IH]; intros n; [constructor|].
  cbn [desktop_app.digits_from]. constructor.
  - unfold is_digit. assert (Hm : n mod 10 < 10) by (apply N.mod_lt; lia).
    revert Hm. generalize (n mod 10). intros d Hd.
    apply andb_true_iff. split; apply N.leb_le; lia.
  - destruct (n <? 10); [constructor|apply IH].
Qed.

Lemma digits_from_length (fuel k : nat) (n : N) :
  n < 10 ^ N.of_nat (S k) -> (length (desktop_app.digits_from fuel n) <= S k)%nat.
Proof.
  revert k n. induction fuel as [|fuel IH]; intros k n Hn; [cbn; lia|].
  cbn [desktop_app.digits_from length].
  destruct (n <? 10) eqn:Hlt; [cbn; lia|].
  apply N.ltb_ge in Hlt. destruct k as [|k]; [cbn in Hn; lia|].
  specialize (IH k (n / 10)). cbn [length].
  assert (n / 10 < 10 ^ N.of_nat (S k)); [|lia].
  apply N.Div0.div_lt_upper_bound.
  rewrite (Nat2N.inj_succ (S k)), N.pow_succ_r' in Hn. lia.
Qed.

Lemma str_int_length (n : N) :
  n < 10 ^ 30 -> (length (desktop_app.str_int n) <= 30)%nat.
Proof.
  intros Hn. unfold desktop_app.str_int. rewrite length_rev.
  apply (digits_from_length _ 29). exact Hn.
Qed.

Lemma leading_digits_app (ds rest : pystr) (c : N) :
  Forall (fun d => is_digit d = true) ds -> is_digit c = false ->
  leading_digits (ds ++ c :: rest) = ds.
Proof.
  intros Hds Hc. induction Hds as [|d ds Hd _ IH].
  - cbn. rewrite Hc. reflexivity.
  - cbn [app leading_digits]. rewrite Hd, IH. reflexivity.
Qed.

(** A numbered title with a number of at most 30 digits: the start of the
    base, a space and the number. *)
Lemma numbered_title_short (base : pystr) (counter : N) :
  counter < 10 ^ 30 ->
  desktop_app.numbered_title base counter
  = take (30 - length (desktop_app.str_int counter)) base
    ++ 32 :: desktop_app.str_int counter.
Proof.
  intros Hc. pose proof (str_int_length counter Hc) as Hlen.
  unfold desktop_app.numbered_title, desktop_app.slice_to_any, len. cbv zeta.
  cbn [length].
  replace (31 - Z.of_nat (S (length (desktop_app.str_int counter))) <? 0)%Z
    with false by (symmetry; apply Z.ltb_ge; lia).
  replace (Z.to_nat (31 - Z.of_nat (S (length (desktop_app.str_int counter)))))
    with (30 - length (desktop_app.str_int counter))%nat by lia.
  apply take_ge. rewrite length_app, length_take. cbn [length]. lia.
Qed.

Lemma counter_of_numbered_title (base : pystr) (counter : N) :
  counter < 10 ^ 30 ->
  counter_of (desktop_app.numbered_title base counter) = counter.
Proof.
  intros Hc. rewrite (numbered_title_short base counter Hc).
  unfold counter_of. rewrite rev_app_distr. cbn [rev].
  rewrite <- app_assoc. cbn [app].
  rewrite leading_digits_app.
  - apply str_int_value.
  - unfold desktop_app.str_int. rewrite rev_involutive. apply digits_from_digits.
  - reflexivity.
Qed.

Lemma title_loop_ends (base : pystr) (existing : gset pystr) (Q : pystr -> Prop)
    (fuel : nat) (title : pystr) (counter : N) :
  Q title ->
  (forall k, (k < fuel)%nat ->
             Q (desktop_app.numbered_title base (counter + N.of_nat k))) ->
  ((title ∉ existing) \/
   exists k, (k < fuel)%nat /\
             desktop_app.numbered_title base (counter + N.of_nat k) ∉ existing) ->
  exists t, desktop_app.title_loop fuel base existing title counter = Some t /\
            (t ∉ existing) /\ Q t.
Proof.
  revert title counter. induction fuel as [|fuel IH]; intros title counter Hq Hall Hfresh.
  - destruct Hfresh as [Hfresh|(k & Hk & _)]; [|lia].
    exists title. cbn. rewrite bool_decide_eq_false_2 by exact Hfresh. auto.
  - cbn [desktop_app.title_loop].
    destruct (decide (title ∈ existing)) as [Hin|Hout].
    + rewrite bool_decide_eq_true_2 by exact Hin.
      apply IH.
      * specialize (Hall O). rewrite N.add_0_r in Hall. apply Hall. lia.
      * intros k Hk. specialize (Hall (S k)).
        replace (counter + 1 + N.of_nat k) with (counter + N.of_nat (S k)) by lia.
        apply Hall. lia.
      * destruct Hfresh as [Hfresh|(k & Hk & Hfresh)]; [contradiction|].
        destruct k as [|k].
        -- left. rewrite N.add_0_r in Hfresh. exact Hfresh.
        -- right. exists k. split; [lia|].
           replace (counter + 1 + N.of_nat k) with (counter + N.of_nat (S k)) by lia.
           exact Hfresh.
    + rewrite bool_decide_eq_false_2 by exact Hout. exists title. auto.
Qed.

(** Among the first [size existing + 1] numbered titles, one is not in
    [existing]: they are all different. *)
Lemma fresh_numbered_title (base : pystr) (existing : gset pystr) :
  N.of_nat (size existing) + 2 < 10 ^ 30 ->
  exists k, (k < S (size existing))%nat /\
            desktop_app.numbered_title base (2 + N.of_nat k) ∉ existing.
Proof.
  intros Hsize.
  set (f := fun k : nat => desktop_app.numbered_title base (2 + N.of_nat k)).
  set (l := seq 0 (S (size existing))).
  assert (Hnd : NoDup (f <$> l)).
  { apply NoDup_fmap_2_strong; [|apply NoDup_seq].
    intros x y Hx Hy Hxy. apply elem_of_seq in Hx, Hy. unfold f in Hxy.
    apply (f_equal counter_of) in Hxy.
    rewrite !counter_of_numbered_title in Hxy by lia. lia. }
  destruct (decide (Forall (fun t => t ∈ existing) (f <$> l))) as [Hall|Hnot].
  - exfalso.
    assert (Hsub : list_to_set (f <$> l) ⊆ existing).
    { intros t Ht. apply elem_of_list_to_set in Ht.
      rewrite Forall_forall in Hall. apply Hall, Ht. }
    apply subseteq_size in Hsub.
    rewrite (size_list_to_set _ Hnd), length_fmap in Hsub.
    unfold l in Hsub. rewrite length_seq in Hsub. lia.
  - apply not_Forall_Exists in Hnot; [|intros t; apply _].
    apply Exists_exists in Hnot as (t & Ht & Hfresh).
    apply list_elem_of_fmap in Ht as (k & -> & Hk).
    apply elem_of_seq in Hk. exists k. split; [lia|exact Hfresh].
Qed.

Lemma digit_valid (c : N) :
  is_digit c = true -> in_chars desktop_app.INVALID c = false.
Proof.
  unfold is_digit. intros Hc. bool_to_prop Hc.
  apply not_true_iff_false. intros Hin. cbn in Hin. bool_to_prop Hin. lia.
Qed.

Lemma rstrip_by_Forall (P : N -> Prop) (f : N -> bool) (s : pystr) :
  Forall P s -> Forall P (rstrip_by f s).
Proof.
  induction 1 as [|c s Hc Hs IH]; [constructor|].
  rewrite rstrip_by_cons. destruct (rstrip_by f s).
  - destruct (f c); [constructor|]. repeat constructor. exact Hc.
  - constructor; assumption.
Qed.

Lemma strip_by_Forall (P : N -> Prop) (f : N -> bool) (s : pystr) :
  Forall P s -> Forall P (strip_by f s).
Proof.
  intros Hs. unfold strip_by.
  destruct (lstrip_by_suffix f (rstrip_by f s)) as [k ->].
  apply Forall_drop, rstrip_by_Forall, Hs.
Qed.

Lemma take_nonempty (n : nat) (s : pystr) : s <> [] -> take (S n) s <> [].
Proof. destruct s; [contradiction|discriminate]. Qed.

Lemma numbered_title_valid (base : pystr) (counter : N) :
  Forall (fun c => in_chars desktop_app.INVALID c = false) base ->
  valid_title (desktop_app.numbered_title base counter).
Proof.
  intros Hbase. unfold valid_title, desktop_app.numbered_title. cbv zeta.
  split; [rewrite length_take; lia|]. split.
  - apply take_nonempty. intros Habs. apply app_eq_nil in Habs as [_ Habs].
    discriminate.
  - apply Forall_take, Forall_app. split.
    + unfold desktop_app.slice_to_any. destruct (_ <? 0)%Z; apply Forall_take, Hbase.
    + constructor; [reflexivity|].
      unfold desktop_app.str_int. apply Forall_rev.
      eapply Forall_impl; [apply digits_from_digits|]. intros c. apply digit_valid.
Qed.

Lemma base_title_valid (name : pystr) :
  let replaced :=
    strip (map (fun c => if in_chars desktop_app.INVALID c then 95 else c) name) in
  let base := if negb (truthy replaced) then desktop_app.UNKNOWN else replaced in
  valid_title (take 31 base) /\
  Forall (fun c => in_chars desktop_app.INVALID c = false) (take 31 base).
Proof.
  cbv zeta.
  set (replaced := strip (map _ name)).
  assert (Hrep : Forall (fun c => in_chars desktop_app.INVALID c = false) replaced).
  { apply strip_by_Forall. apply Forall_forall. intros c Hc.
    apply list_elem_of_In, in_map_iff in Hc as (d & <- & _).
    destruct (in_chars desktop_app.INVALID d) eqn:Hd; [reflexivity|exact Hd]. }
  assert (Hbase : (if negb (truthy replaced) then desktop_app.UNKNOWN else replaced) <> []
                  /\ Forall (fun c => in_chars desktop_app.INVALID c = false)
                       (if negb (truthy replaced) then desktop_app.UNKNOWN else replaced)).
  { destruct (truthy replaced) eqn:Ht; cbn [negb].
    - split; [apply truthy_nonempty, Ht|exact Hrep].
    - split; [discriminate|]. apply (bool_decide_unpack _). vm_compute. exact I. }
  destruct Hbase as [Hne Hvalid].
  assert (Htake : Forall (fun c => in_chars desktop_app.INVALID c = false)
                    (take 31 (if negb (truthy replaced)
                              then desktop_app.UNKNOWN else replaced)))
    by apply Forall_take, Hvalid.
  split; [|exact Htake].
  split; [rewrite length_take; lia|]. split; [apply take_nonempty, Hne|exact Htake].
Qed.

Lemma safe_title_ends (name : pystr) (existing : gset pystr) :
  N.of_nat (size existing) + 2 < 10 ^ 30 ->
  exists title,
    desktop_app.safe_title name existing = Some (title, existing ∪ {[title]}) /\
    (title ∉ existing) /\ valid_title title.
Proof.
  intros Hsize. unfold desktop_app.safe_title. cbv zeta.
  destruct (base_title_valid name) as [Hbase Hchars]. cbv zeta in Hbase, Hchars.
  set (base := take 31 _) in *.
  destruct (title_loop_ends base existing valid_title (S (size existing)) base 2 Hbase)
    as (title & Hloop & Hfresh & Hvalid).
  - intros k _. apply numbered_title_valid, Hchars.
  - right. apply fresh_numbered_title, Hsize.
  - exists title. rewrite Hloop. auto.
Qed.

(** X18.  With fewer than 10^30 titles taken, [safe_title] ends and
    returns a title that is none of the titles taken, has at most 31
    characters, is not empty and holds none of the characters
    [[]:*?/\]; the title is added to the titles taken. *)
Theorem safe_title_fresh (name : pystr) (existing : gset pystr) :
  N.of_nat (size existing) + 2 < 10 ^ 30 ->
  exists title,
    desktop_app.safe_title name existing = Some (title, existing ∪ {[title]}) /\
    (title ∉ existing) /\ valid_title title.
Proof. apply safe_title_ends. Qed.

Lemma safe_title_fresh_witness :
  exists title,
    desktop_app.safe_title (u "Иван: Петров") {[u "Иван_ Петров"]}
    = Some (title, {[u "Иван_ Петров"]} ∪ {[title]}) /\
    (title ∉ ({[u "Иван_ Петров"]} : gset pystr)) /\ valid_title title.
Proof.
  apply (safe_title_fresh (u "Иван: Петров") {[u "Иван_ Петров"]}).
  rewrite size_singleton. vm_compute. reflexivity.
Defined.

Lemma sheet_titles_from (existing : gset pystr) (names : list pystr) :
  N.of_nat (size existing + length names) + 2 < 10 ^ 30 ->
  exists titles,
    desktop_app.sheet_titles existing names = Some titles /\
    length titles = length names /\
    NoDup titles /\
    (forall t, t ∈ titles -> t ∉ existing) /\
    Forall valid_title titles.
Proof.
  revert existing. induction names as [|name names IH]; intros existing Hsize.
  - exists []. cbn. split; [reflexivity|]. split; [reflexivity|].
    split; [constructor|]. split; [|constructor]. intros t Ht. inversion Ht.
  - cbn [length] in Hsize.
    destruct (safe_title_ends name existing) as (title & Hsafe & Hfresh & Hvalid);
      [lia|].
    assert (Hgrow : size (existing ∪ {[title]}) = S (size existing)).
    { rewrite size_union by set_solver. rewrite size_singleton. lia. }
    destruct (IH (existing ∪ {[title]})) as (titles & Hrest & Hlen & Hnd & Hnew & Hall);
      [rewrite Hgrow; lia|].
    exists (title :: titles). cbn [desktop_app.sheet_titles].
    rewrite Hsafe, Hrest. split; [reflexivity|].
    split; [cbn; rewrite Hlen; reflexivity|]. split; [|split].
    + apply NoDup_cons. split; [|exact Hnd].
      intros Hin. apply (Hnew title Hin). set_solver.
    + intros t Ht. apply elem_of_cons in Ht as [->|Ht]; [exact Hfresh|].
      intros Hin. apply (Hnew t Ht). set_solver.
    + constructor; assumption.
Qed.

(** X19.  The sheets [build_output] creates for a group list of fewer
    than 10^30 names get one title each, the titles are pairwise
    different, and each is a valid sheet title: at most 31 characters,
    not empty, without the characters [[]:*?/\]. *)
Theorem sheet_titles_distinct (rows : list desktop_app.OutputRow) :
  N.of_nat (length (desktop_app.sheets rows)) + 2 < 10 ^ 30 ->
  exists titles,
    desktop_app.sheet_titles ∅ (map fst (desktop_app.sheets rows)) = Some titles /\
    length titles = length (desktop_app.sheets rows) /\
    NoDup titles /\
    Forall valid_title titles.
Proof.
  intros Hsize.
  destruct (sheet_titles_from ∅ (map fst (desktop_app.sheets rows)))
    as (titles & Hrun & Hlen & Hnd & _ & Hall).
  - rewrite size_empty, length_map. exact Hsize.
  - exists titles. rewrite length_map in Hlen. auto.
Qed.

Lemma sheet_titles_distinct_witness :
  let row p := {| desktop_app.number := []; desktop_app.predal := u p;
                  desktop_app.date_str := []; desktop_app.product := [];
                  desktop_app.qty := []; desktop_app.link := None |} in
  exists titles,
    desktop_app.sheet_titles ∅
      (map fst (desktop_app.sheets [row "Иван: Петров"; row "Иван/ Петров"]%string))
    = Some titles /\
    length titles
    = length (desktop_app.sheets [row "Иван: Петров"; row "Иван/ Петров"]%string) /\
    NoDup titles /\ Forall valid_title titles.
Proof.
  cbv zeta. apply sheet_titles_distinct. vm_compute. reflexivity.
Defined.

(** ** Text after the deciding chunk *)

Lemma scan_chunk_more (c : pystr) (rest more : list pystr) (value : pystr) :
  scan_chunk c rest = Some value -> scan_chunk c (rest ++ more) = Some value.
Proof.
  unfold scan_chunk. destruct (contains PREDAL (upper c)); [|discriminate].
  cbv zeta. destruct (truthy _); [auto|].
  destruct rest as [|n rest]; [discriminate|]. cbn [app]. auto.
Qed.

Lemma scan_chunk_head (c n : pystr) (rest rest' : list pystr) :
  scan_chunk c (n :: rest) = scan_chunk c (n :: rest').
Proof. reflexivity. Qed.

Lemma scan_more (chunks more : list pystr) (value : pystr) :
  scan chunks = Some value -> scan (chunks ++ more) = Some value.
Proof.
  induction chunks as [|c chunks IH]; [discriminate|].
  cbn [scan app]. destruct (scan_chunk c chunks) as [r|] eqn:Hc.
  - intros [= ->]. rewrite (scan_chunk_more c chunks more value Hc). reflexivity.
  - intros Hv. destruct chunks as [|n chunks]; [discriminate|].
    cbn [app]. rewrite (scan_chunk_head c n (chunks ++ more) chunks), Hc.
    apply IH, Hv.
Qed.

(** X20.  A value found in a list of chunks is the value found in any
    longer list that starts with it: chunks that follow do not change
    it. *)
Theorem extract_stable_under_more_chunks (chunks more : list pystr) (value : pystr) :
  desktop_app.extract_predal_from_chunks chunks = Some value ->
  desktop_app.extract_predal_from_chunks (chunks ++ more) = Some value.
Proof. rewrite !extract_is_scan. apply scan_more. Qed.

Lemma extract_stable_under_more_chunks_witness :
  desktop_app.extract_predal_from_chunks
    ([u "ПРЕДАЛ:"; u "Иван Иванов"] ++ [u "ПРЕДАЛ: Мария"; u "Получил:"])
  = Some (u "Иван Иванов").
Proof.
  apply extract_stable_under_more_chunks. vm_compute. reflexivity.
Defined.

(** ** What a run computes when the network is steady *)

Lemma run_row_fields (fetch_html : nat -> pystr -> fetch_outcome)
    (html_to_chunks : pystr -> list pystr)
    (st : desktop_app.run_state) (row : desktop_app.ReceiptRow) :
  let o := snd (desktop_app.run_row fetch_html html_to_chunks st row) in
  desktop_app.number o = desktop_app.r_number row /\
  desktop_app.date_str o = desktop_app.r_date row /\
  desktop_app.product o = desktop_app.r_product row /\
  desktop_app.qty o = desktop_app.r_qty row.
Proof.
  cbv zeta. unfold desktop_app.run_row. cbv zeta.
  match goal with
  | |- context [let '(_, _) := ?x in _] => destruct x as [st' predal]
  end.
  cbn. auto.
Qed.

Lemma run_fields (fetch_html : nat -> pystr -> fetch_outcome)
    (html_to_chunks : pystr -> list pystr) (rows : list desktop_app.ReceiptRow) :
  Forall2 (fun row o =>
             desktop_app.number o = desktop_app.r_number row /\
             desktop_app.date_str o = desktop_app.r_date row /\
             desktop_app.product o = desktop_app.r_product row /\
             desktop_app.qty o = desktop_app.r_qty row)
          rows (snd (desktop_app.run fetch_html html_to_chunks rows)).
Proof.
  induction rows as [|row rows IH] using rev_ind; [constructor|].
  rewrite run_snoc.
  pose proof (run_row_fields fetch_html html_to_chunks
                (fst (desktop_app.run fetch_html html_to_chunks rows)) row) as Hrow.
  destruct (desktop_app.run_row fetch_html html_to_chunks
              (fst (desktop_app.run fetch_html html_to_chunks rows)) row) as [st' o].
  cbn [snd] in *. apply Forall2_app; [exact IH|]. repeat constructor; apply Hrow.
Qed.

(** X21.  When the network answers a link the same way whenever it is
    asked, the cache cannot be seen in the result: every output row is
    the row a request of its own would give, with the number, date,
    product, quantity and link of the input row. *)
Theorem run_is_cache_transparent
    (fetch_html : nat -> pystr -> fetch_outcome)
    (html_to_chunks : pystr -> list pystr)
    (rows : list desktop_app.ReceiptRow) :
  (forall n l, fetch_html n l = fetch_html O l) ->
  snd (desktop_app.run fetch_html html_to_chunks rows)
  = map (direct_row html_to_chunks (fetch_html O)) rows.
Proof.
  intros Hsteady.
  destruct (run_invariant_holds fetch_html html_to_chunks rows)
    as (Ha & _ & Hc & _ & He).
  pose proof (run_fields fetch_html html_to_chunks rows) as Hf.
  apply list_eq. intros i.
  change (map (direct_row html_to_chunks (fetch_html O)) rows)
    with (direct_row html_to_chunks (fetch_html O) <$> rows).
  rewrite list_lookup_fmap.
  destruct (rows !! i) as [row|] eqn:Hrow.
  - destruct (Forall2_lookup_l _ _ _ _ _ Ha Hrow) as (o & Ho & Hlink & Hp & Hin).
    destruct (Forall2_lookup_lr _ _ _ _ _ _ Hf Hrow Ho) as (Hn & Hd & Hpr & Hq).
    rewrite Ho. cbn [fmap option_fmap option_map]. f_equal.
    destruct o as [number predal date_str product qty link].
    cbn [desktop_app.number desktop_app.predal desktop_app.date_str
           desktop_app.product desktop_app.qty desktop_app.link] in *.
    subst. unfold direct_row. f_equal.
    unfold resolved. destruct (desktop_app.r_link row) as [l|]; [|reflexivity].
    destruct (truthy l) eqn:Ht; [|reflexivity].
    assert (Hreq : l ∈ desktop_app.requests
                         (fst (desktop_app.run fetch_html html_to_chunks rows))).
    { apply Hc, (Hin l); [reflexivity|apply truthy_nonempty, Ht]. }
    apply list_elem_of_lookup in Hreq as [n Hn].
    rewrite (He n l Hn), Hsteady. reflexivity.
  - cbn. apply lookup_ge_None. apply lookup_ge_None in Hrow.
    rewrite <- (Forall2_length _ _ _ Ha). exact Hrow.
Qed.

Lemma run_is_cache_transparent_witness :
  let page := fun (_ : nat) (_ : pystr) =>
                Fetched (u "ПРЕДАЛ: Иван Иванов") TEXT_HTML in
  let row := {| desktop_app.r_number := u "7"; desktop_app.r_client := u "Лагардер";
                desktop_app.r_date := u "2024-01-01";
                desktop_app.r_product := u "PAZ Mango"; desktop_app.r_qty := u "3";
                desktop_app.r_link := Some (u "http://x/7") |} in
  map desktop_app.predal
    (snd (desktop_app.run page (fun html => [html]) [row; row]))
  = [u "Иван Иванов"; u "Иван Иванов"].
Proof.
  cbv zeta.
  rewrite (run_is_cache_transparent
             (fun _ _ => Fetched (u "ПРЕДАЛ: Иван Иванов") TEXT_HTML)
             (fun html => [html])).
  - vm_compute. reflexivity.
  - reflexivity.
Defined.

(** ** Normalising twice *)

Lemma lower_char_fixed (c : N) :
  Forall (fun d => lower_char d = [d]) (lower_char c).
Proof.
  assert (Hfixed : forall d,
             ~ (65 <= d <= 90) -> ~ (192 <= d <= 222 /\ d <> 215) ->
             d <> 304 -> d <> 376 -> ~ (1024 <= d <= 1071) ->
             lower_char d = [d]).
  { intros d H1 H2 H3 H4 H5.
    lower_char_cases d; solve [reflexivity | exfalso; lia]. }
  unfold lower_char at 2.
  repeat match goal with
    | |- context [if ?b then _ else _] =>
        let H := fresh "Hcase" in destruct b eqn:H; bool_to_prop H
    end;
    repeat (constructor; [apply Hfixed; lia|]); constructor.
Qed.

Lemma lower_fixed_chars (s : pystr) :
  Forall (fun d => lower_char d = [d]) (lower s).
Proof.
  induction s as [|c s IH]; [constructor|].
  rewrite lower_cons. apply Forall_app. split; [apply lower_char_fixed|exact IH].
Qed.

Lemma lower_of_fixed (s : pystr) :
  Forall (fun d => lower_char d = [d]) s -> lower s = s.
Proof.
  induction 1 as [|c s Hc _ IH]; [reflexivity|].
  rewrite lower_cons, Hc, IH. reflexivity.
Qed.

Lemma squeeze_spaces_Forall (P : N -> Prop) (s : pystr) :
  Forall P s -> Forall P (squeeze_spaces s).
Proof.
  induction 1 as [|c s Hc _ IH]; [constructor|].
  cbn [squeeze_spaces].
  destruct ((c =? 32) && startswith s desktop_app.SPACE); [exact IH|].
  constructor; assumption.
Qed.

Lemma squeeze_spaces_first (s : pystr) (c : N) :
  head s = Some c -> isspace c = false -> head (squeeze_spaces s) = Some c.
Proof.
  destruct s as [|d s]; [discriminate|]. intros [= ->] Hc.
  cbn [squeeze_spaces]. destruct (c =? 32) eqn:H32.
  - apply N.eqb_eq in H32. subst c. discriminate.
  - reflexivity.
Qed.

Lemma squeeze_spaces_last (s : pystr) : last (squeeze_spaces s) = last s.
Proof.
  induction s as [|c s IH]; [reflexivity|].
  cbn [squeeze_spaces]. destruct s as [|d s].
  - rewrite andb_false_r. reflexivity.
  - rewrite last_cons_cons.
    destruct ((c =? 32) && startswith (d :: s) desktop_app.SPACE); [exact IH|].
    rewrite last_cons, IH. destruct (last (d :: s)) eqn:Hl; [reflexivity|].
    rewrite last_cons in Hl. destruct (last s); discriminate.
Qed.

Lemma lower_first (s : pystr) :
  (forall c, head s = Some c -> isspace c = false) ->
  forall d, head (lower s) = Some d -> isspace d = false.
Proof.
  destruct s as [|c s]; [discriminate|]. intros Hc d.
  rewrite lower_cons. pose proof (lower_char_nonspace c (Hc c eq_refl)) as Hl.
  destruct (lower_char c) as [|e r] eqn:He; [destruct (lower_char_nonempty c He)|].
  intros [= <-]. apply (Forall_inv Hl).
Qed.

Lemma lower_app (s t : pystr) : lower (s ++ t) = lower s ++ lower t.
Proof. unfold lower. rewrite !flat_map_app. reflexivity. Qed.

Lemma lower_last (s : pystr) :
  (forall c, last s = Some c -> isspace c = false) ->
  forall d, last (lower s) = Some d -> isspace d = false.
Proof.
  destruct (last s) as [c|] eqn:Hs.
  - apply last_Some in Hs as [s' ->]. intros Hc d.
    rewrite lower_app, last_app. cbn [lower flat_map]. rewrite app_nil_r.
    pose proof (lower_char_nonspace c (Hc c eq_refl)) as Hl.
    destruct (last (lower_char c)) as [e|] eqn:He.
    + intros [= <-]. apply last_Some in He as [r He]. rewrite He in Hl.
      apply Forall_app in Hl as [_ Hl]. apply (Forall_inv Hl).
    + destruct (lower_char c) as [|e r] eqn:Hr;
        [destruct (lower_char_nonempty c Hr)|].
      rewrite last_cons in He. destruct (last r); discriminate.
  - destruct s as [|c s]; [discriminate|].
    rewrite last_cons in Hs. destruct (last s); discriminate.
Qed.

Section strip_fixed.
Variable f : N -> bool.

Lemma lstrip_by_fixed (s : pystr) :
  (forall c, head s = Some c -> f c = false) -> lstrip_by f s = s.
Proof.
  destruct s as [|c s]; [reflexivity|]. intros Hc.
  cbn [lstrip_by]. rewrite (Hc c eq_refl). reflexivity.
Qed.

Lemma rstrip_by_fixed (s : pystr) :
  (forall c, last s = Some c -> f c = false) -> rstrip_by f s = s.
Proof.
  induction s as [|c s IH]; [reflexivity|]. intros Hc.
  rewrite rstrip_by_cons. destruct s as [|d s].
  - cbn. rewrite (Hc c eq_refl). reflexivity.
  - rewrite IH; [reflexivity|]. intros e He. apply Hc.
    rewrite last_cons_cons. exact He.
Qed.

Lemma strip_by_fixed (s : pystr) :
  (forall c, head s = Some c -> f c = false) ->
  (forall c, last s = Some c -> f c = false) -> strip_by f s = s.
Proof.
  intros Hh Hl. unfold strip_by. rewrite (rstrip_by_fixed s Hl).
  apply lstrip_by_fixed, Hh.
Qed.
End strip_fixed.

(** X22.  Normalising a product name is idempotent: a name that has
    been normalised is left as it is by a second normalisation, so the
    keys of the product catalogue are stable. *)
Theorem normalize_product_idempotent (value : pystr) :
  desktop_app.normalize_product (desktop_app.normalize_product value)
  = desktop_app.normalize_product value.
Proof.
  rewrite (normalize_product_squeeze value).
  set (t := squeeze_spaces (lower (strip value))).
  rewrite normalize_product_squeeze.
  assert (Hstrip : strip t = t).
  { apply strip_by_fixed.
    - intros c Hc. destruct (isspace c) eqn:Hs; [|reflexivity]. exfalso.
      subst t. destruct (lower (strip value)) as [|d r] eqn:Hl; [discriminate|].
      assert (Hd : isspace d = false).
      { apply (lower_first (strip value)); [apply strip_by_head|].
        rewrite Hl. reflexivity. }
      rewrite (squeeze_spaces_first (d :: r) d eq_refl Hd) in Hc.
      congruence.
    - intros c Hc. subst t. rewrite squeeze_spaces_last in Hc.
      apply (lower_last (strip value)); [apply strip_by_last|exact Hc]. }
  rewrite Hstrip.
  rewrite (lower_of_fixed t)
    by (apply squeeze_spaces_Forall, lower_fixed_chars).
  apply squeeze_spaces_fixed, squeeze_spaces_no_run.
Qed.
